(** * An undirected graph with depth-first and breadth-first traversal

    Shallow embedding of [graph.js] (classes [Node] and [Graph]).

    JavaScript objects are compared by identity and are shared: a vertex is
    an address into a store of [Node] objects, and the [Set] that a [Node]
    or a [Graph] holds is an address into a store of [Set] objects, so that
    one vertex may sit in many sets and one [Set] may be held by several
    objects.  A [Set] keeps its entries in insertion order and is iterated
    live, as ECMAScript prescribes.  A method is a state transformer that
    returns a value, throws a [TypeError], or runs out of the budget given
    to its loops. *)

From stdpp Require Import gmap list sorting.

(** ** References *)

(** What a variable such as [vertex] or [start] may hold: [null], [undefined]
    (an argument left out), or a reference to an object.  Primitive values
    are left out: the methods use a truthy one as they use an object that is
    not a [Node], and a falsy one (0, NaN, the empty string, false) as they
    use [null]. *)
Inductive ref : Type :=
  | Null
  | Undefined
  | Obj (a : positive).

#[global] Instance ref_eq_dec : EqDecision ref.
Proof. solve_decision. Defined.

(** [if (!vertex)]: [null] and [undefined] are falsy, every object is truthy. *)
Definition truthy (x : ref) : bool :=
  match x with
  | Obj _ => true
  | Null | Undefined => false
  end.

(** ** ECMAScript [Set]

    The entry list of a [Set]: [add] appends a key that is not yet there,
    [delete] leaves a hole ([None]) in the place of the key, and an iterator
    is an index into the list that skips holes.  The keys are compared by
    identity. *)
Abbreviation JSSet := (list (option ref)).

Definition set_has (s : JSSet) (x : ref) : bool := bool_decide (Some x ∈ s).

Definition set_add (s : JSSet) (x : ref) : JSSet :=
  if set_has s x then s else s ++ [Some x].

Definition set_delete (s : JSSet) (x : ref) : JSSet :=
  (λ e, if decide (e = Some x) then None else e) <$> s.

(** The keys in iteration order. *)
Definition set_keys (s : JSSet) : list ref := omap id s.

(** The entries of [new Set(iterable)]. *)
Definition set_of_list (l : list ref) : JSSet := foldl set_add [] l.

(** Each entry of [l] is still in its place in [l'], or its key is gone. *)
Definition in_place_or_gone (l l' : JSSet) : Prop :=
  length l' = length l ∧
  (∀ y, Some y ∈ l' → Some y ∈ l) ∧
  ∀ (j : nat) y, l !! j = Some (Some y) → l' !! j = Some (Some y) ∨ Some y ∉ l'.

(** The addresses among the keys of a set. *)
Definition visited_addrs (vs : JSSet) : gset positive :=
  list_to_set (omap (λ e, match e with Some (Obj a) => Some a | _ => None end) vs).

Section Graph.

(** The payload of a vertex is opaque. *)
Context {V : Type}.

(** ** The store *)

(** [class Node]: [this.value], and [this.adjacent], a reference to a [Set]. *)
Record Node : Type := mkNode {
  value : V;
  adjacent : positive
}.

(** [class Graph]: [this.nodes], a reference to a [Set]. *)
Record Graph : Type := mkGraph {
  nodes : positive
}.

(** The [Node] objects, the [Set] objects, and the graph the methods are
    called on.  An [Obj a] without a [Node] at [a] is an object that is not a
    [Node]: its [adjacent] property is [undefined].  A [Set] that was never
    written to has no entries. *)
Record State : Type := mkState {
  heap : gmap positive Node;
  sets : gmap positive JSSet;
  this : Graph
}.

Inductive outcome (A : Type) : Type :=
  | Ok (a : A) (s : State)
  | TypeError (s : State)
  | Diverge.
#[global] Arguments Ok {A} a s.
#[global] Arguments TypeError {A} s.
#[global] Arguments Diverge {A}.

Definition M (A : Type) : Type := State → outcome A.

Definition ret {A} (a : A) : M A := λ s, Ok a s.

Definition bind {A B} (m : M A) (k : A → M B) : M B := λ s,
  match m s with
  | Ok a s' => k a s'
  | TypeError s' => TypeError s'
  | Diverge => Diverge
  end.

Notation "'let!' x ':=' m 'in' k" := (bind m (λ x, k))
  (at level 10, x name, m at level 100, k at level 200, only parsing).
Notation "m >> k" := (bind m (λ _, k))
  (at level 100, k at level 200, right associativity, only parsing).

(** The entries of the [Set] object at [p]. *)
Definition set_entries (s : State) (p : positive) : JSSet :=
  default [] (sets s !! p).

(** The [Node] a reference points to. *)
Definition deref (s : State) (x : ref) : option Node :=
  match x with
  | Obj a => heap s !! a
  | Null | Undefined => None
  end.

(** [new Set(iterable)], at a fresh address. *)
Definition Set_new (entries : JSSet) : M positive := λ s,
  let p := fresh (dom (sets s)) in
  Ok p (mkState (heap s) (<[p := entries]> (sets s)) (this s)).

(** [p.has(x)] *)
Definition Set_has (p : positive) (x : ref) : M bool := λ s,
  Ok (set_has (set_entries s p) x) s.

(** [p.add(x)] *)
Definition Set_add (p : positive) (x : ref) : M unit := λ s,
  Ok tt (mkState (heap s) (<[p := set_add (set_entries s p) x]> (sets s)) (this s)).

(** [p.delete(x)] *)
Definition Set_delete (p : positive) (x : ref) : M unit := λ s,
  Ok tt (mkState (heap s) (<[p := set_delete (set_entries s p) x]> (sets s)) (this s)).

(** [new Node(value, adjacent)], at a fresh address; without the second
    argument, [adjacent = new Set()]. *)
Definition Node_new (val : V) (adj : option positive) : M ref :=
  let! p := match adj with
            | Some p => ret p
            | None => Set_new []
            end in
  λ s, let a := fresh (dom (heap s)) in
       Ok (Obj a) (mkState (<[a := mkNode val p]> (heap s)) (sets s) (this s)).

(** [new Graph()]: [this.nodes = new Set()]; the methods that follow are
    called on the new graph. *)
Definition Graph_new : M unit :=
  let! p := Set_new [] in
  λ s, Ok tt (mkState (heap s) (sets s) (mkGraph p)).

(** [this.nodes] *)
Definition this_nodes : M positive := λ s, Ok (nodes (this s)) s.

(** Reading a property of [v], [v.value] or [v.adjacent]: a [TypeError]
    follows when [v] is [null] or [undefined], or when [v] is not a [Node]
    and a method of its [adjacent] is called. *)
Definition get_node (v : ref) : M Node := λ s,
  match deref s v with
  | Some nd => Ok nd s
  | None => TypeError s
  end.

(** Iteration over the [Set] object at [p], by [for ... of] or by [forEach]:
    the iterator is the index [i] into the live entry list, read again from
    the store at every step, so that a deletion made by the body is seen.
    [n] bounds the number of entries it may step over; the locals the body
    updates are threaded as [l]. *)
Fixpoint set_iterate {L : Type} (n : nat) (p : positive) (i : nat)
    (body : ref → L → M L) (l : L) : M L := λ s,
  match set_entries s p !! i with
  | None => Ok l s
  | Some e =>
      match n with
      | 0 => Diverge
      | S n' =>
          match e with
          | None => set_iterate n' p (S i) body l s
          | Some x => (let! l' := body x l in set_iterate n' p (S i) body l') s
          end
      end
  end.

(** The budget of an iteration is the length of the entry list when it
    starts: no body of this program adds to the set it iterates over, and
    [delete] keeps the length. *)
Definition forEach {L : Type} (p : positive) (body : ref → L → M L) (l : L) : M L :=
  λ s, set_iterate (length (set_entries s p)) p 0 body l s.

(** ** Mutation *)

Definition addVertex (vertex : ref) : M unit :=
  let! ns := this_nodes in
  Set_add ns vertex.

Fixpoint addVertices (vertexArray : list ref) : M unit :=
  match vertexArray with
  | [] => ret tt
  | vertex :: rest =>
      (let! ns := this_nodes in Set_add ns vertex) >> addVertices rest
  end.

Definition addEdge (v1 v2 : ref) : M unit :=
  let! ns := this_nodes in
  let! h1 := Set_has ns v1 in
  let! h2 := Set_has ns v2 in
  if negb h1 || negb h2 then ret tt
  else
    (let! n1 := get_node v1 in Set_add (adjacent n1) v2) >>
    (let! n2 := get_node v2 in Set_add (adjacent n2) v1).

Definition removeEdge (v1 v2 : ref) : M unit :=
  let! ns := this_nodes in
  let! h1 := Set_has ns v1 in
  let! h2 := Set_has ns v2 in
  if negb h1 || negb h2 then ret tt
  else
    (let! n1 := get_node v1 in Set_delete (adjacent n1) v2) >>
    (let! n2 := get_node v2 in Set_delete (adjacent n2) v1).

Definition removeVertex (vertex : ref) : M unit :=
  let! ns := this_nodes in
  let! h := Set_has ns vertex in
  if negb h then ret tt
  else
    let! nd := get_node vertex in
    forEach (adjacent nd) (λ adjacentVertex _, removeEdge vertex adjacentVertex) tt >>
    Set_delete ns vertex.

(** ** Traversal *)

(** The locals [visited] and [result] that the closure [dfs] updates. *)
Record DfsLocals : Type := mkDfs {
  visited : JSSet;
  result : list V
}.

(** [fuel] bounds the depth of the recursion.  An object that is not a [Node]
    is marked and its [undefined] value pushed before [adjacent.forEach]
    throws; the locals are lost with the exception.  The recursion runs here
    on a call stack without limit; [dfs_stack] below is the same closure on
    a stack that can be full. *)
Fixpoint dfs (fuel : nat) (vertex : ref) (l : DfsLocals) : M DfsLocals :=
  match fuel with
  | 0 => λ _, Diverge
  | S fuel' =>
      if negb (truthy vertex) then ret l
      else
        let! nd := get_node vertex in
        forEach (adjacent nd)
          (λ neighbor l',
             if negb (set_has (visited l') neighbor) then dfs fuel' neighbor l'
             else ret l')
          (mkDfs (set_add (visited l) vertex) (result l ++ [value nd]))
  end.

Definition depthFirstSearch (start : ref) : M (list V) := λ s,
  (let! l := dfs (S (size (heap s))) start (mkDfs [] []) in ret (result l)) s.

(** The locals of [breadthFirstSearch]. *)
Record BfsLocals : Type := mkBfs {
  queue : list ref;
  bfs_result : list V;
  bfs_visited : JSSet
}.

(** The callback of [vertex.adjacent.forEach]. *)
Definition bfs_enqueue (neighbor : ref) (l : BfsLocals) : M BfsLocals :=
  if negb (set_has (bfs_visited l) neighbor)
  then ret (mkBfs (queue l ++ [neighbor]) (bfs_result l)
                  (set_add (bfs_visited l) neighbor))
  else ret l.

(** [while (queue.length)]; [fuel] bounds the number of rounds. *)
Fixpoint bfs_loop (fuel : nat) (l : BfsLocals) : M (list V) :=
  match queue l with
  | [] => ret (bfs_result l)
  | vertex :: rest =>
      match fuel with
      | 0 => λ _, Diverge
      | S fuel' =>
          let! nd := get_node vertex in
          let! l' := forEach (adjacent nd) bfs_enqueue
                       (mkBfs rest (bfs_result l ++ [value nd]) (bfs_visited l)) in
          bfs_loop fuel' l'
      end
  end.

(** Every key of the adjacency set of every [Node]. *)
Definition all_neighbors (s : State) : list ref :=
  map_to_list (heap s) ≫= (λ p, set_keys (set_entries s (adjacent p.2))).

Definition breadthFirstSearch (start : ref) : M (list V) := λ s,
  bfs_loop (S (length (all_neighbors s)))
    (mkBfs [start] [] (set_add [] start)) s.

End Graph.

#[global] Arguments Node : clear implicits.
#[global] Arguments State : clear implicits.
#[global] Arguments outcome : clear implicits.
#[global] Arguments M : clear implicits.
#[global] Arguments DfsLocals : clear implicits.
#[global] Arguments BfsLocals : clear implicits.

Notation "'let!' x ':=' m 'in' k" := (bind m (λ x, k))
  (at level 10, x name, m at level 100, k at level 200, only parsing).
Notation "m >> k" := (bind m (λ _, k))
  (at level 100, k at level 200, right associativity, only parsing).

(** ** Derived notions *)

Section Notions.
Context {V : Type}.
Implicit Types (s : State V) (x u v : ref).

(** [x] is in [this.nodes]. *)
Definition member s x : Prop := Some x ∈ set_entries s (nodes (this s)).

(** [x] refers to a [Node] object. *)
Definition is_node s x : Prop := is_Some (deref s x).

(** The entries of [u.adjacent]. *)
Definition neighbors s u : JSSet :=
  match deref s u with
  | Some nd => set_entries s (adjacent nd)
  | None => []
  end.

(** [x] is in [u.adjacent]. *)
Definition adj s u x : Prop := Some x ∈ neighbors s u.

(** [val] is [x.value]. *)
Definition has_value s x (val : V) : Prop :=
  ∃ nd, deref s x = Some nd ∧ value nd = val.

(** Reachability from [start] along adjacency links. *)
Inductive reachable s (start : ref) : ref → Prop :=
  | reach_start : reachable s start start
  | reach_step u x : reachable s start u → adj s u x → reachable s start x.

(** Edge symmetry among the vertices that satisfy [P]. *)
Definition symmetric_on (P : ref → Prop) s : Prop :=
  ∀ u v, P u → P v → is_node s u → is_node s v → adj s u v ↔ adj s v u.

(** Edge symmetry among the members of [this.nodes]. *)
Definition symmetric s : Prop := symmetric_on (member s) s.

(** Every member of [this.nodes] is a [Node]. *)
Definition members_typed s : Prop := ∀ x, member s x → is_node s x.

(** Every adjacency set holds references to [Node]s only. *)
Definition links_typed s : Prop := ∀ u x, adj s u x → is_node s x.

(** Every [Node] has an adjacency [Set] of its own: no two of them hold the
    same [Set] object, and none holds the [nodes] of the graph. *)
Definition unshared s : Prop :=
  (∀ u v nu nv, deref s u = Some nu → deref s v = Some nv →
     adjacent nu = adjacent nv → u = v) ∧
  (∀ u nu, deref s u = Some nu → adjacent nu ≠ nodes (this s)).

(** The mutating methods of [Graph]. *)
Inductive mutation : Type :=
  | AddVertex (vertex : ref)
  | AddVertices (vertexArray : list ref)
  | AddEdge (v1 v2 : ref)
  | RemoveEdge (v1 v2 : ref)
  | RemoveVertex (vertex : ref).

Definition run_mutation (op : mutation) : M V unit :=
  match op with
  | AddVertex vertex => addVertex vertex
  | AddVertices vertexArray => addVertices vertexArray
  | AddEdge v1 v2 => addEdge v1 v2
  | RemoveEdge v1 v2 => removeEdge v1 v2
  | RemoveVertex vertex => removeVertex vertex
  end.

(** What [addVertex] and [addVertices] need to keep the edges symmetric: the
    links between the vertices they add and the members are symmetric
    already.  The other methods need nothing. *)
Definition addition_symmetric s (op : mutation) : Prop :=
  match op with
  | AddVertex vertex => symmetric_on (λ x, member s x ∨ x = vertex) s
  | AddVertices vertexArray => symmetric_on (λ x, member s x ∨ x ∈ vertexArray) s
  | AddEdge _ _ | RemoveEdge _ _ | RemoveVertex _ => True
  end.

(** *** Invariants of the traversals *)

(** What holds of the locals between two calls of [dfs]: the values recorded
    are those of the vertices marked, in the order of marking, and every
    vertex marked is reachable. *)
Definition dfs_inv s start (l : DfsLocals V) : Prop :=
  NoDup (set_keys (visited l)) ∧
  Forall2 (has_value s) (set_keys (visited l)) (result l) ∧
  Forall (reachable s start) (set_keys (visited l)).

(** The locals only grow. *)
Definition dfs_le (l l' : DfsLocals V) : Prop :=
  (∀ x, Some x ∈ visited l → Some x ∈ visited l') ∧
  set_keys (visited l) `prefix_of` set_keys (visited l').

(** A [TypeError] of a traversal comes from a reachable reference that is
    not a [Node]. *)
Definition bad_reference s start : Prop :=
  ∃ x, reachable s start x ∧ deref s x = None.

(** What holds of the locals at the head of the [while] loop: the vertices
    marked are, in the order of marking, those already taken from the queue
    followed by the queue; the values recorded are those of the former. *)
Definition bfs_inv s start (l : BfsLocals V) : Prop :=
  ∃ taken,
    set_keys (bfs_visited l) = taken ++ queue l ∧
    NoDup (set_keys (bfs_visited l)) ∧
    Forall2 (has_value s) taken (bfs_result l) ∧
    Forall (reachable s start) (set_keys (bfs_visited l)).

(** The rounds that are left suffice for the queue and for the vertices not
    yet marked. *)
Definition bfs_budget s (fuel : nat) (l : BfsLocals V) : Prop :=
  length (queue l) + S (length (all_neighbors s))
  ≤ fuel + length (set_keys (bfs_visited l)).

(** *** Relations between stores *)

(** Two stores with the same objects in which sets have lost keys only. *)
Definition shrinks s s' : Prop :=
  this s' = this s ∧ heap s' = heap s ∧
  ∀ p, in_place_or_gone (set_entries s p) (set_entries s' p).

(** Two stores with the same objects and the same members of [this.nodes]. *)
Definition same_objects s s' : Prop :=
  this s' = this s ∧ heap s' = heap s ∧
  set_entries s' (nodes (this s)) = set_entries s (nodes (this s)).

#[global] Instance member_dec s x : Decision (member s x).
Proof. unfold member. apply _. Defined.

#[global] Instance is_node_dec s x : Decision (is_node s x).
Proof. unfold is_node. apply _. Defined.

#[global] Instance adj_dec s u x : Decision (adj s u x).
Proof. unfold adj. apply _. Defined.

(** Some member of [this.nodes] is not a [Node]. *)
Definition bad_member s : Prop := ∃ x, member s x ∧ ¬ is_node s x.

(** The invariant of the loop of [removeVertex v] started in [s0], when the
    iterator stands at entry [i] of [v.adjacent]: the links removed so far
    are links between [v] and members, removed in both directions, and every
    member among the first [i] entries has lost its link. *)
Definition rv_inv s0 v (i : nat) s : Prop :=
  same_objects s0 s ∧
  in_place_or_gone (neighbors s0 v) (neighbors s v) ∧
  (∀ u y, adj s u y → adj s0 u y) ∧
  (∀ u y, adj s0 u y → ¬ adj s u y →
     ∃ x, member s0 x ∧ adj s0 v x ∧ ((u = v ∧ y = x) ∨ (u = x ∧ y = v)) ∧
          ¬ adj s v x ∧ ¬ adj s x v) ∧
  (∀ (j : nat) x, j < i → neighbors s0 v !! j = Some (Some x) → member s0 x →
     ¬ adj s v x).

End Notions.

(** ** Concrete graphs *)

(** An empty store; [new Graph()] is yet to be called. *)
Definition empty_state : State nat := mkState ∅ ∅ (mkGraph 1).

(** A(1), B(2), C(3) added in that order, then the edges A-B and B-C. *)
Definition chain_graph : M nat (ref * ref * ref) :=
  Graph_new >>
  let! A := Node_new 1 None in
  let! B := Node_new 2 None in
  let! C := Node_new 3 None in
  addVertices [A; B; C] >>
  addEdge A B >>
  addEdge B C >>
  ret (A, B, C).

Definition chain_state : State nat :=
  mkState {[ 1%positive := mkNode 1 2; 2%positive := mkNode 2 3;
             3%positive := mkNode 3 4 ]}
          {[ 1%positive := [Some (Obj 1); Some (Obj 2); Some (Obj 3)];
             2%positive := [Some (Obj 2)];
             3%positive := [Some (Obj 1); Some (Obj 3)];
             4%positive := [Some (Obj 2)] ]}
          (mkGraph 1).

(** The triangle A-B, B-C, C-A with a vertex D outside it: a cycle and a
    second component. *)
Definition triangle_graph : M nat unit :=
  Graph_new >>
  let! A := Node_new 1 None in
  let! B := Node_new 2 None in
  let! C := Node_new 3 None in
  let! D := Node_new 4 None in
  addVertices [A; B; C; D] >>
  addEdge A B >>
  addEdge B C >>
  addEdge C A.

Definition triangle_state : State nat :=
  mkState {[ 1%positive := mkNode 1 2; 2%positive := mkNode 2 3;
             3%positive := mkNode 3 4; 4%positive := mkNode 4 5 ]}
          {[ 1%positive := [Some (Obj 1); Some (Obj 2); Some (Obj 3); Some (Obj 4)];
             2%positive := [Some (Obj 2); Some (Obj 3)];
             3%positive := [Some (Obj 1); Some (Obj 3)];
             4%positive := [Some (Obj 2); Some (Obj 1)];
             5%positive := [] ]}
          (mkGraph 1).

(** [v] is constructed with [u] in its adjacency set, and only [u] is added
    to the graph. *)
Definition one_sided_graph : M nat (ref * ref) :=
  Graph_new >>
  let! u := Node_new 1 None in
  let! p := Set_new (set_of_list [u]) in
  let! v := Node_new 2 (Some p) in
  addVertex u >>
  ret (u, v).

Definition one_sided_state : State nat :=
  mkState {[ 1%positive := mkNode 1 2; 2%positive := mkNode 2 3 ]}
          {[ 1%positive := [Some (Obj 1)];
             2%positive := [];
             3%positive := [Some (Obj 1)] ]}
          (mkGraph 1).

(** What [addVertex(v)] makes of [one_sided_state]. *)
Definition one_sided_state_added : State nat :=
  mkState (heap one_sided_state)
          (<[ 1%positive := [Some (Obj 1); Some (Obj 2)] ]> (sets one_sided_state))
          (mkGraph 1).

(** A(1) and B(2) joined by an edge in one graph; then a second graph to
    which only A is added. *)
Definition two_graphs : M nat (ref * ref) :=
  Graph_new >>
  let! A := Node_new 1 None in
  let! B := Node_new 2 None in
  addVertices [A; B] >>
  addEdge A B >>
  Graph_new >>
  addVertex A >>
  ret (A, B).

Definition second_graph_state : State nat :=
  mkState {[ 1%positive := mkNode 1 2; 2%positive := mkNode 2 3 ]}
          {[ 1%positive := [Some (Obj 1); Some (Obj 2)];
             2%positive := [Some (Obj 2)];
             3%positive := [Some (Obj 1)];
             4%positive := [Some (Obj 1)] ]}
          (mkGraph 4).

(** What [removeVertex(A)] makes of [second_graph_state]. *)
Definition second_graph_state_removed : State nat :=
  mkState (heap second_graph_state)
          (<[ 4%positive := [None] ]> (sets second_graph_state))
          (mkGraph 4).

(** A vertex constructed but never added to the graph. *)
Definition stray_vertex : M nat ref :=
  Graph_new >> Node_new 7 None.

Definition stray_state : State nat :=
  mkState {[ 1%positive := mkNode 7 2 ]}
          {[ 1%positive := []; 2%positive := [] ]}
          (mkGraph 1).

(** Two vertices [a] and [b] constructed on one [Set], and a third [c]. *)
Definition shared_set_graph : M nat (ref * ref * ref) :=
  Graph_new >>
  let! p := Set_new [] in
  let! a := Node_new 1 (Some p) in
  let! b := Node_new 2 (Some p) in
  let! c := Node_new 3 None in
  addVertices [a; b; c] >>
  ret (a, b, c).

Definition shared_set_state : State nat :=
  mkState {[ 1%positive := mkNode 1 2; 2%positive := mkNode 2 2;
             3%positive := mkNode 3 3 ]}
          {[ 1%positive := [Some (Obj 1); Some (Obj 2); Some (Obj 3)];
             2%positive := [];
             3%positive := [] ]}
          (mkGraph 1).

(** [null] added to a graph beside a vertex A(1). *)
Definition null_vertex_graph : M nat ref :=
  Graph_new >>
  let! A := Node_new 1 None in
  addVertices [A; Null] >>
  ret A.

Definition null_vertex_state : State nat :=
  mkState {[ 1%positive := mkNode 1 2 ]}
          {[ 1%positive := [Some (Obj 1); Some Null];
             2%positive := [] ]}
          (mkGraph 1).

(** ** Further notions *)

Section MoreNotions.
Context {V : Type}.
Implicit Types (s : State V) (x u v : ref).

(** The state in which a call ends, whether it returns or throws. *)
Definition final_state {A : Type} (o : outcome V A) : option (State V) :=
  match o with
  | Ok _ s | TypeError s => Some s
  | Diverge => None
  end.

(** Two stores with the same objects in which sets have gained keys only. *)
Definition grows s s' : Prop :=
  this s' = this s ∧ heap s' = heap s ∧
  ∀ p y, Some y ∈ set_entries s p → Some y ∈ set_entries s' p.

(** Every link of a member leads to a member. *)
Definition closed_graph s : Prop := ∀ u x, member s u → adj s u x → member s x.

(** The graphs that the methods build from vertices constructed without an
    adjacency set: the members are [Node]s with sets of their own, and the
    links among them are symmetric and stay within the graph. *)
Definition well_formed s : Prop :=
  unshared s ∧ members_typed s ∧ symmetric s ∧ closed_graph s.

(** A [Node] without links, in either direction. *)
Definition isolated s x : Prop :=
  is_node s x ∧ (∀ y, ¬ adj s x y) ∧ (∀ u, ¬ adj s u x).

(** The same store seen from another graph object. *)
Definition with_this (g : Graph) s : State V := mkState (heap s) (sets s) g.

Definition outcome_with_this {A : Type} (g : Graph) (o : outcome V A) : outcome V A :=
  match o with
  | Ok a s => Ok a (with_this g s)
  | TypeError s => TypeError (with_this g s)
  | Diverge => Diverge
  end.

(** A set of vertices that holds every neighbour of each of its elements. *)
Definition closed_under_links s (vs : list ref) : Prop :=
  ∀ u y, u ∈ vs → adj s u y → y ∈ vs.

(** Every vertex that [breadthFirstSearch] has marked and no longer holds in
    its queue has all its neighbours marked. *)
Definition bfs_taken_closed s (l : BfsLocals V) : Prop :=
  ∀ u, Some u ∈ bfs_visited l → u ∉ queue l →
    ∀ y, adj s u y → Some y ∈ bfs_visited l.

(** Every [Node] has an adjacency [Set] of its own. *)
Definition own_sets s : Prop :=
  ∀ u v nu nv, deref s u = Some nu → deref s v = Some nv →
    adjacent nu = adjacent nv → u = v.

(** The adjacency set of every [Node] is an object of the store. *)
Definition adjacents_allocated s : Prop :=
  ∀ x nd, deref s x = Some nd → is_Some (sets s !! adjacent nd).

(** So is [this.nodes]. *)
Definition sets_allocated s : Prop :=
  is_Some (sets s !! nodes (this s)) ∧ adjacents_allocated s.

(** What [addVertex] and [addVertices] need to keep a graph well formed: the
    vertices they add are in the graph already or have no links.  The other
    methods need nothing. *)
Definition addition_isolated s (op : mutation) : Prop :=
  match op with
  | AddVertex v => member s v ∨ isolated s v
  | AddVertices vs => Forall (λ v, member s v ∨ isolated s v) vs
  | _ => True
  end.

(** The methods that delete from [Set]s; the others add to them. *)
Definition is_removal (op : mutation) : bool :=
  match op with
  | RemoveEdge _ _ | RemoveVertex _ => true
  | _ => false
  end.

(** A run of vertices marked after those of [base], in which every vertex
    is followed by one of its neighbours, unless all its neighbours, [null]
    and [undefined] apart, are marked by then. *)
Inductive deep_from s : list ref → list ref → Prop :=
  | deep_nil base : deep_from s base []
  | deep_one base u : deep_from s base [u]
  | deep_cons base u x rest :
      (adj s u x ∨ ∀ y, adj s u y → truthy y = true → y ∈ base ++ [u]) →
      deep_from s (base ++ [u]) (x :: rest) →
      deep_from s base (u :: x :: rest).

(** [x] is reached from [start] along [n] links. *)
Inductive reach_in s (start : ref) : nat → ref → Prop :=
  | reach_in_O : reach_in s start 0 start
  | reach_in_S n u x : reach_in s start n u → adj s u x → reach_in s start (S n) x.

(** [n] is the least number of links that lead from [start] to [x]. *)
Definition distance s (start x : ref) (n : nat) : Prop :=
  reach_in s start n x ∧ ∀ m, reach_in s start m x → n ≤ m.

(** What holds of the locals at the head of the [while] loop of
    [breadthFirstSearch], with the distances [dt] of the vertices taken from
    the queue and [dq] of those in the queue: the vertices are marked in the
    order of their distance from [start], no vertex in the queue is more than
    one link further than the first, and the neighbours of the vertices that
    were taken are marked. *)
Definition bfs_levels s (start : ref) (l : BfsLocals V) : Prop :=
  ∃ (taken : list ref) (dt dq : list nat),
    set_keys (bfs_visited l) = taken ++ queue l ∧
    NoDup (set_keys (bfs_visited l)) ∧
    start ∈ set_keys (bfs_visited l) ∧
    Forall2 (has_value s) taken (bfs_result l) ∧
    Forall2 (distance s start) taken dt ∧
    Forall2 (distance s start) (queue l) dq ∧
    StronglySorted le (dt ++ dq) ∧
    (∀ k, head dq = Some k → Forall (λ d, d ≤ S k) dq) ∧
    (∀ u y, u ∈ taken → adj s u y → y ∈ set_keys (bfs_visited l)).

End MoreNotions.

(** ** The call stack *)

Section CallStack.
Context {V : Type}.

(** How a call ends on an engine whose call stack can be full: as above, or
    by the [RangeError] that the engine throws when a function is called and
    the stack has no room for it.  Nothing in [graph.js] catches it. *)
Inductive stack_outcome (A : Type) : Type :=
  | Within (o : outcome V A)
  | RangeError (s : State V).
Arguments Within {A} o.
Arguments RangeError {A} s.

(** [set_iterate] for a body that may find the stack full. *)
Fixpoint set_iterate_stack {L : Type} (n : nat) (p : positive) (i : nat)
    (body : ref → L → State V → stack_outcome L) (l : L) :
    State V → stack_outcome L := λ s,
  match set_entries s p !! i with
  | None => Within (Ok l s)
  | Some e =>
      match n with
      | 0 => Within Diverge
      | S n' =>
          match e with
          | None => set_iterate_stack n' p (S i) body l s
          | Some x =>
              match body x l s with
              | Within (Ok l' s') => set_iterate_stack n' p (S i) body l' s'
              | thrown => thrown
              end
          end
      end
  end.

Definition forEach_stack {L : Type} (p : positive)
    (body : ref → L → State V → stack_outcome L) (l : L) :
    State V → stack_outcome L :=
  λ s, set_iterate_stack (length (set_entries s p)) p 0 body l s.

(** The closure [dfs] on a call stack with room for [stack] more
    activations of it: a call with no room left throws, whatever its
    argument; the calls it makes have one activation less.  What else an
    activation puts on the stack ([forEach], the arrow function, [add],
    [push]) is counted with it. *)
Fixpoint dfs_stack (stack : nat) (vertex : ref) (l : DfsLocals V) :
    State V → stack_outcome (DfsLocals V) :=
  match stack with
  | 0 => λ s, RangeError s
  | S stack' =>
      if negb (truthy vertex) then λ s, Within (Ok l s)
      else λ s,
        match get_node vertex s with
        | Ok nd s1 =>
            forEach_stack (adjacent nd)
              (λ neighbor l',
                 if negb (set_has (visited l') neighbor)
                 then dfs_stack stack' neighbor l'
                 else λ s', Within (Ok l' s'))
              (mkDfs (set_add (visited l) vertex) (result l ++ [value nd])) s1
        | TypeError s1 => Within (TypeError s1)
        | Diverge => Within Diverge
        end
  end.

(** [depthFirstSearch] on an engine whose stack has room for [stack]
    activations of [dfs] when [dfs(start)] is called. *)
Definition depthFirstSearch_stack (stack : nat) (start : ref) :
    State V → stack_outcome (list V) := λ s,
  match dfs_stack stack start (mkDfs [] []) s with
  | Within (Ok l s') => Within (Ok (result l) s')
  | Within (TypeError s') => Within (TypeError s')
  | Within Diverge => Within Diverge
  | RangeError s' => RangeError s'
  end.

End CallStack.

Arguments Within {V A} o.
Arguments RangeError {V A} s.

(** *** Paths of any length *)

(** The vertices A(1) - A(2) - ... - A(n), added in that order and joined
    by [addEdge(A(k), A(k+1))] in that order: the [k]-th vertex, counted from
    0, is at address [k + 1] and has its adjacency set at [k + 2]; [nodes] is
    at address 1. *)
Definition path_node (k : nat) : positive := Pos.of_succ_nat k.

Definition path_vertex (k : nat) : option ref := Some (Obj (path_node k)).

Definition path_links (n k : nat) : JSSet :=
  match k with
  | 0 => []
  | S j => [path_vertex j]
  end ++ (if decide (S k < n) then [path_vertex (S k)] else []).

Definition path_state (n : nat) : State nat :=
  mkState
    (list_to_map ((λ k, (path_node k, mkNode (S k) (path_node (S k)))) <$> seq 0 n))
    (list_to_map
       ((1%positive, path_vertex <$> seq 0 n)
        :: ((λ k, (path_node (S k), path_links n k)) <$> seq 0 n)))
    (mkGraph 1).

(** ** Facts about [Set] *)

Section JSSetFacts.
Implicit Types (s : JSSet) (x y : ref).

Lemma set_has_true s x : set_has s x = true ↔ Some x ∈ s.
Proof. unfold set_has. apply bool_decide_eq_true. Qed.

Lemma set_has_false s x : set_has s x = false ↔ Some x ∉ s.
Proof. unfold set_has. apply bool_decide_eq_false. Qed.

Lemma elem_of_set_keys s x : x ∈ set_keys s ↔ Some x ∈ s.
Proof.
  unfold set_keys. rewrite list_elem_of_omap. split.
  - intros ([y|] & Hin & Heq); simplify_eq/=. done.
  - intros Hin. exists (Some x). done.
Qed.

Lemma elem_of_set_add s x y : Some y ∈ set_add s x ↔ y = x ∨ Some y ∈ s.
Proof.
  unfold set_add. destruct (set_has s x) eqn:Hx.
  - apply set_has_true in Hx. split; [auto|]. intros [->|]; done.
  - rewrite elem_of_app, list_elem_of_singleton. split.
    + intros [|?]; [auto|]. left. congruence.
    + intros [->|]; auto.
Qed.

Lemma elem_of_set_delete s x y : Some y ∈ set_delete s x ↔ y ≠ x ∧ Some y ∈ s.
Proof.
  unfold set_delete. rewrite list_elem_of_fmap. split.
  - intros (e & Heq & Hin). destruct (decide (e = Some x)); simplify_eq.
    split; [congruence|done].
  - intros [Hne Hin]. exists (Some y). split; [|done].
    rewrite decide_False; [done|congruence].
Qed.

Lemma length_set_delete s x : length (set_delete s x) = length s.
Proof. unfold set_delete. apply length_fmap. Qed.

Lemma set_keys_add_new s x :
  set_has s x = false → set_keys (set_add s x) = set_keys s ++ [x].
Proof.
  intros Hx. unfold set_add, set_keys. rewrite Hx, omap_app. done.
Qed.

Lemma in_place_or_gone_refl s : in_place_or_gone s s.
Proof. split_and!; auto. Qed.

Lemma in_place_or_gone_trans (l1 l2 l3 : JSSet) :
  in_place_or_gone l1 l2 → in_place_or_gone l2 l3 → in_place_or_gone l1 l3.
Proof.
  intros (L1 & M1 & P1) (L2 & M2 & P2). split_and!; [congruence|auto|].
  intros j y Hj. destruct (P1 j y Hj) as [H|H]; [by apply P2|].
  right. intros Hin. apply H. by apply M2.
Qed.

Lemma in_place_or_gone_delete s x : in_place_or_gone s (set_delete s x).
Proof.
  split_and!.
  - apply length_set_delete.
  - intros y Hy. by apply elem_of_set_delete in Hy as [_ ?].
  - intros j y Hj. destruct (decide (y = x)) as [->|Hne].
    + right. rewrite elem_of_set_delete. by intros [? _].
    + left. unfold set_delete. rewrite list_lookup_fmap, Hj. simpl.
      rewrite decide_False; [done|congruence].
Qed.

Lemma elem_of_visited_addrs a s : a ∈ visited_addrs s ↔ Some (Obj a) ∈ s.
Proof.
  unfold visited_addrs. rewrite elem_of_list_to_set, list_elem_of_omap. split.
  - intros (e & Hin & Heq). destruct e as [[| |b]|]; simplify_eq. done.
  - intros Hin. by exists (Some (Obj a)).
Qed.

End JSSetFacts.

(** ** The iteration rule *)

Section Iterate.
Context {V L : Type}.
Implicit Types (s : State V) (l : L).

(** A loop invariant [I] indexed by the position of the iterator: when the
    body keeps it, and it bounds the length of the entry list by [N], an
    iteration started with a budget of [N] steps goes through the whole
    list. *)
Lemma set_iterate_rule (p : positive) (body : ref → L → M V L)
    (I : nat → L → State V → Prop) (T : State V → Prop) (N : nat) :
  (∀ i l s, I i l s → length (set_entries s p) ≤ N) →
  (∀ i l s, I i l s → set_entries s p !! i = Some None → I (S i) l s) →
  (∀ i l s x, I i l s → set_entries s p !! i = Some (Some x) →
     match body x l s with
     | Ok l' s' => I (S i) l' s'
     | TypeError s' => T s'
     | Diverge => False
     end) →
  ∀ n i l s, n + i = N → I i l s →
    match set_iterate n p i body l s with
    | Ok l' s' => ∃ j, I j l' s' ∧ set_entries s' p !! j = None
    | TypeError s' => T s'
    | Diverge => False
    end.
Proof.
  intros Hlen Hhole Hbody. induction n as [|n IH]; intros i l s HN HI; simpl.
  - destruct (set_entries s p !! i) as [e|] eqn:He; [|eauto].
    apply lookup_lt_Some in He. specialize (Hlen _ _ _ HI). lia.
  - destruct (set_entries s p !! i) as [[x|]|] eqn:He; [| |eauto].
    + unfold bind. specialize (Hbody _ _ _ _ HI He).
      destruct (body x l s) as [l' s'| |]; [|done..].
      apply IH; [lia|done].
    + apply IH; [lia|]. by apply Hhole.
Qed.

(** The rule for a body that leaves the store as it is: [J] is an invariant
    of the locals. *)
Lemma forEach_readonly (p : positive) (body : ref → L → M V L) s
    (J : L → Prop) (T : Prop) :
  (∀ l x, J l → Some x ∈ set_entries s p →
     match body x l s with
     | Ok l' s' => s' = s ∧ J l'
     | TypeError s' => s' = s ∧ T
     | Diverge => False
     end) →
  ∀ l, J l →
    match forEach p body l s with
    | Ok l' s' => s' = s ∧ J l'
    | TypeError s' => s' = s ∧ T
    | Diverge => False
    end.
Proof.
  intros Hbody l HJ. unfold forEach.
  pose proof (set_iterate_rule p body (λ _ l' s', s' = s ∧ J l')
    (λ s', s' = s ∧ T) (length (set_entries s p))) as Hrule.
  opose proof* (Hrule _ _ _ (length (set_entries s p)) 0 l s) as H;
    [| | |lia|done|].
  - by intros ? ? ? [-> _].
  - by intros ? ? ? [-> ?] _.
  - intros j l0 s0 x [-> HJ0] Hx. apply Hbody; [done|].
    by eapply list_elem_of_lookup_2.
  - destruct (set_iterate _ _ _ _ _ _); [|done..]. destruct H as (? & ? & ?). done.
Qed.

End Iterate.

(** ** Depth-first search *)

Section DfsFacts.
Context {V : Type}.
Variables (s : State V) (start : ref).
Implicit Types (l : DfsLocals V) (x v : ref).

Lemma neighbors_deref v nd : deref s v = Some nd → neighbors s v = set_entries s (adjacent nd).
Proof. intros Hd. unfold neighbors. by rewrite Hd. Qed.

Lemma dfs_le_refl l : dfs_le l l.
Proof. split; done. Qed.

Lemma dfs_le_trans l1 l2 l3 : dfs_le l1 l2 → dfs_le l2 l3 → dfs_le l1 l3.
Proof. intros [? ?] [? ?]. split; [auto|by etrans]. Qed.

Lemma dfs_spec fuel : ∀ v l,
  dfs_inv s start l → reachable s start v → set_has (visited l) v = false →
  size (dom (heap s) ∖ visited_addrs (visited l)) < fuel →
  match dfs fuel v l s with
  | Ok l' s' =>
      s' = s ∧ dfs_inv s start l' ∧ dfs_le l l' ∧
      (truthy v = true → set_keys (visited l) ++ [v] `prefix_of` set_keys (visited l'))
  | TypeError s' => s' = s ∧ truthy v = true ∧ bad_reference s start
  | Diverge => False
  end.
Proof.
  induction fuel as [|fuel IH]; intros v l Hinv Hreach Hnew Hfuel; [lia|].
  simpl. destruct (truthy v) eqn:Htr; simpl.
  2:{ unfold ret. split_and!; [done..|apply dfs_le_refl|done]. }
  unfold bind, get_node. destruct (deref s v) as [nd|] eqn:Hd.
  2:{ split_and!; [done..|]. by exists v. }
  destruct v as [| |a]; [done..|]. simpl in Hd.
  set (l1 := mkDfs (set_add (visited l) (Obj a)) (result l ++ [value nd])).
  assert (Hinv1 : dfs_inv s start l1).
  { destruct Hinv as (Hnd & Hval & Hre). unfold dfs_inv, l1; simpl.
    rewrite set_keys_add_new by done. split_and!.
    - apply NoDup_app. split_and!; [done| |apply NoDup_singleton].
      intros x Hx ->%list_elem_of_singleton.
      apply elem_of_set_keys, set_has_true in Hx. congruence.
    - apply Forall2_app; [done|]. constructor; [|constructor]. by exists nd.
    - apply Forall_app. split; [done|]. by constructor. }
  assert (Hle1 : dfs_le l l1).
  { split; simpl.
    - intros x Hx. apply elem_of_set_add. auto.
    - rewrite set_keys_add_new by done. by apply prefix_app_r. }
  opose proof* (forEach_readonly (adjacent nd)
    (λ neighbor l', if negb (set_has (visited l') neighbor)
                    then dfs fuel neighbor l' else ret l') s
    (λ l', dfs_inv s start l' ∧ dfs_le l1 l') (bad_reference s start) _ l1) as H.
  - intros l' x [Hinv' Hle'] Hx.
    destruct (set_has (visited l') x) eqn:Hvx; simpl.
    { unfold ret. split_and!; done. }
    opose proof* (IH x l') as H; [done| |done| |].
    + eapply reach_step; [exact Hreach|]. unfold adj.
      by rewrite (neighbors_deref (Obj a) nd).
    + assert (Hsub : dom (heap s) ∖ visited_addrs (visited l')
                     ⊂ dom (heap s) ∖ visited_addrs (visited l)).
      { apply strict_spec_alt. split.
        - intros b. rewrite !elem_of_difference, !elem_of_visited_addrs.
          intros [? Hb]. split; [done|]. intros Hb'. apply Hb.
          apply Hle', Hle1. done.
        - intros Heq. assert (Hin : a ∈ dom (heap s) ∖ visited_addrs (visited l)).
          { rewrite elem_of_difference, elem_of_visited_addrs, elem_of_dom.
            split; [by rewrite Hd|]. by apply set_has_false. }
          rewrite <- Heq in Hin.
          rewrite elem_of_difference, elem_of_visited_addrs in Hin.
          destruct Hin as [_ Hin]. apply Hin, Hle'. simpl.
          apply elem_of_set_add. auto. }
      apply subset_size in Hsub. lia.
    + destruct (dfs fuel x l' s) as [l'' s''| |]; [| |done].
      * destruct H as (-> & ? & ? & _). split_and!; [done..|]. by eapply dfs_le_trans.
      * destruct H as (-> & _ & ?). done.
  - done.
  - destruct (forEach _ _ _ _) as [l' s'| |]; [| |done].
    + destruct H as (-> & [? Hle']). split_and!; [done..|by eapply dfs_le_trans|].
      intros _. destruct Hle' as [_ Hp]. unfold l1 in Hp. simpl in Hp.
      by rewrite set_keys_add_new in Hp.
    + destruct H as (-> & ?). done.
Qed.

(** [depthFirstSearch] from the empty locals. *)
Lemma depthFirstSearch_spec :
  match depthFirstSearch start s with
  | Ok r s' =>
      s' = s ∧
      ∃ vs, NoDup vs ∧ Forall2 (has_value s) vs r ∧ Forall (reachable s start) vs ∧
            (truthy start = true → ∃ vs', vs = start :: vs')
  | TypeError s' => s' = s ∧ truthy start = true ∧ bad_reference s start
  | Diverge => False
  end.
Proof.
  unfold depthFirstSearch, bind.
  opose proof* (dfs_spec (S (size (heap s))) start (mkDfs [] [])) as H.
  - split_and!; simpl; constructor.
  - constructor.
  - done.
  - simpl. rewrite <- size_dom.
    assert (dom (heap s) ∖ visited_addrs [] ⊆ dom (heap s)) as Hs
      by apply subseteq_difference_l, reflexivity.
    apply subseteq_size in Hs. lia.
  - destruct (dfs _ _ _ _) as [l' s'| |]; [|done..].
    destruct H as (-> & (? & ? & ?) & _ & Hp). unfold ret. split; [done|].
    exists (set_keys (visited l')). split_and!; [done..|].
    intros Htr. destruct (Hp Htr) as [k Hk]. by exists k.
Qed.

End DfsFacts.

(** ** Breadth-first search *)

Section BfsFacts.
Context {V : Type}.
Variables (s : State V) (start : ref).
Implicit Types (l : BfsLocals V) (x v : ref).

Lemma reachable_start_or_neighbor x :
  reachable s start x → x = start ∨ x ∈ all_neighbors s.
Proof.
  intros [|u y _ Hadj]; [by left|right].
  unfold adj, neighbors in Hadj.
  destruct (deref s u) as [nd|] eqn:Hd; [|by inversion Hadj].
  destruct u as [| |a]; [done..|]. simpl in Hd.
  unfold all_neighbors. apply list_elem_of_bind. exists (a, nd). split.
  - by apply elem_of_set_keys.
  - by apply elem_of_map_to_list.
Qed.

(** There are no more reachable references than the start and the keys of
    the adjacency sets. *)
Lemma reachable_bound (vs : list ref) :
  NoDup vs → Forall (reachable s start) vs →
  length vs ≤ S (length (all_neighbors s)).
Proof.
  intros Hnd Hre.
  change (S (length (all_neighbors s))) with (length (start :: all_neighbors s)).
  apply submseteq_length, NoDup_submseteq; [done|].
  intros x Hx. rewrite Forall_forall in Hre.
  destruct (reachable_start_or_neighbor x (Hre x Hx)) as [->|?].
  - left.
  - by right.
Qed.

Lemma bfs_enqueue_spec (fuel : nat) v nd l x :
  reachable s start v → deref s v = Some nd →
  Some x ∈ set_entries s (adjacent nd) →
  bfs_inv s start l ∧ bfs_budget s fuel l →
  match bfs_enqueue x l s with
  | Ok l' s' => s' = s ∧ bfs_inv s start l' ∧ bfs_budget s fuel l'
  | TypeError s' => s' = s ∧ bad_reference s start
  | Diverge => False
  end.
Proof.
  intros Hv Hd Hx [Hinv Hbud]. unfold bfs_enqueue.
  destruct (set_has (bfs_visited l) x) eqn:Hvx; simpl; unfold ret; [done|].
  split; [done|]. destruct Hinv as (taken & Hk & Hnd & Hval & Hre).
  assert (Hnew : x ∉ set_keys (bfs_visited l)).
  { rewrite elem_of_set_keys. by apply set_has_false. }
  split.
  - exists taken. simpl. rewrite set_keys_add_new by done. split_and!.
    + by rewrite Hk, (assoc_L (++)).
    + apply NoDup_app. split_and!; [done| |apply NoDup_singleton].
      by intros y Hy ->%list_elem_of_singleton.
    + done.
    + apply Forall_app. split; [done|]. constructor; [|done].
      eapply reach_step; [exact Hv|]. unfold adj, neighbors. by rewrite Hd.
  - unfold bfs_budget in *. simpl.
    rewrite set_keys_add_new by done. rewrite !length_app. simpl. lia.
Qed.

Lemma bfs_loop_spec fuel : ∀ l,
  bfs_inv s start l → bfs_budget s fuel l →
  match bfs_loop fuel l s with
  | Ok r s' =>
      s' = s ∧
      ∃ vs, NoDup vs ∧ Forall2 (has_value s) vs r ∧ Forall (reachable s start) vs
  | TypeError s' => s' = s ∧ bad_reference s start
  | Diverge => False
  end.
Proof.
  assert (Hend : ∀ l, bfs_inv s start l → queue l = [] →
            ∃ vs, NoDup vs ∧ Forall2 (has_value s) vs (bfs_result l) ∧
                  Forall (reachable s start) vs).
  { intros l (taken & Hk & Hnd & Hval & Hre) Hq. exists taken.
    rewrite Hq, app_nil_r in Hk. rewrite Hk in Hnd, Hre. done. }
  induction fuel as [|fuel IH]; intros l Hinv Hbud.
  - simpl. destruct (queue l) as [|v rest] eqn:Hq.
    + split; [done|]. by apply Hend.
    + destruct Hinv as (taken & Hk & Hnd & Hval & Hre).
      pose proof (reachable_bound _ Hnd Hre) as Hb.
      unfold bfs_budget in Hbud. rewrite Hq in Hbud. simpl in Hbud. lia.
  - simpl. destruct (queue l) as [|v rest] eqn:Hq.
    { split; [done|]. by apply Hend. }
    assert (Hv : reachable s start v).
    { destruct Hinv as (taken & Hk & _ & _ & Hre).
      rewrite Forall_forall in Hre. apply Hre. rewrite Hk, Hq.
      apply elem_of_app. right. left. }
    unfold bind, get_node. destruct (deref s v) as [nd|] eqn:Hd.
    2:{ split; [done|]. by exists v. }
    set (l1 := mkBfs rest (bfs_result l ++ [value nd]) (bfs_visited l)).
    assert (H1 : bfs_inv s start l1 ∧ bfs_budget s fuel l1).
    { destruct Hinv as (taken & Hk & Hnd & Hval & Hre). split.
      - exists (taken ++ [v]). unfold l1; simpl. split_and!; [|done| |done].
        + by rewrite Hk, Hq, <- (assoc_L (++)).
        + apply Forall2_app; [done|]. constructor; [|constructor]. by exists nd.
      - unfold bfs_budget in *. rewrite Hq in Hbud. simpl in *. lia. }
    opose proof* (forEach_readonly (adjacent nd) bfs_enqueue s
      (λ l', bfs_inv s start l' ∧ bfs_budget s fuel l') (bad_reference s start) _ l1)
      as H; [|done|].
    { intros l' x HJ Hx. by apply (bfs_enqueue_spec fuel v nd). }
    destruct (forEach _ _ _ _) as [l' s'| |]; [|done..].
    destruct H as (-> & ? & ?). by apply IH.
Qed.

Lemma breadthFirstSearch_spec :
  match breadthFirstSearch start s with
  | Ok r s' =>
      s' = s ∧
      ∃ vs, NoDup vs ∧ Forall2 (has_value s) vs r ∧ Forall (reachable s start) vs
  | TypeError s' => s' = s ∧ bad_reference s start
  | Diverge => False
  end.
Proof.
  unfold breadthFirstSearch. apply bfs_loop_spec.
  - exists []. simpl. split_and!; [done|apply NoDup_singleton|done|].
    repeat constructor.
  - unfold bfs_budget. simpl. lia.
Qed.

End BfsFacts.

(** ** The edge operations *)

Section EdgeFacts.
Context {V : Type}.
Implicit Types (s : State V) (x y u v : ref) (p q : positive).

Lemma set_entries_insert s p q (e : JSSet) :
  set_entries (mkState (heap s) (<[p := e]> (sets s)) (this s)) q
  = if decide (q = p) then e else set_entries s q.
Proof.
  unfold set_entries. simpl. destruct (decide (q = p)) as [->|Hne].
  - by rewrite lookup_insert_eq.
  - by rewrite lookup_insert_ne.
Qed.

Lemma not_is_node_deref s v : ¬ is_node s v ↔ deref s v = None.
Proof.
  unfold is_node. destruct (deref s v); split; try done.
  intros H. destruct H. by eexists.
Qed.

Lemma shrinks_refl s : shrinks s s.
Proof. split_and!; [done..|]. intros p. apply in_place_or_gone_refl. Qed.

Lemma shrinks_trans s1 s2 s3 : shrinks s1 s2 → shrinks s2 s3 → shrinks s1 s3.
Proof.
  intros (T1 & H1 & P1) (T2 & H2 & P2). split_and!; [congruence..|].
  intros p. by eapply in_place_or_gone_trans.
Qed.

Lemma same_objects_refl s : same_objects s s.
Proof. split_and!; done. Qed.

Lemma same_objects_trans s1 s2 s3 :
  same_objects s1 s2 → same_objects s2 s3 → same_objects s1 s3.
Proof.
  intros (T1 & H1 & N1) (T2 & H2 & N2). split_and!; [congruence..|].
  rewrite T1 in N2. congruence.
Qed.

Lemma same_objects_deref s s' u : same_objects s s' → deref s' u = deref s u.
Proof. intros (_ & Hh & _). destruct u; [done..|]. simpl. by rewrite Hh. Qed.

Lemma same_objects_is_node s s' u : same_objects s s' → is_node s' u ↔ is_node s u.
Proof. intros O. unfold is_node. by rewrite (same_objects_deref s s'). Qed.

Lemma member_same_objects s s' x : same_objects s s' → member s' x ↔ member s x.
Proof. intros (Ht & _ & Hn). unfold member. by rewrite Ht, Hn. Qed.

Lemma unshared_same_objects s s' : same_objects s s' → unshared s → unshared s'.
Proof.
  intros O [U1 U2]. pose proof O as (Ht & _ & _). split.
  - intros u v nu nv. rewrite !(same_objects_deref s s') by done. apply U1.
  - intros u nu. rewrite (same_objects_deref s s'), Ht by done. apply U2.
Qed.

(** [v.adjacent.add(x)], whatever [Set] objects are shared. *)
Lemma link_add_spec v x s :
  match (let! n := get_node v in Set_add (adjacent n) x) s with
  | Ok _ s' =>
      ∃ nd, deref s v = Some nd ∧ this s' = this s ∧ heap s' = heap s ∧
        ∀ q, set_entries s' q
             = if decide (q = adjacent nd) then set_add (set_entries s q) x
               else set_entries s q
  | TypeError s' => s' = s ∧ ¬ is_node s v
  | Diverge => False
  end.
Proof.
  unfold bind, get_node. destruct (deref s v) as [nd|] eqn:Hd; simpl.
  - exists nd. split_and!; [done..|]. intros q. rewrite set_entries_insert.
    by destruct (decide (q = adjacent nd)) as [->|].
  - split; [done|]. by apply not_is_node_deref.
Qed.

(** [v.adjacent.delete(x)], whatever [Set] objects are shared. *)
Lemma link_delete_spec v x s :
  match (let! n := get_node v in Set_delete (adjacent n) x) s with
  | Ok _ s' =>
      ∃ nd, deref s v = Some nd ∧ this s' = this s ∧ heap s' = heap s ∧
        ∀ q, set_entries s' q
             = if decide (q = adjacent nd) then set_delete (set_entries s q) x
               else set_entries s q
  | TypeError s' => s' = s ∧ ¬ is_node s v
  | Diverge => False
  end.
Proof.
  unfold bind, get_node. destruct (deref s v) as [nd|] eqn:Hd; simpl.
  - exists nd. split_and!; [done..|]. intros q. rewrite set_entries_insert.
    by destruct (decide (q = adjacent nd)) as [->|].
  - split; [done|]. by apply not_is_node_deref.
Qed.

(** When every [Node] has a [Set] of its own, a change of the [Set] of [v]
    is a change of the neighbours of [v] alone. *)
Lemma unshared_update s s' v nd (f : JSSet → JSSet) :
  unshared s → deref s v = Some nd → this s' = this s → heap s' = heap s →
  (∀ q, set_entries s' q
        = if decide (q = adjacent nd) then f (set_entries s q) else set_entries s q) →
  same_objects s s' ∧
  ∀ u, neighbors s' u = if decide (u = v) then f (neighbors s u) else neighbors s u.
Proof.
  intros [U1 U2] Hd Ht Hh He. split.
  - split_and!; [done..|]. rewrite He, decide_False; [done|].
    intros Heq. by apply (U2 v nd).
  - intros u. unfold neighbors.
    assert (Hdu : deref s' u = deref s u).
    { destruct u; [done..|]. simpl. by rewrite Hh. }
    rewrite Hdu. destruct (decide (u = v)) as [->|Hne].
    + rewrite Hd, He. by rewrite decide_True.
    + destruct (deref s u) as [nu|] eqn:Hu; [|done].
      rewrite He, decide_False; [done|].
      intros Heq. apply Hne. by apply (U1 u v nu nd).
Qed.

(** [removeEdge] only makes holes, and comes to an end. *)
Lemma removeEdge_shrinks v x s :
  match removeEdge v x s with
  | Ok _ s' | TypeError s' => shrinks s s'
  | Diverge => False
  end.
Proof.
  assert (Hone : ∀ s0 w y,
    match (let! n := get_node w in Set_delete (adjacent n) y) s0 with
    | Ok _ s' | TypeError s' => shrinks s0 s'
    | Diverge => False
    end).
  { intros s0 w y. pose proof (link_delete_spec w y s0) as H.
    destruct (bind _ _ s0) as [[] s'| |]; [| |done].
    - destruct H as (nd & _ & Ht & Hh & He). split_and!; [done..|].
      intros p. rewrite He. destruct (decide (p = adjacent nd));
        [apply in_place_or_gone_delete|apply in_place_or_gone_refl].
    - destruct H as [-> _]. apply shrinks_refl. }
  unfold removeEdge. unfold bind at 1 2 3. unfold this_nodes, Set_has.
  destruct (negb _ || negb _); [apply shrinks_refl|].
  unfold bind at 1. pose proof (Hone s v x) as H1.
  destruct (bind (get_node v) _ s) as [[] s1| |]; [|done..].
  pose proof (Hone s1 x v) as H2.
  destruct (bind (get_node x) _ s1) as [[] s2| |]; [| |done];
    by eapply shrinks_trans.
Qed.

(** [addEdge] on two members that are [Node]s adds the two links, and nothing
    else; on other arguments it does nothing or throws. *)
Lemma addEdge_spec v x s :
  unshared s →
  match addEdge v x s with
  | Ok _ s' =>
      same_objects s s' ∧
      ((¬ (member s v ∧ member s x) ∧ s' = s) ∨
       (member s v ∧ member s x ∧ is_node s v ∧ is_node s x ∧
        ∀ u y, adj s' u y ↔ adj s u y ∨ (u = v ∧ y = x) ∨ (u = x ∧ y = v)))
  | TypeError s' =>
      same_objects s s' ∧ member s v ∧ member s x ∧ ¬ (is_node s v ∧ is_node s x)
  | Diverge => False
  end.
Proof.
  intros Hun. unfold addEdge. unfold bind at 1 2 3. unfold this_nodes, Set_has.
  destruct (set_has (set_entries s (nodes (this s))) v) eqn:Hv; simpl.
  2:{ unfold ret. split; [apply same_objects_refl|]. left. split; [|done].
      apply set_has_false in Hv. by intros [? _]. }
  destruct (set_has (set_entries s (nodes (this s))) x) eqn:Hx; simpl.
  2:{ unfold ret. split; [apply same_objects_refl|]. left. split; [|done].
      apply set_has_false in Hx. by intros [_ ?]. }
  apply set_has_true in Hv, Hx. unfold bind at 1.
  pose proof (link_add_spec v x s) as H1.
  destruct (bind (get_node v) _ s) as [[] s1| |]; [| |done].
  2:{ destruct H1 as [-> Nv]. split_and!; [apply same_objects_refl|done..|].
      by intros [? _]. }
  destruct H1 as (nv & Hdv & Ht1 & Hh1 & He1).
  destruct (unshared_update s s1 v nv (λ e, set_add e x) Hun Hdv Ht1 Hh1 He1)
    as [O1 E1].
  pose proof (unshared_same_objects _ _ O1 Hun) as Hun1.
  pose proof (link_add_spec x v s1) as H2.
  destruct (bind (get_node x) _ s1) as [[] s2| |]; [| |done].
  - destruct H2 as (nx & Hdx & Ht2 & Hh2 & He2).
    destruct (unshared_update s1 s2 x nx (λ e, set_add e v) Hun1 Hdx Ht2 Hh2 He2)
      as [O2 E2].
    split; [by eapply same_objects_trans|].
    right. split_and!; [done..|by eexists| |].
    + apply (same_objects_is_node s s1); [done|by eexists].
    + intros u y. unfold adj. rewrite E2, E1.
      destruct (decide (u = x)) as [Hux|Hux], (decide (u = v)) as [Huv|Huv];
        subst; rewrite ?elem_of_set_add; intuition congruence.
  - destruct H2 as [-> Nx]. split; [done|]. split_and!; [done..|].
    intros [_ Nx']. apply Nx. by apply (same_objects_is_node s s1).
Qed.

(** [removeEdge] on two members that are [Node]s removes the two links, and
    nothing else. *)
Lemma removeEdge_spec v x s :
  unshared s →
  match removeEdge v x s with
  | Ok _ s' =>
      same_objects s s' ∧
      (∀ u, in_place_or_gone (neighbors s u) (neighbors s' u)) ∧
      ((¬ (member s v ∧ member s x) ∧ s' = s) ∨
       (member s v ∧ member s x ∧ is_node s v ∧ is_node s x ∧
        ∀ u y, adj s' u y ↔ adj s u y ∧ ¬ (u = v ∧ y = x) ∧ ¬ (u = x ∧ y = v)))
  | TypeError s' =>
      same_objects s s' ∧ member s v ∧ member s x ∧ ¬ (is_node s v ∧ is_node s x)
  | Diverge => False
  end.
Proof.
  intros Hun. unfold removeEdge. unfold bind at 1 2 3. unfold this_nodes, Set_has.
  destruct (set_has (set_entries s (nodes (this s))) v) eqn:Hv; simpl.
  2:{ unfold ret. split_and!; [apply same_objects_refl| |].
      - intros u. apply in_place_or_gone_refl.
      - left. split; [|done]. apply set_has_false in Hv. by intros [? _]. }
  destruct (set_has (set_entries s (nodes (this s))) x) eqn:Hx; simpl.
  2:{ unfold ret. split_and!; [apply same_objects_refl| |].
      - intros u. apply in_place_or_gone_refl.
      - left. split; [|done]. apply set_has_false in Hx. by intros [_ ?]. }
  apply set_has_true in Hv, Hx. unfold bind at 1.
  pose proof (link_delete_spec v x s) as H1.
  destruct (bind (get_node v) _ s) as [[] s1| |]; [| |done].
  2:{ destruct H1 as [-> Nv]. split_and!; [apply same_objects_refl|done..|].
      by intros [? _]. }
  destruct H1 as (nv & Hdv & Ht1 & Hh1 & He1).
  destruct (unshared_update s s1 v nv (λ e, set_delete e x) Hun Hdv Ht1 Hh1 He1)
    as [O1 E1].
  pose proof (unshared_same_objects _ _ O1 Hun) as Hun1.
  pose proof (link_delete_spec x v s1) as H2.
  destruct (bind (get_node x) _ s1) as [[] s2| |]; [| |done].
  - destruct H2 as (nx & Hdx & Ht2 & Hh2 & He2).
    destruct (unshared_update s1 s2 x nx (λ e, set_delete e v) Hun1 Hdx Ht2 Hh2 He2)
      as [O2 E2].
    split_and!; [by eapply same_objects_trans| |].
    + intros u. rewrite E2, E1.
      eapply in_place_or_gone_trans.
      * instantiate (1 := if decide (u = v) then set_delete (neighbors s u) x
                          else neighbors s u).
        destruct (decide (u = v));
          [apply in_place_or_gone_delete|apply in_place_or_gone_refl].
      * destruct (decide (u = x));
          [apply in_place_or_gone_delete|apply in_place_or_gone_refl].
    + right. split_and!; [done..|by eexists| |].
      * apply (same_objects_is_node s s1); [done|by eexists].
      * intros u y. unfold adj. rewrite E2, E1.
        destruct (decide (u = x)) as [Hux|Hux], (decide (u = v)) as [Huv|Huv];
          subst; rewrite ?elem_of_set_delete; intuition congruence.
  - destruct H2 as [-> Nx]. split; [done|]. split_and!; [done..|].
    intros [_ Nx']. apply Nx. by apply (same_objects_is_node s s1).
Qed.

End EdgeFacts.

(** ** Removing a vertex *)

Section RemoveVertexFacts.
Context {V : Type}.
Implicit Types (s : State V) (x y u v : ref).

Lemma rv_inv_init s0 v : rv_inv s0 v 0 s0.
Proof.
  split_and!; [apply same_objects_refl|apply in_place_or_gone_refl|done| |].
  - intros u y ? ?. done.
  - intros j x ?. lia.
Qed.

Lemma rv_inv_hole s0 v i s :
  rv_inv s0 v i s → neighbors s v !! i = Some None → rv_inv s0 v (S i) s.
Proof.
  intros (O & P & Mono & Rem & Done) Hi. split_and!; [done..|].
  intros j x Hj Hx Hm.
  destruct (decide (j = i)) as [->|]; [|apply (Done j); [lia|done..]].
  destruct P as (_ & _ & P). destruct (P i x Hx) as [H|H]; [congruence|done].
Qed.

Lemma rv_inv_step s0 v i s x :
  unshared s0 → member s0 v → rv_inv s0 v i s →
  neighbors s v !! i = Some (Some x) →
  match removeEdge v x s with
  | Ok _ s' => rv_inv s0 v (S i) s'
  | TypeError _ => bad_member s0
  | Diverge => False
  end.
Proof.
  intros Hun Hv (O & P & Mono & Rem & Done) Hi.
  assert (Hlast : ∀ s', (∀ u y, adj s' u y → adj s u y) →
            (member s0 x → ¬ adj s' v x) →
            ∀ (j : nat) x0, j < S i → neighbors s0 v !! j = Some (Some x0) →
              member s0 x0 → ¬ adj s' v x0).
  { intros s' Hmono Hx j x0 Hj Hx0 Hm Hadj.
    destruct (decide (j = i)) as [->|].
    - destruct P as (_ & _ & P). destruct (P i x0 Hx0) as [H|H].
      + rewrite Hi in H. simplify_eq. by apply Hx.
      + apply H. by apply Hmono.
    - apply (Done j x0); [lia|done..|]. by apply Hmono. }
  assert (Hadj : adj s0 v x).
  { apply Mono. unfold adj. by eapply list_elem_of_lookup_2. }
  pose proof (member_same_objects s0 s v O) as Mv0.
  pose proof (member_same_objects s0 s x O) as Mx0.
  pose proof (removeEdge_spec v x s (unshared_same_objects _ _ O Hun)) as H.
  destruct (removeEdge v x s) as [[] s'| |]; [| |done].
  - destruct H as (O' & P' & [[Hnm ->]|(Mv & Mx & Nv & Nx & E)]).
    + split_and!; [done..|]. apply Hlast; [done|].
      intros Hm _. apply Hnm. split; [by apply Mv0|by apply Mx0].
    + assert (Mono' : ∀ u y, adj s' u y → adj s u y).
      { intros u y Huy. by apply E in Huy as [? _]. }
      assert (Hvx : ¬ adj s' v x).
      { intros Huy. apply E in Huy as (_ & Hne & _). by apply Hne. }
      assert (Hxv : ¬ adj s' x v).
      { intros Huy. apply E in Huy as (_ & _ & Hne). by apply Hne. }
      split_and!.
      * by eapply same_objects_trans.
      * eapply in_place_or_gone_trans; [exact P|apply P'].
      * auto.
      * intros u y Huy0 Hn'. destruct (decide (adj s u y)) as [Huy|Huy].
        -- exists x. split_and!; [by apply Mx0|done| |done..].
           destruct (decide (u = v ∧ y = x)) as [|Hn1]; [by left|].
           destruct (decide (u = x ∧ y = v)) as [|Hn2]; [by right|].
           destruct Hn'. by apply E.
        -- destruct (Rem u y Huy0 Huy) as (x' & ? & ? & ? & ? & ?).
           exists x'. split_and!; [done..| |]; intros ?; eauto.
      * apply Hlast; [done|]. by intros _.
  - destruct H as (_ & Mv & Mx & Hn).
    destruct (decide (is_node s v)) as [Nv|Nv].
    + exists x. split; [by apply Mx0|].
      intros Nx. apply Hn. split; [done|]. by apply (same_objects_is_node s0 s).
    + exists v. split; [done|].
      intros Nv'. apply Nv. by apply (same_objects_is_node s0 s).
Qed.

(** [removeVertex] of a member, when every [Node] has a [Set] of its own: the
    loop goes through all of [v.adjacent]; the links it removes are the
    links between [v] and its neighbours that are members, in both
    directions, and it removes all of those. *)
Lemma removeVertex_spec v s :
  unshared s → member s v →
  match removeVertex v s with
  | Ok _ s' =>
      is_node s v ∧ this s' = this s ∧ heap s' = heap s ∧
      (∀ x, member s' x ↔ x ≠ v ∧ member s x) ∧
      (∀ u y, adj s' u y → adj s u y) ∧
      (∀ u y, adj s u y → ¬ adj s' u y →
         ∃ x, member s x ∧ adj s v x ∧ ((u = v ∧ y = x) ∨ (u = x ∧ y = v))) ∧
      (∀ x, adj s v x → member s x → ¬ adj s' v x ∧ ¬ adj s' x v)
  | TypeError _ => bad_member s
  | Diverge => False
  end.
Proof.
  intros Hun Hv. unfold removeVertex. unfold bind at 1 2. unfold this_nodes, Set_has.
  rewrite (proj2 (set_has_true _ _) Hv). simpl.
  unfold bind at 1. unfold get_node. destruct (deref s v) as [nd|] eqn:Hd.
  2:{ exists v. split; [done|]. by apply not_is_node_deref. }
  assert (Hnb : ∀ s', same_objects s s' →
            neighbors s' v = set_entries s' (adjacent nd)).
  { intros s' O. unfold neighbors. by rewrite (same_objects_deref s s'), Hd. }
  unfold bind at 1. unfold forEach.
  pose proof (set_iterate_rule (V:=V) (adjacent nd)
    (λ adjacentVertex _, removeEdge v adjacentVertex)
    (λ i _ s', rv_inv s v i s') (λ _, bad_member s)
    (length (set_entries s (adjacent nd)))) as Hrule.
  opose proof* (Hrule _ _ _ (length (set_entries s (adjacent nd))) 0 tt s) as H;
    [| | |lia| |].
  - intros i _ s' (O & (Hlen & _) & _).
    rewrite (Hnb s' O), (Hnb s (same_objects_refl s)) in Hlen. lia.
  - intros i _ s' Hinv Hi. apply rv_inv_hole; [done|].
    destruct Hinv as (O & _). by rewrite (Hnb s' O).
  - intros i _ s' x Hinv Hi. apply rv_inv_step; [done..|].
    destruct Hinv as (O & _). by rewrite (Hnb s' O).
  - apply rv_inv_init.
  - destruct (set_iterate _ _ _ _ _ _) as [[] s1| |]; [|done..].
    destruct H as (j & (O & P & Mono & Rem & Done) & Hj). unfold Set_delete.
    set (s2 := mkState _ _ _).
    assert (Hall : ∀ x, adj s v x → member s x → ¬ adj s1 v x).
    { intros x Hx Hm. apply list_elem_of_lookup_1 in Hx as [k Hk].
      apply (Done k x); [|done..].
      apply lookup_ge_None_1 in Hj. destruct P as (Hlen & _).
      rewrite <- (Hnb s1 O) in Hj. apply lookup_lt_Some in Hk. lia. }
    pose proof (unshared_same_objects _ _ O Hun) as [_ U2].
    pose proof O as (Ht & Hh & Hn).
    assert (Hnb2 : ∀ u, neighbors s2 u = neighbors s1 u).
    { intros u. unfold neighbors.
      assert (Hdu : deref s2 u = deref s1 u) by by destruct u.
      rewrite Hdu. destruct (deref s1 u) as [nu|] eqn:Hu; [|done].
      unfold s2. rewrite set_entries_insert, decide_False; [done|].
      rewrite <- Ht. by eapply U2. }
    assert (Hadj2 : ∀ u y, adj s2 u y ↔ adj s1 u y).
    { intros u y. unfold adj. by rewrite Hnb2. }
    split_and!.
    + by eexists.
    + done.
    + done.
    + intros x. unfold member, s2. simpl. rewrite set_entries_insert.
      rewrite decide_True by (by rewrite Ht). by rewrite elem_of_set_delete, Hn.
    + intros u y. rewrite Hadj2. apply Mono.
    + intros u y Huy Hn'. rewrite Hadj2 in Hn'.
      destruct (Rem u y Huy Hn') as (x & ? & ? & ? & _). by exists x.
    + intros x Hx Hm. rewrite !Hadj2. split; [by apply Hall|].
      destruct (Rem v x Hx (Hall x Hx Hm))
        as (x' & _ & _ & [[_ ->]|[<- ->]] & ? & ?); done.
Qed.

(** Whatever is shared, [removeVertex] comes to an end: [removeEdge] only
    makes holes, so the iterator reaches the end of the entry list within
    the length it had at the start. *)
Lemma removeVertex_terminates v s : removeVertex v s ≠ Diverge.
Proof.
  unfold removeVertex. unfold bind at 1 2. unfold this_nodes, Set_has.
  destruct (negb _); [done|].
  unfold bind at 1. unfold get_node. destruct (deref s v) as [nd|]; [|done].
  unfold bind at 1. unfold forEach.
  pose proof (set_iterate_rule (V:=V) (adjacent nd)
    (λ adjacentVertex _, removeEdge v adjacentVertex)
    (λ _ _ s', shrinks s s') (λ _, True)
    (length (set_entries s (adjacent nd)))) as Hrule.
  opose proof* (Hrule _ _ _ (length (set_entries s (adjacent nd))) 0 tt s) as H;
    [| | |lia| |].
  - intros i _ s' (_ & _ & P). destruct (P (adjacent nd)) as (Hlen & _). lia.
  - done.
  - intros i _ s' x Hs _. pose proof (removeEdge_shrinks v x s') as H.
    destruct (removeEdge v x s') as [[] s''| |]; [|done..].
    by eapply shrinks_trans.
  - apply shrinks_refl.
  - by destruct (set_iterate _ _ _ _ _ _) as [[] s1| |].
Qed.

End RemoveVertexFacts.

(** ** Membership and the no-op guards *)

Section GuardFacts.
Context {V : Type}.
Implicit Types (s : State V) (x y u v : ref).

Lemma not_member_has s x :
  ¬ member s x ↔ set_has (set_entries s (nodes (this s))) x = false.
Proof. unfold member. by rewrite set_has_false. Qed.

Lemma addEdge_nonmember s v x :
  ¬ member s v ∨ ¬ member s x → addEdge v x s = Ok tt s.
Proof.
  intros H. unfold addEdge. unfold bind at 1 2 3. unfold this_nodes, Set_has.
  destruct H as [H|H]; apply not_member_has in H; rewrite H; simpl; [done|].
  by rewrite orb_true_r.
Qed.

Lemma removeEdge_nonmember s v x :
  ¬ member s v ∨ ¬ member s x → removeEdge v x s = Ok tt s.
Proof.
  intros H. unfold removeEdge. unfold bind at 1 2 3. unfold this_nodes, Set_has.
  destruct H as [H|H]; apply not_member_has in H; rewrite H; simpl; [done|].
  by rewrite orb_true_r.
Qed.

Lemma removeVertex_nonmember s v : ¬ member s v → removeVertex v s = Ok tt s.
Proof.
  intros H. unfold removeVertex. unfold bind at 1 2. unfold this_nodes, Set_has.
  apply not_member_has in H. by rewrite H.
Qed.

(** [addVertices] writes to the [Set] of [this.nodes] only. *)
Lemma addVertices_spec vs : ∀ s,
  ∃ s', addVertices vs s = Ok tt s' ∧ this s' = this s ∧ heap s' = heap s ∧
        (∀ q, q ≠ nodes (this s) → set_entries s' q = set_entries s q) ∧
        ∀ x, member s' x ↔ member s x ∨ x ∈ vs.
Proof.
  induction vs as [|v vs IH]; intros s; simpl.
  - exists s. split_and!; [done..|]. intros x. rewrite elem_of_nil. tauto.
  - unfold bind at 1 2. unfold this_nodes, Set_add.
    set (s1 := mkState _ _ _).
    destruct (IH s1) as (s' & -> & Ht & Hh & He & Hm).
    exists s'. split_and!; [done..| |].
    + intros q Hq. rewrite He by done. unfold s1.
      rewrite set_entries_insert. by rewrite decide_False.
    + intros x. rewrite Hm, elem_of_cons. unfold member, s1. simpl.
      rewrite set_entries_insert, decide_True by done.
      rewrite elem_of_set_add. tauto.
Qed.

Lemma addVertex_spec v s :
  ∃ s', addVertex v s = Ok tt s' ∧ this s' = this s ∧ heap s' = heap s ∧
        (∀ q, q ≠ nodes (this s) → set_entries s' q = set_entries s q) ∧
        ∀ x, member s' x ↔ member s x ∨ x = v.
Proof.
  unfold addVertex, bind, this_nodes, Set_add. eexists. split; [done|].
  split_and!; [done..| |].
  - intros q Hq. rewrite set_entries_insert. by rewrite decide_False.
  - intros x. unfold member. simpl.
    rewrite set_entries_insert, decide_True by done.
    rewrite elem_of_set_add. tauto.
Qed.

(** A write to [this.nodes] leaves the links as they are when no [Node]
    holds that [Set]. *)
Lemma unshared_nodes_write s s' u :
  unshared s → heap s' = heap s →
  (∀ q, q ≠ nodes (this s) → set_entries s' q = set_entries s q) →
  (is_node s' u ↔ is_node s u) ∧ neighbors s' u = neighbors s u.
Proof.
  intros [_ U2] Hh He.
  assert (Hd : deref s' u = deref s u).
  { destruct u; [done..|]. simpl. by rewrite Hh. }
  unfold is_node, neighbors. rewrite Hd. split; [done|].
  destruct (deref s u) as [nu|] eqn:Hu; [|done]. apply He. by eapply U2.
Qed.

Lemma addEdge_terminates v x s : addEdge v x s ≠ Diverge.
Proof.
  unfold addEdge, bind, this_nodes, Set_has, get_node, Set_add, ret.
  repeat case_match; done.
Qed.

Lemma addVertices_terminates vs s : addVertices vs s ≠ Diverge.
Proof. by destruct (addVertices_spec vs s) as (s' & -> & _). Qed.

Lemma removeEdge_terminates v x s : removeEdge v x s ≠ Diverge.
Proof. pose proof (removeEdge_shrinks v x s). by destruct (removeEdge v x s). Qed.

Lemma shrinks_members_typed s s' : shrinks s s' → members_typed s → members_typed s'.
Proof.
  intros (Ht & Hh & P) Hty x Hx. unfold member in Hx. rewrite Ht in Hx.
  destruct (P (nodes (this s))) as (_ & Hsub & _). apply Hsub, Hty in Hx.
  unfold is_node in *. destruct x; [done..|]. simpl in *. by rewrite Hh.
Qed.

(** When the members are [Node]s, the edge methods return. *)
Lemma addEdge_returns v x s : members_typed s → ∃ s', addEdge v x s = Ok tt s'.
Proof.
  intros Hty. unfold addEdge. unfold bind at 1 2 3. unfold this_nodes, Set_has.
  destruct (set_has _ v) eqn:Hv; simpl; [|by eexists].
  destruct (set_has _ x) eqn:Hx; simpl; [|by eexists].
  apply set_has_true in Hv, Hx.
  destruct (Hty v Hv) as [nv Hdv], (Hty x Hx) as [nx Hdx].
  unfold bind, get_node, Set_add. rewrite Hdv.
  assert (Hdx' : ∀ ss, deref (mkState (heap s) ss (this s)) x = Some nx)
    by by destruct x.
  rewrite Hdx'. by eexists.
Qed.

Lemma removeEdge_returns v x s : members_typed s → ∃ s', removeEdge v x s = Ok tt s'.
Proof.
  intros Hty. unfold removeEdge. unfold bind at 1 2 3. unfold this_nodes, Set_has.
  destruct (set_has _ v) eqn:Hv; simpl; [|by eexists].
  destruct (set_has _ x) eqn:Hx; simpl; [|by eexists].
  apply set_has_true in Hv, Hx.
  destruct (Hty v Hv) as [nv Hdv], (Hty x Hx) as [nx Hdx].
  unfold bind, get_node, Set_delete. rewrite Hdv.
  assert (Hdx' : ∀ ss, deref (mkState (heap s) ss (this s)) x = Some nx)
    by by destruct x.
  rewrite Hdx'. by eexists.
Qed.

(** So does [removeVertex], whatever is shared: the sets only lose keys
    while it runs, and a member stays a [Node]. *)
Lemma removeVertex_returns v s : members_typed s → ∃ s', removeVertex v s = Ok tt s'.
Proof.
  intros Hty. unfold removeVertex. unfold bind at 1 2. unfold this_nodes, Set_has.
  destruct (set_has _ v) eqn:Hv; simpl; [|by eexists].
  apply set_has_true in Hv. destruct (Hty v Hv) as [nd Hd].
  unfold bind at 1. unfold get_node. rewrite Hd.
  unfold bind at 1. unfold forEach.
  pose proof (set_iterate_rule (V:=V) (adjacent nd)
    (λ adjacentVertex _, removeEdge v adjacentVertex)
    (λ _ _ s', shrinks s s') (λ _, False)
    (length (set_entries s (adjacent nd)))) as Hrule.
  opose proof* (Hrule _ _ _ (length (set_entries s (adjacent nd))) 0 tt s) as H;
    [| | |lia| |].
  - intros i _ s' (_ & _ & P). destruct (P (adjacent nd)) as (Hlen & _). lia.
  - done.
  - intros i _ s' x Hs _. pose proof (removeEdge_shrinks v x s') as H.
    destruct (removeEdge_returns v x s') as [s'' Hs''];
      [by eapply shrinks_members_typed|].
    rewrite Hs'' in *. by eapply shrinks_trans.
  - apply shrinks_refl.
  - destruct (set_iterate _ _ _ _ _ _) as [[] s1| |]; [|done..].
    unfold Set_delete. by eexists.
Qed.

Lemma reachable_typed s start x :
  links_typed s → is_node s start → reachable s start x → is_node s x.
Proof. intros Hl Hs. induction 1; [done|]. by eapply Hl. Qed.

Lemma typed_no_bad_reference s start :
  links_typed s → is_node s start → ¬ bad_reference s start.
Proof.
  intros Hl Hs (x & Hx & Hd).
  destruct (reachable_typed s start x Hl Hs Hx) as [? ?]. congruence.
Qed.

Lemma depthFirstSearch_falsy s start :
  truthy start = false → depthFirstSearch start s = Ok [] s.
Proof. intros Htr. unfold depthFirstSearch, bind. simpl. by rewrite Htr. Qed.

(** Checks over the keys of [nodes] and of the store, to decide the typing,
    the sharing and the symmetry of a given state. *)
Lemma members_typed_Forall s :
  Forall (is_node s) (set_keys (set_entries s (nodes (this s)))) → members_typed s.
Proof.
  intros H x Hx. rewrite Forall_forall in H. apply H. by apply elem_of_set_keys.
Qed.

Lemma links_typed_Forall s :
  map_Forall (λ _ nd, Forall (is_node s) (set_keys (set_entries s (adjacent nd))))
    (heap s) →
  links_typed s.
Proof.
  intros H u x Hadj. unfold adj, neighbors in Hadj.
  destruct (deref s u) as [nd|] eqn:Hd; [|by inversion Hadj].
  destruct u as [| |a]; [done..|]. simpl in Hd.
  specialize (H a nd Hd). simpl in H. rewrite Forall_forall in H.
  apply H. by apply elem_of_set_keys.
Qed.

Lemma symmetric_Forall s :
  Forall (λ u, Forall (λ v, is_node s u → is_node s v → adj s u v ↔ adj s v u)
                 (set_keys (set_entries s (nodes (this s)))))
         (set_keys (set_entries s (nodes (this s)))) →
  symmetric s.
Proof.
  intros H u v Mu Mv. rewrite Forall_forall in H.
  specialize (H u (proj2 (elem_of_set_keys _ _) Mu)).
  rewrite Forall_forall in H. apply H. by apply elem_of_set_keys.
Qed.

Lemma unshared_NoDup s :
  NoDup (nodes (this s) :: (adjacent <$> (map_to_list (heap s)).*2)) → unshared s.
Proof.
  intros Hnd. apply NoDup_cons in Hnd as [Hn Hnd].
  assert (Hin : ∀ u nu, deref s u = Some nu →
            ∃ a, u = Obj a ∧ (a, nu) ∈ map_to_list (heap s)).
  { intros [| |a] nu Hu; [done..|]. exists a. split; [done|].
    by apply elem_of_map_to_list. }
  split.
  - intros u v nu nv Hu Hv Heq.
    destruct (Hin u nu Hu) as (a & -> & Ha), (Hin v nv Hv) as (b & -> & Hb).
    apply list_elem_of_lookup_1 in Ha as [i Hi], Hb as [j Hj].
    assert (i = j) as ->.
    { eapply NoDup_lookup; [exact Hnd| |].
      - rewrite !list_lookup_fmap, Hi. done.
      - rewrite !list_lookup_fmap, Hj. simpl. by rewrite Heq. }
    congruence.
  - intros u nu Hu Heq. destruct (Hin u nu Hu) as (a & -> & Ha).
    apply Hn. rewrite <- Heq. apply list_elem_of_fmap. exists nu. split; [done|].
    apply list_elem_of_fmap. by exists (a, nu).
Qed.

End GuardFacts.

(** Decides a closed proposition by evaluation. *)
Ltac decide_by_eval := apply (bool_decide_unpack _); vm_compute; exact I.

(** ** The concrete graphs are what the methods build *)

Lemma chain_graph_state :
  chain_graph empty_state = Ok (Obj 1, Obj 2, Obj 3) chain_state.
Proof. vm_compute. reflexivity. Qed.

Lemma triangle_graph_state : triangle_graph empty_state = Ok tt triangle_state.
Proof. vm_compute. reflexivity. Qed.

Lemma one_sided_graph_state :
  one_sided_graph empty_state = Ok (Obj 1, Obj 2) one_sided_state.
Proof. vm_compute. reflexivity. Qed.

Lemma two_graphs_state :
  two_graphs empty_state = Ok (Obj 1, Obj 2) second_graph_state.
Proof. vm_compute. reflexivity. Qed.

Lemma stray_vertex_state : stray_vertex empty_state = Ok (Obj 1) stray_state.
Proof. vm_compute. reflexivity. Qed.

Lemma shared_set_graph_state :
  shared_set_graph empty_state = Ok (Obj 1, Obj 2, Obj 3) shared_set_state.
Proof. vm_compute. reflexivity. Qed.

(** Why the vertices are taken to have adjacency sets of their own: with [a]
    and [b] built on one [Set], [addEdge(a, c)] puts [c] into the adjacency
    set of [b] as well, and [b] is not in that of [c]. *)
Example shared_adjacency_breaks_symmetry :
  symmetric shared_set_state ∧ ¬ unshared shared_set_state ∧
  ∃ s', addEdge (Obj 1) (Obj 3) shared_set_state = Ok tt s' ∧
        adj s' (Obj 2) (Obj 3) ∧ ¬ adj s' (Obj 3) (Obj 2).
Proof.
  split_and!.
  - apply symmetric_Forall. decide_by_eval.
  - intros [U1 _].
    by specialize (U1 (Obj 1) (Obj 2) (mkNode 1 2) (mkNode 2 2) eq_refl eq_refl eq_refl).
  - eexists. split; [vm_compute; reflexivity|]. split; decide_by_eval.
Qed.

(** ** The traversals *)

Section TraversalClaims.
Context {V : Type}.
Implicit Types (s : State V) (start x : ref) (r : list V).

(** C3 (as amended): for a start that is [null] or [undefined],
    [depthFirstSearch] returns the empty sequence, the guard [if (!vertex)]
    coming before anything is recorded; membership in [nodes] is not
    consulted, and for a start that is a [Node], member or not, the sequence
    returned begins with the value of the start. *)
Theorem C3_dfs_null_start s start :
  (truthy start = false → depthFirstSearch start s = Ok [] s) ∧
  (∀ nd r s', deref s start = Some nd →
     depthFirstSearch start s = Ok r s' → ∃ r', r = value nd :: r').
Proof.
  split.
  - apply depthFirstSearch_falsy.
  - intros nd r s' Hd Hr. pose proof (depthFirstSearch_spec s start) as H.
    rewrite Hr in H. destruct H as (_ & vs & _ & Hval & _ & Hhd).
    destruct Hhd as [vs' ->]; [by destruct start|].
    inversion Hval as [|? val ? r' (nd' & Hd' & Hv)]; simplify_eq. by exists r'.
Qed.

(** C4: [breadthFirstSearch] has no guard: for a start that is [null] or
    [undefined] it throws a [TypeError] when it reads the value of the
    vertex taken from the queue, where [depthFirstSearch] returns the empty
    sequence. *)
Theorem C4_bfs_null_start s start :
  truthy start = false →
  breadthFirstSearch start s = TypeError s ∧ depthFirstSearch start s = Ok [] s.
Proof.
  intros Htr. split.
  - unfold breadthFirstSearch. simpl. unfold bind, get_node. by destruct start.
  - by apply depthFirstSearch_falsy.
Qed.

(** C6: a sequence returned by [depthFirstSearch] or [breadthFirstSearch]
    lists the values of vertices that are reachable from the start along
    adjacency links; no other vertex contributes to it. *)
Theorem C6_only_reachable s start r s' :
  depthFirstSearch start s = Ok r s' ∨ breadthFirstSearch start s = Ok r s' →
  ∃ vs, Forall2 (has_value s) vs r ∧ ∀ x, x ∈ vs → reachable s start x.
Proof.
  intros [Hr|Hr].
  - pose proof (depthFirstSearch_spec s start) as H. rewrite Hr in H.
    destruct H as (_ & vs & _ & Hval & Hre & _). exists vs.
    split; [done|]. by apply Forall_forall.
  - pose proof (breadthFirstSearch_spec s start) as H. rewrite Hr in H.
    destruct H as (_ & vs & _ & Hval & Hre). exists vs.
    split; [done|]. by apply Forall_forall.
Qed.

(** C10: a traversal that returns leaves the store and the graph as they
    were: [nodes] and every [adjacent] set are the same before and after. *)
Theorem C10_traversals_read_only s start r s' :
  depthFirstSearch start s = Ok r s' ∨ breadthFirstSearch start s = Ok r s' →
  s' = s.
Proof.
  intros [Hr|Hr].
  - pose proof (depthFirstSearch_spec s start) as H. rewrite Hr in H. by destruct H.
  - pose proof (breadthFirstSearch_spec s start) as H. rewrite Hr in H. by destruct H.
Qed.

Lemma run_mutation_returns (op : mutation) s :
  members_typed s → ∃ s', run_mutation op s = Ok tt s'.
Proof.
  intros Hty. destruct op as [v|vs|v x|v x|v]; simpl.
  - by eexists.
  - destruct (addVertices_spec vs s) as (s' & ? & _). by exists s'.
  - by apply addEdge_returns.
  - by apply removeEdge_returns.
  - by apply removeVertex_returns.
Qed.

Lemma run_mutation_terminates (op : mutation) s : run_mutation op s ≠ Diverge.
Proof.
  destruct op as [v|vs|v x|v x|v]; simpl.
  - done.
  - apply addVertices_terminates.
  - apply addEdge_terminates.
  - apply removeEdge_terminates.
  - apply removeVertex_terminates.
Qed.

End TraversalClaims.

(** C7: on the chain A(1) - B(2) - C(3), built in that order, both
    [breadthFirstSearch(A)] and [depthFirstSearch(A)] return [1; 2; 3]. *)
Theorem C7_chain_traversals :
  ∃ A B C s,
    chain_graph empty_state = Ok (A, B, C) s ∧
    breadthFirstSearch A s = Ok [1; 2; 3] s ∧
    depthFirstSearch A s = Ok [1; 2; 3] s.
Proof.
  exists (Obj 1), (Obj 2), (Obj 3), chain_state.
  split_and!; vm_compute; reflexivity.
Qed.

(** ** The mutating methods *)

Section MutationClaims.
Context {V : Type}.
Implicit Types (s : State V) (x y u v w : ref).

Lemma symmetric_same_links s s' (P P' : ref → Prop) :
  (∀ u, P' u → P u) →
  (∀ u, is_node s' u ↔ is_node s u) →
  (∀ u y, P' u → P' y → adj s' u y ↔ adj s u y) →
  symmetric_on P s → symmetric_on P' s'.
Proof.
  intros HP HN HA Hsym u y Pu Py Nu Ny.
  rewrite !HA by done. apply Hsym; [by apply HP..|by apply HN|by apply HN].
Qed.

Lemma addVertex_symmetric s v s' :
  unshared s → symmetric_on (λ x, member s x ∨ x = v) s →
  addVertex v s = Ok tt s' → symmetric s'.
Proof.
  intros Hun Hsym Hrun. destruct (addVertex_spec v s) as (s1 & Hs1 & Ht & Hh & He & Hm).
  rewrite Hs1 in Hrun. simplify_eq.
  eapply symmetric_same_links; [| | |exact Hsym].
  - intros u. apply Hm.
  - intros u. by apply unshared_nodes_write.
  - intros u y _ _. unfold adj.
    by destruct (unshared_nodes_write s s' u Hun Hh He) as [_ ->].
Qed.

Lemma addVertices_symmetric s vs s' :
  unshared s → symmetric_on (λ x, member s x ∨ x ∈ vs) s →
  addVertices vs s = Ok tt s' → symmetric s'.
Proof.
  intros Hun Hsym Hrun.
  destruct (addVertices_spec vs s) as (s1 & Hs1 & Ht & Hh & He & Hm).
  rewrite Hs1 in Hrun. simplify_eq.
  eapply symmetric_same_links; [| | |exact Hsym].
  - intros u. apply Hm.
  - intros u. by apply unshared_nodes_write.
  - intros u y _ _. unfold adj.
    by destruct (unshared_nodes_write s s' u Hun Hh He) as [_ ->].
Qed.

Lemma addEdge_symmetric s v x s' :
  unshared s → symmetric s → addEdge v x s = Ok tt s' → symmetric s'.
Proof.
  intros Hun Hsym Hrun. pose proof (addEdge_spec v x s Hun) as H. rewrite Hrun in H.
  destruct H as (O & [[_ ->]|(_ & _ & _ & _ & E)]); [done|].
  intros u y Mu My Nu Ny. rewrite !E.
  apply (member_same_objects _ _ _ O) in Mu, My.
  apply (same_objects_is_node _ _ _ O) in Nu, Ny.
  specialize (Hsym u y Mu My Nu Ny). tauto.
Qed.

Lemma removeEdge_symmetric s v x s' :
  unshared s → symmetric s → removeEdge v x s = Ok tt s' → symmetric s'.
Proof.
  intros Hun Hsym Hrun. pose proof (removeEdge_spec v x s Hun) as H.
  rewrite Hrun in H.
  destruct H as (O & _ & [[_ ->]|(_ & _ & _ & _ & E)]); [done|].
  intros u y Mu My Nu Ny. rewrite !E.
  apply (member_same_objects _ _ _ O) in Mu, My.
  apply (same_objects_is_node _ _ _ O) in Nu, Ny.
  specialize (Hsym u y Mu My Nu Ny). tauto.
Qed.

Lemma removeVertex_symmetric s v s' :
  unshared s → symmetric s → removeVertex v s = Ok tt s' → symmetric s'.
Proof.
  intros Hun Hsym Hrun.
  destruct (decide (member s v)) as [Hm|Hm].
  2:{ rewrite removeVertex_nonmember in Hrun by done. by simplify_eq. }
  pose proof (removeVertex_spec v s Hun Hm) as H.
  rewrite Hrun in H. destruct H as (_ & Ht & Hh & Hmem & Mono & Rem & _).
  eapply symmetric_same_links; [| | |exact Hsym].
  - intros u Hu. by apply Hmem.
  - intros u. unfold is_node. destruct u; [done..|]. simpl. by rewrite Hh.
  - intros u y [Hu _]%Hmem [Hy _]%Hmem. split; [apply Mono|]. intros Huy.
    destruct (decide (adj s' u y)) as [|Hn]; [done|].
    destruct (Rem u y Huy Hn) as (x' & _ & _ & [[? _]|[_ ?]]); done.
Qed.

Lemma run_mutation_symmetric s (op : mutation) s' :
  unshared s → symmetric s → addition_symmetric s op →
  run_mutation op s = Ok tt s' → symmetric s'.
Proof.
  intros Hun Hsym Hadd Hrun. destruct op as [v|vs|v x|v x|v]; simpl in *.
  - by eapply addVertex_symmetric.
  - by eapply addVertices_symmetric.
  - by eapply addEdge_symmetric.
  - by eapply removeEdge_symmetric.
  - by eapply removeVertex_symmetric.
Qed.

(** C1 (as amended): in a graph whose vertices have adjacency sets of their
    own, edge symmetry among the members of [nodes] is kept by [addEdge],
    [removeEdge] and [removeVertex]; [addVertex] and [addVertices] keep it
    when the links between the vertices they add and the members are
    symmetric before the call.  When the members are [Node]s the method
    returns, and the symmetry holds in the state it returns. *)
Theorem C1_symmetry_preserved s (op : mutation) :
  unshared s → symmetric s → addition_symmetric s op →
  (∀ s', run_mutation op s = Ok tt s' → symmetric s') ∧
  (members_typed s → ∃ s', run_mutation op s = Ok tt s' ∧ symmetric s').
Proof.
  intros Hun Hsym Hadd. split.
  - intros s'. by apply run_mutation_symmetric.
  - intros Hty. destruct (run_mutation_returns op s Hty) as [s' Hrun].
    exists s'. split; [done|]. by eapply run_mutation_symmetric.
Qed.

(** C2 (as amended): for a member [v] of a graph whose members are [Node]s
    with adjacency sets of their own, [removeVertex v] returns, [v] is no
    longer in [nodes], and for every neighbour [x] of [v] that is itself a
    member, [v] is no longer in [x.adjacent] nor [x] in [v.adjacent]: the
    live iteration skips no entry.  A neighbour that is not a member keeps
    its links with [v].  When the edges among the members were symmetric, no
    member is left with [v] in its adjacency set. *)
Theorem C2_removeVertex_member_neighbors s v :
  member s v → members_typed s → unshared s →
  ∃ s', removeVertex v s = Ok tt s' ∧
        ¬ member s' v ∧
        (∀ x, adj s v x → member s x → ¬ adj s' x v ∧ ¬ adj s' v x) ∧
        (∀ x, adj s v x → ¬ member s x → adj s' v x ∧ (adj s x v → adj s' x v)) ∧
        (symmetric s → ∀ u, member s' u → ¬ adj s' u v).
Proof.
  intros Hv Hty Hun. pose proof (removeVertex_spec v s Hun Hv) as H.
  destruct (removeVertex v s) as [[] s'| |]; [| |done].
  2:{ destruct H as (x & Hx & Hn). destruct Hn. by apply Hty. }
  destruct H as (Nv & _ & _ & Hmem & Mono & Rem & All).
  exists s'. split_and!; [done| | | |].
  - rewrite Hmem. by intros [? _].
  - intros x Hx Hm. destruct (All x Hx Hm). done.
  - intros x Hx Hm. split.
    + destruct (decide (adj s' v x)) as [|Hn']; [done|].
      destruct (Rem v x Hx Hn') as (x' & Hm' & _ & [[_ ->]|[<- ->]]); done.
    + intros Hxv. destruct (decide (adj s' x v)) as [|Hn']; [done|].
      destruct (Rem x v Hxv Hn') as (x' & Hm' & _ & [[-> _]|[-> _]]); done.
  - intros Hsym u [_ Hu]%Hmem Huv. pose proof (Mono u v Huv) as Huv0.
    apply (Hsym u v Hu Hv (Hty u Hu) Nv) in Huv0.
    destruct (All u Huv0 Hu) as [_ Hn]. by apply Hn.
Qed.

(** C5: when an argument of [addEdge] or [removeEdge], or the argument of
    [removeVertex], is not in [nodes], the call returns without an error and
    the store and the graph are as before. *)
Theorem C5_nonmember_noop s v w :
  ¬ member s v →
  addEdge v w s = Ok tt s ∧ addEdge w v s = Ok tt s ∧
  removeEdge v w s = Ok tt s ∧ removeEdge w v s = Ok tt s ∧
  removeVertex v s = Ok tt s.
Proof.
  intros Hv. split_and!.
  - apply addEdge_nonmember. by left.
  - apply addEdge_nonmember. by right.
  - apply removeEdge_nonmember. by left.
  - apply removeEdge_nonmember. by right.
  - by apply removeVertex_nonmember.
Qed.

(** C9: for a member [A] of a graph whose members are [Node]s with adjacency
    sets of their own, [addEdge(A, A)] puts [A] into its own adjacency set,
    and [removeVertex(A)] after it returns without an error, with [A] out of
    [nodes] and out of its own adjacency set. *)
Theorem C9_self_edge s A :
  member s A → members_typed s → unshared s →
  ∃ s1, addEdge A A s = Ok tt s1 ∧ adj s1 A A ∧
  ∃ s2, removeVertex A s1 = Ok tt s2 ∧ ¬ member s2 A ∧ ¬ adj s2 A A.
Proof.
  intros HA Hty Hun. pose proof (addEdge_spec A A s Hun) as H1.
  destruct (addEdge A A s) as [[] s1| |]; [| |done].
  2:{ destruct H1 as (_ & _ & _ & Hn). destruct Hn. split; by apply Hty. }
  destruct H1 as (O & [[Hn _]|(_ & _ & _ & _ & E)]); [by destruct Hn|].
  assert (HA1 : member s1 A) by by apply (member_same_objects _ _ _ O).
  assert (Hadj : adj s1 A A) by (apply E; auto).
  exists s1. split_and!; [done..|].
  pose proof (removeVertex_spec A s1 (unshared_same_objects _ _ O Hun) HA1) as H2.
  destruct (removeVertex A s1) as [[] s2| |]; [| |done].
  2:{ destruct H2 as (x & Hx & Hn). destruct Hn.
      apply (same_objects_is_node _ _ _ O), Hty.
      by apply (member_same_objects _ _ _ O). }
  destruct H2 as (_ & _ & _ & Hmem & _ & _ & All).
  exists s2. split_and!; [done| |].
  - rewrite Hmem. by intros [? _].
  - by destruct (All A Hadj HA1).
Qed.

End MutationClaims.

(** ** The claims on concrete graphs *)

(** C1, as stated, fails for [addVertex]: in [one_sided_state] the only
    member is [u], so the edges among the members are symmetric; [v], built
    with [u] in its adjacency set, is then added, and [u] is in [v.adjacent]
    while [v] is not in [u.adjacent].  No [Set] is shared there. *)
Lemma C1_counterexample :
  unshared one_sided_state ∧
  symmetric one_sided_state ∧
  run_mutation (AddVertex (Obj 2)) one_sided_state = Ok tt one_sided_state_added ∧
  ¬ symmetric one_sided_state_added.
Proof.
  split_and!.
  - apply unshared_NoDup. decide_by_eval.
  - apply symmetric_Forall. decide_by_eval.
  - vm_compute. reflexivity.
  - intros Hsym.
    assert (H21 : adj one_sided_state_added (Obj 2) (Obj 1)) by decide_by_eval.
    apply Hsym in H21; [|decide_by_eval..].
    revert H21. apply (bool_decide_unpack _). vm_compute. exact I.
Qed.

Lemma C1_witness :
  (∃ s', run_mutation (RemoveVertex (Obj 2)) chain_state = Ok tt s' ∧ symmetric s') ∧
  (∃ s', run_mutation (AddVertex (Obj 1)) stray_state = Ok tt s' ∧ symmetric s').
Proof.
  split.
  - apply (C1_symmetry_preserved chain_state (RemoveVertex (Obj 2))).
    + apply unshared_NoDup. decide_by_eval.
    + apply symmetric_Forall. decide_by_eval.
    + exact I.
    + apply members_typed_Forall. decide_by_eval.
  - apply (C1_symmetry_preserved stray_state (AddVertex (Obj 1))).
    + apply unshared_NoDup. decide_by_eval.
    + apply symmetric_Forall. decide_by_eval.
    + intros u v [Mu| ->] [Mv| ->] _ _;
        [by apply elem_of_nil in Mu..|by apply elem_of_nil in Mv|done].
    + apply members_typed_Forall. decide_by_eval.
Defined.

(** C2, as stated, fails for a neighbour that is not a member: in
    [second_graph_state] B is in [A.adjacent] and A in [B.adjacent], and B is
    not in the [nodes] of the graph that [removeVertex(A)] is called on;
    [removeEdge(A, B)] returns at its guard and A stays in [B.adjacent].  The
    members are [Node]s there and no [Set] is shared. *)
Lemma C2_counterexample :
  members_typed second_graph_state ∧ unshared second_graph_state ∧
  member second_graph_state (Obj 1) ∧
  adj second_graph_state (Obj 1) (Obj 2) ∧
  removeVertex (Obj 1) second_graph_state = Ok tt second_graph_state_removed ∧
  adj second_graph_state_removed (Obj 2) (Obj 1).
Proof.
  split_and!; [| |decide_by_eval..| |decide_by_eval].
  - apply members_typed_Forall. decide_by_eval.
  - apply unshared_NoDup. decide_by_eval.
  - vm_compute. reflexivity.
Qed.

Lemma C2_witness :
  ∃ s', removeVertex (Obj 2) chain_state = Ok tt s' ∧
        ¬ member s' (Obj 2) ∧
        (∀ x, adj chain_state (Obj 2) x → member chain_state x →
              ¬ adj s' x (Obj 2) ∧ ¬ adj s' (Obj 2) x) ∧
        (∀ x, adj chain_state (Obj 2) x → ¬ member chain_state x →
              adj s' (Obj 2) x ∧ (adj chain_state x (Obj 2) → adj s' x (Obj 2))) ∧
        (symmetric chain_state → ∀ u, member s' u → ¬ adj s' u (Obj 2)).
Proof.
  apply C2_removeVertex_member_neighbors.
  - decide_by_eval.
  - apply members_typed_Forall. decide_by_eval.
  - apply unshared_NoDup. decide_by_eval.
Defined.

(** C3, as stated, fails for a start that is a [Node] absent from [nodes]:
    the vertex of [stray_state] was never added, and the traversal from it
    returns its value. *)
Lemma C3_counterexample :
  ¬ member stray_state (Obj 1) ∧
  depthFirstSearch (Obj 1) stray_state = Ok [7] stray_state.
Proof.
  split; [decide_by_eval|]. vm_compute. reflexivity.
Qed.

Lemma C3_witness :
  depthFirstSearch Null chain_state = Ok [] chain_state ∧
  depthFirstSearch Undefined chain_state = Ok [] chain_state ∧
  ∃ r', [7] = 7 :: r'.
Proof.
  split_and!.
  - apply (proj1 (C3_dfs_null_start chain_state Null)). reflexivity.
  - apply (proj1 (C3_dfs_null_start chain_state Undefined)). reflexivity.
  - apply (proj2 (C3_dfs_null_start stray_state (Obj 1)) (mkNode 7 2)
             [7] stray_state); vm_compute; reflexivity.
Defined.

Lemma C4_witness :
  breadthFirstSearch Null chain_state = TypeError chain_state ∧
  depthFirstSearch Null chain_state = Ok [] chain_state.
Proof. apply C4_bfs_null_start. reflexivity. Defined.

Lemma C5_witness :
  addEdge (Obj 2) (Obj 1) one_sided_state = Ok tt one_sided_state ∧
  addEdge (Obj 1) (Obj 2) one_sided_state = Ok tt one_sided_state ∧
  removeEdge (Obj 2) (Obj 1) one_sided_state = Ok tt one_sided_state ∧
  removeEdge (Obj 1) (Obj 2) one_sided_state = Ok tt one_sided_state ∧
  removeVertex (Obj 2) one_sided_state = Ok tt one_sided_state.
Proof. apply C5_nonmember_noop. decide_by_eval. Defined.

Lemma C6_witness :
  ∃ vs, Forall2 (has_value triangle_state) vs [1; 2; 3] ∧
        ∀ x, x ∈ vs → reachable triangle_state (Obj 1) x.
Proof.
  apply (C6_only_reachable triangle_state (Obj 1) [1; 2; 3] triangle_state).
  left. vm_compute. reflexivity.
Defined.


Lemma C9_witness :
  ∃ s1, addEdge (Obj 1) (Obj 1) chain_state = Ok tt s1 ∧ adj s1 (Obj 1) (Obj 1) ∧
  ∃ s2, removeVertex (Obj 1) s1 = Ok tt s2 ∧
        ¬ member s2 (Obj 1) ∧ ¬ adj s2 (Obj 1) (Obj 1).
Proof.
  apply C9_self_edge.
  - decide_by_eval.
  - apply members_typed_Forall. decide_by_eval.
  - apply unshared_NoDup. decide_by_eval.
Defined.

Lemma C10_witness : triangle_state = triangle_state.
Proof.
  apply (C10_traversals_read_only triangle_state (Obj 1) [1; 2; 3] triangle_state).
  right. vm_compute. reflexivity.
Defined.

(** ** Repeated and reversed edge operations *)

Section SetStoreFacts.
Context {V : Type}.
Implicit Types (s : State V) (x y u v : ref) (p q : positive).

Lemma set_delete_absent (l : JSSet) x : Some x ∉ l → set_delete l x = l.
Proof.
  intros Hx. unfold set_delete. induction l as [|e l IH]; [done|].
  rewrite not_elem_of_cons in Hx. destruct Hx as [Hne Hx].
  rewrite fmap_cons, IH by done. by rewrite decide_False.
Qed.

Lemma set_entries_Some s p y : Some y ∈ set_entries s p → sets s !! p = Some (set_entries s p).
Proof.
  unfold set_entries. destruct (sets s !! p); [done|]. simpl.
  by intros ?%elem_of_nil.
Qed.

Lemma state_insert_id s p (e : JSSet) :
  sets s !! p = Some e → mkState (heap s) (<[p := e]> (sets s)) (this s) = s.
Proof. intros Hp. destruct s as [h ss g]. simpl in *. by rewrite insert_id. Qed.

(** [p.add(x)] of a key that is there changes nothing. *)
Lemma Set_add_present s p x : Some x ∈ set_entries s p → Set_add p x s = Ok tt s.
Proof.
  intros Hx. unfold Set_add, set_add.
  rewrite (proj2 (set_has_true _ _) Hx).
  by rewrite state_insert_id by by eapply set_entries_Some.
Qed.

(** [p.delete(x)] of a key that is not there changes nothing, once the set
    has been written to. *)
Lemma Set_delete_absent s p x :
  is_Some (sets s !! p) → Some x ∉ set_entries s p → Set_delete p x s = Ok tt s.
Proof.
  intros [e He] Hx. unfold Set_delete. rewrite set_delete_absent by done.
  rewrite state_insert_id; [done|]. unfold set_entries. by rewrite He.
Qed.

Lemma Set_add_state s p x :
  ∃ s', Set_add p x s = Ok tt s' ∧ this s' = this s ∧ heap s' = heap s ∧
        is_Some (sets s' !! p) ∧
        ∀ q, set_entries s' q
             = if decide (q = p) then set_add (set_entries s p) x else set_entries s q.
Proof.
  eexists. split; [done|]. split_and!; [done..| |].
  - simpl. rewrite lookup_insert_eq. by eexists.
  - intros q. rewrite set_entries_insert. by destruct (decide (q = p)) as [->|].
Qed.

Lemma Set_delete_state s p x :
  ∃ s', Set_delete p x s = Ok tt s' ∧ this s' = this s ∧ heap s' = heap s ∧
        is_Some (sets s' !! p) ∧
        (∀ q, is_Some (sets s !! q) → is_Some (sets s' !! q)) ∧
        ∀ q, set_entries s' q
             = if decide (q = p) then set_delete (set_entries s p) x else set_entries s q.
Proof.
  eexists. split; [done|]. split_and!; [done..| | |].
  - simpl. rewrite lookup_insert_eq. by eexists.
  - intros q Hq. simpl. rewrite lookup_insert. by case_decide.
  - intros q. rewrite set_entries_insert. by destruct (decide (q = p)) as [->|].
Qed.

Lemma Set_add_grows s p x s' :
  Set_add p x s = Ok tt s' →
  Some x ∈ set_entries s' p ∧
  (∀ q y, Some y ∈ set_entries s q → Some y ∈ set_entries s' q).
Proof.
  intros Hrun. destruct (Set_add_state s p x) as (s0 & Hs0 & _ & _ & _ & E).
  rewrite Hrun in Hs0. simplify_eq. split.
  - rewrite E, decide_True by done. apply elem_of_set_add. auto.
  - intros q y Hy. rewrite E. case_decide; subst; [|done].
    apply elem_of_set_add. auto.
Qed.

Lemma Set_delete_shrinks s p x s' :
  Set_delete p x s = Ok tt s' →
  (Some x ∉ set_entries s' p) ∧
  (∀ q y, Some y ∈ set_entries s' q → Some y ∈ set_entries s q).
Proof.
  intros Hrun. destruct (Set_delete_state s p x) as (s0 & Hs0 & _ & _ & _ & _ & E).
  rewrite Hrun in Hs0. simplify_eq. split.
  - rewrite E, decide_True by done. rewrite elem_of_set_delete. tauto.
  - intros q y. rewrite E. case_decide; subst; [|done].
    rewrite elem_of_set_delete. tauto.
Qed.

Lemma deref_heap s s' u : heap s' = heap s → deref s' u = deref s u.
Proof. intros Hh. destruct u; [done..|]. simpl. by rewrite Hh. Qed.

End SetStoreFacts.

Section Repeat.
Context {V : Type}.
Implicit Types (s : State V) (x y u v : ref) (p q : positive).

Lemma not_both_members s v x :
  ¬ (member s v ∧ member s x) → ¬ member s v ∨ ¬ member s x.
Proof. intros H. destruct (decide (member s v)); [right|left]; tauto. Qed.

Lemma addVertex_member_noop s v : member s v → addVertex v s = Ok tt s.
Proof. intros Hv. unfold addVertex, bind, this_nodes. by apply Set_add_present. Qed.

(** The two writes of [addEdge] on members that are [Node]s. *)
Lemma addEdge_members_run s v x s1 :
  member s v → member s x → addEdge v x s = Ok tt s1 →
  ∃ nv nx s', deref s v = Some nv ∧ deref s x = Some nx ∧
    Set_add (adjacent nv) x s = Ok tt s' ∧ Set_add (adjacent nx) v s' = Ok tt s1.
Proof.
  intros Mv Mx. unfold addEdge. unfold bind at 1 2 3. unfold this_nodes, Set_has.
  rewrite (proj2 (set_has_true _ _) Mv), (proj2 (set_has_true _ _) Mx). simpl.
  unfold bind at 1 2. unfold get_node at 1. destruct (deref s v) as [nv|] eqn:Hv; [|done].
  destruct (Set_add_state s (adjacent nv) x) as (s' & Hs' & Ht & Hh & _ & _).
  rewrite Hs'. unfold bind, get_node. rewrite (deref_heap s s') by done.
  destruct (deref s x) as [nx|] eqn:Hx; [|done]. intros Hrun.
  exists nv, nx, s'. by split_and!.
Qed.

Lemma removeEdge_members_run s v x s1 :
  member s v → member s x → removeEdge v x s = Ok tt s1 →
  ∃ nv nx s', deref s v = Some nv ∧ deref s x = Some nx ∧
    Set_delete (adjacent nv) x s = Ok tt s' ∧ Set_delete (adjacent nx) v s' = Ok tt s1.
Proof.
  intros Mv Mx. unfold removeEdge. unfold bind at 1 2 3. unfold this_nodes, Set_has.
  rewrite (proj2 (set_has_true _ _) Mv), (proj2 (set_has_true _ _) Mx). simpl.
  unfold bind at 1 2. unfold get_node at 1. destruct (deref s v) as [nv|] eqn:Hv; [|done].
  destruct (Set_delete_state s (adjacent nv) x) as (s' & Hs' & Ht & Hh & _ & _).
  rewrite Hs'. unfold bind, get_node. rewrite (deref_heap s s') by done.
  destruct (deref s x) as [nx|] eqn:Hx; [|done]. intros Hrun.
  exists nv, nx, s'. by split_and!.
Qed.

(** Conversely, the two writes are what [addEdge] does on such arguments. *)
Lemma addEdge_members_unfold s v x nv nx :
  member s v → member s x → deref s v = Some nv → deref s x = Some nx →
  addEdge v x s = (Set_add (adjacent nv) x >> Set_add (adjacent nx) v) s.
Proof.
  intros Mv Mx Hv Hx. unfold addEdge. unfold bind at 1 2 3. unfold this_nodes, Set_has.
  rewrite (proj2 (set_has_true _ _) Mv), (proj2 (set_has_true _ _) Mx). simpl.
  unfold bind, get_node. rewrite Hv.
  destruct (Set_add_state s (adjacent nv) x) as (s' & Hs' & Ht & Hh & _ & _).
  rewrite Hs'. by rewrite (deref_heap s s'), Hx.
Qed.

Lemma removeEdge_members_unfold s v x nv nx :
  member s v → member s x → deref s v = Some nv → deref s x = Some nx →
  removeEdge v x s = (Set_delete (adjacent nv) x >> Set_delete (adjacent nx) v) s.
Proof.
  intros Mv Mx Hv Hx. unfold removeEdge. unfold bind at 1 2 3.
  unfold this_nodes, Set_has.
  rewrite (proj2 (set_has_true _ _) Mv), (proj2 (set_has_true _ _) Mx). simpl.
  unfold bind, get_node. rewrite Hv.
  destruct (Set_delete_state s (adjacent nv) x) as (s' & Hs' & Ht & Hh & _ & _).
  rewrite Hs'. by rewrite (deref_heap s s'), Hx.
Qed.

End Repeat.

(** ** What the mutating methods leave alone *)

Section Direction.
Context {V : Type}.
Implicit Types (s : State V) (x y u v : ref) (p q : positive).

Lemma grows_refl s : grows s s.
Proof. split_and!; done. Qed.

Lemma grows_trans s1 s2 s3 : grows s1 s2 → grows s2 s3 → grows s1 s3.
Proof. intros (T1 & H1 & G1) (T2 & H2 & G2). split_and!; [congruence..|auto]. Qed.

Lemma Set_add_step s p x :
  ∃ s', Set_add p x s = Ok tt s' ∧ grows s s'.
Proof.
  destruct (Set_add_state s p x) as (s' & Hs' & Ht & Hh & _ & E).
  exists s'. split; [done|].
  split_and!; [done..|]. by apply (Set_add_grows s p x s').
Qed.

Lemma Set_delete_step s p x :
  ∃ s', Set_delete p x s = Ok tt s' ∧ shrinks s s'.
Proof.
  destruct (Set_delete_state s p x) as (s' & Hs' & Ht & Hh & _ & _ & E).
  exists s'. split; [done|].
  split_and!; [done..|]. intros q. rewrite E.
  case_decide; subst; [apply in_place_or_gone_delete|apply in_place_or_gone_refl].
Qed.

Lemma addVertices_step vs : ∀ s,
  ∃ s', addVertices vs s = Ok tt s' ∧ grows s s'.
Proof.
  induction vs as [|v vs IH]; intros s; simpl.
  - exists s. split; [done|apply grows_refl].
  - unfold bind at 1 2. unfold this_nodes.
    destruct (Set_add_step s (nodes (this s)) v) as (s1 & -> & G1).
    destruct (IH s1) as (s2 & -> & G2).
    exists s2. split; [done|by eapply grows_trans].
Qed.

Lemma addEdge_step s v x :
  ∃ s', final_state (addEdge v x s) = Some s' ∧ grows s s'.
Proof.
  unfold addEdge. unfold bind at 1 2 3. unfold this_nodes, Set_has.
  destruct (negb _ || negb _).
  { exists s. split; [done|apply grows_refl]. }
  unfold bind at 1 2. unfold get_node at 1. destruct (deref s v) as [nv|].
  2:{ exists s. split; [done|apply grows_refl]. }
  destruct (Set_add_step s (adjacent nv) x) as (s1 & -> & G1).
  unfold bind, get_node. destruct (deref s1 x) as [nx|].
  2:{ exists s1. by split. }
  destruct (Set_add_step s1 (adjacent nx) v) as (s2 & -> & G2).
  exists s2. split; [done|by eapply grows_trans].
Qed.

Lemma removeEdge_step s v x :
  ∃ s', final_state (removeEdge v x s) = Some s' ∧ shrinks s s'.
Proof.
  unfold removeEdge. unfold bind at 1 2 3. unfold this_nodes, Set_has.
  destruct (negb _ || negb _).
  { exists s. split; [done|apply shrinks_refl]. }
  unfold bind at 1 2. unfold get_node at 1. destruct (deref s v) as [nv|].
  2:{ exists s. split; [done|apply shrinks_refl]. }
  destruct (Set_delete_step s (adjacent nv) x) as (s1 & -> & G1).
  unfold bind, get_node. destruct (deref s1 x) as [nx|].
  2:{ exists s1. by split. }
  destruct (Set_delete_step s1 (adjacent nx) v) as (s2 & -> & G2).
  exists s2. split; [done|by eapply shrinks_trans].
Qed.

(** The state in which the iteration of [removeVertex] ends, and the state
    in which [removeVertex] ends. *)
Lemma removeVertex_loop_step s v (p : positive) :
  match forEach p (λ adjacentVertex _, removeEdge v adjacentVertex) tt s with
  | Ok _ s' | TypeError s' => shrinks s s'
  | Diverge => False
  end.
Proof.
  unfold forEach.
  pose proof (set_iterate_rule (V:=V) p
    (λ adjacentVertex _, removeEdge v adjacentVertex)
    (λ _ _ s', shrinks s s') (λ s', shrinks s s')
    (length (set_entries s p))) as Hrule.
  opose proof* (Hrule _ _ _ (length (set_entries s p)) 0 tt s) as H; [| | |lia| |].
  - intros i _ s' (_ & _ & P). destruct (P p) as (Hlen & _). lia.
  - done.
  - intros i _ s' x Hs _.
    destruct (removeEdge_step s' v x) as (s'' & Hf & Hs'').
    destruct (removeEdge v x s') as [[] s3|s3|]; simplify_eq/=; by eapply shrinks_trans.
  - apply shrinks_refl.
  - destruct (set_iterate _ _ _ _ _ _) as [[] s1|s1|]; [|done..]. by destruct H as (_ & ? & _).
Qed.

Lemma removeVertex_step s v :
  ∃ s', final_state (removeVertex v s) = Some s' ∧ shrinks s s'.
Proof.
  unfold removeVertex. unfold bind at 1 2. unfold this_nodes, Set_has.
  destruct (negb _).
  { exists s. split; [done|apply shrinks_refl]. }
  unfold bind at 1. unfold get_node. destruct (deref s v) as [nd|].
  2:{ exists s. split; [done|apply shrinks_refl]. }
  unfold bind at 1. pose proof (removeVertex_loop_step s v (adjacent nd)) as H.
  destruct (forEach _ _ _ _) as [[] s1|s1|]; [| |done].
  - destruct (Set_delete_step s1 (nodes (this s)) v) as (s2 & -> & G2).
    exists s2. split; [done|by eapply shrinks_trans].
  - by exists s1.
Qed.

Lemma grows_links s s' :
  grows s s' →
  (∀ x, member s x → member s' x) ∧ (∀ u y, adj s u y → adj s' u y) ∧
  (∀ u, is_node s' u ↔ is_node s u).
Proof.
  intros (Ht & Hh & G). split_and!.
  - intros x. unfold member. rewrite Ht. apply G.
  - intros u y. unfold adj, neighbors. rewrite (deref_heap s s') by done.
    destruct (deref s u); [apply G|done].
  - intros u. unfold is_node. by rewrite (deref_heap s s').
Qed.

Lemma shrinks_links s s' :
  shrinks s s' →
  (∀ x, member s' x → member s x) ∧ (∀ u y, adj s' u y → adj s u y) ∧
  (∀ u, is_node s' u ↔ is_node s u).
Proof.
  intros (Ht & Hh & P). split_and!.
  - intros x. unfold member. rewrite Ht. destruct (P (nodes (this s))) as (_ & Hsub & _).
    apply Hsub.
  - intros u y. unfold adj, neighbors. rewrite (deref_heap s s') by done.
    destruct (deref s u) as [nd|]; [|done].
    destruct (P (adjacent nd)) as (_ & Hsub & _). apply Hsub.
  - intros u. unfold is_node. by rewrite (deref_heap s s').
Qed.

Lemma set_add_NoDup (l : JSSet) y : NoDup (set_keys l) → NoDup (set_keys (set_add l y)).
Proof.
  intros Hnd. destruct (set_has l y) eqn:Hy.
  - unfold set_add. by rewrite Hy.
  - rewrite set_keys_add_new by done. apply NoDup_app. split_and!; [done| |apply NoDup_singleton].
    intros z Hz ->%list_elem_of_singleton.
    apply elem_of_set_keys, set_has_true in Hz. congruence.
Qed.

End Direction.

(** ** The traversals reach every reachable vertex *)

Section PartialIterate.
Context {V L : Type}.
Implicit Types (s : State V) (l : L).

(** The iteration rule for an iteration known to return. *)
Lemma set_iterate_partial (p : positive) (body : ref → L → M V L)
    (I : nat → L → State V → Prop) :
  (∀ i l s, I i l s → set_entries s p !! i = Some None → I (S i) l s) →
  (∀ i l s x l' s', I i l s → set_entries s p !! i = Some (Some x) →
     body x l s = Ok l' s' → I (S i) l' s') →
  ∀ n i l s l' s', I i l s → set_iterate n p i body l s = Ok l' s' →
    ∃ j, I j l' s' ∧ set_entries s' p !! j = None.
Proof.
  intros Hhole Hbody. induction n as [|n IH]; intros i l s l' s' HI; simpl.
  - destruct (set_entries s p !! i) as [e|] eqn:He; [done|].
    intros [= <- <-]. eauto.
  - destruct (set_entries s p !! i) as [[x|]|] eqn:He.
    + unfold bind. destruct (body x l s) as [l1 s1| |] eqn:Hb; [|done..].
      apply IH. by eapply Hbody.
    + apply IH. by apply Hhole.
    + intros [= <- <-]. eauto.
Qed.

End PartialIterate.

Section DfsComplete.
Context {V : Type}.
Variables (s : State V) (start : ref).
Implicit Types (l : DfsLocals V) (x y u v : ref).

(** When [dfs] returns, every vertex it has marked has all its neighbours
    marked, those that are [null] or [undefined] apart. *)
Lemma dfs_closed fuel : ∀ v l l' s',
  dfs fuel v l s = Ok l' s' →
  s' = s ∧
  (∀ x, Some x ∈ visited l → Some x ∈ visited l') ∧
  (truthy v = true → Some v ∈ visited l') ∧
  (∀ u, Some u ∈ visited l' → Some u ∉ visited l →
     ∀ y, adj s u y → truthy y = true → Some y ∈ visited l').
Proof.
  induction fuel as [|fuel IH]; intros v l l' s'; [done|]. simpl.
  destruct (truthy v) eqn:Htr; simpl.
  2:{ intros [= <- <-]. split_and!; [done..|]. by intros u ? ?. }
  unfold bind, get_node. destruct (deref s v) as [nd|] eqn:Hd; [|done].
  set (l1 := mkDfs (set_add (visited l) v) (result l ++ [value nd])).
  set (E := set_entries s (adjacent nd)).
  unfold forEach. intros Hrun.
  pose proof (set_iterate_partial (adjacent nd)
    (λ neighbor l', if negb (set_has (visited l') neighbor)
                    then dfs fuel neighbor l' else ret l')
    (λ i l2 s2, s2 = s ∧
       (∀ x, Some x ∈ visited l1 → Some x ∈ visited l2) ∧
       (∀ u, Some u ∈ visited l2 → Some u ∉ visited l1 →
          ∀ y, adj s u y → truthy y = true → Some y ∈ visited l2) ∧
       (∀ (j : nat) y, j < i → E !! j = Some (Some y) → truthy y = true →
          Some y ∈ visited l2))) as Hrule.
  cbv beta in Hrule.
  assert (∃ j, (s' = s ∧
       (∀ x, Some x ∈ visited l1 → Some x ∈ visited l') ∧
       (∀ u, Some u ∈ visited l' → Some u ∉ visited l1 →
          ∀ y, adj s u y → truthy y = true → Some y ∈ visited l') ∧
       (∀ (k : nat) y, k < j → E !! k = Some (Some y) → truthy y = true →
          Some y ∈ visited l')) ∧ set_entries s' (adjacent nd) !! j = None)
    as (j & HI & Hj); last first.
  { destruct HI as (-> & Hmono & Hcl & Hdone).
    assert (Hl1 : ∀ x, Some x ∈ visited l1 ↔ x = v ∨ Some x ∈ visited l).
    { intros x. unfold l1. simpl. apply elem_of_set_add. }
    split_and!; [done| | |].
    + intros x Hx. apply Hmono, Hl1. auto.
    + intros _. apply Hmono, Hl1. auto.
    + intros u Hu Hn y Hy Hty. destruct (decide (u = v)) as [->|Hne].
      * unfold adj, neighbors in Hy. rewrite Hd in Hy.
        apply list_elem_of_lookup_1 in Hy as [k Hk].
        apply (Hdone k y); [|done..].
        apply lookup_ge_None_1 in Hj. apply lookup_lt_Some in Hk. lia.
      * apply (Hcl u); [done| |done..]. rewrite Hl1. tauto. }
  eapply Hrule; [| | |exact Hrun].
  - intros i l2 s2 (-> & Hmono & Hcl & Hdone) Hi. split_and!; [done..|].
    intros k y Hk Hy. destruct (decide (k = i)) as [->|]; [|apply (Hdone k); [lia|done]].
    fold E in Hi. congruence.
  - intros i l2 s2 x l3 s3 (-> & Hmono & Hcl & Hdone) Hi. fold E in Hi.
    destruct (set_has (visited l2) x) eqn:Hx; simpl.
    + intros [= <- <-]. split_and!; [done..|].
      intros k y Hk Hy. destruct (decide (k = i)) as [->|]; [|apply (Hdone k); [lia|done]].
      rewrite Hi in Hy. simplify_eq. intros _. by apply set_has_true.
    + intros Hdfs. destruct (IH x l2 l3 s3 Hdfs) as (-> & Hm & Hin & Hnew).
      split_and!; [done|auto| |].
      * intros u Hu3 Hu1 y Hy Hty.
        destruct (decide (Some u ∈ visited l2)) as [Hu2|Hu2]; [|by eapply Hnew].
        apply Hm. by eapply Hcl.
      * intros k y Hk Hy Hty. destruct (decide (k = i)) as [->|].
        -- rewrite Hi in Hy. simplify_eq. by apply Hin.
        -- apply Hm, (Hdone k); [lia|done..].
  - split_and!; [done..| |].
    + intros u Hu Hn. done.
    + intros k y Hk. lia.
Qed.

End DfsComplete.

Section BfsComplete.
Context {V : Type}.
Variables (s : State V) (start : ref).
Implicit Types (l : BfsLocals V) (x y u v : ref).

Lemma elem_of_foldl_set_add (vis : JSSet) (ks : list ref) y :
  Some y ∈ foldl set_add vis ks ↔ Some y ∈ vis ∨ y ∈ ks.
Proof.
  revert vis. induction ks as [|k ks IH]; intros vis; simpl.
  - rewrite elem_of_nil. tauto.
  - rewrite IH, elem_of_set_add, elem_of_cons. tauto.
Qed.

Lemma set_keys_add_prefix (vis : JSSet) k :
  set_keys vis `prefix_of` set_keys (set_add vis k).
Proof.
  destruct (set_has vis k) eqn:Hk.
  - unfold set_add. by rewrite Hk.
  - rewrite set_keys_add_new by done. by apply prefix_app_r.
Qed.

Lemma set_keys_foldl_prefix (vis : JSSet) (ks : list ref) :
  set_keys vis `prefix_of` set_keys (foldl set_add vis ks).
Proof.
  revert vis. induction ks as [|k ks IH]; intros vis; simpl; [done|].
  etrans; [apply set_keys_add_prefix|apply IH].
Qed.

Lemma set_keys_snoc (E : JSSet) (e : option ref) :
  set_keys (E ++ [e]) = set_keys E ++ match e with Some x => [x] | None => [] end.
Proof. unfold set_keys. rewrite omap_app. by destruct e. Qed.

(** One round of the [while] loop, exactly: the keys of the adjacency set
    are marked in iteration order, and those that were not yet marked are
    appended to the queue. *)
Lemma bfs_round_exact (p : positive) l1 l2 s2 :
  forEach p bfs_enqueue l1 s = Ok l2 s2 →
  s2 = s ∧
  bfs_visited l2 = foldl set_add (bfs_visited l1) (set_keys (set_entries s p)) ∧
  queue l2 = queue l1
             ++ drop (length (set_keys (bfs_visited l1))) (set_keys (bfs_visited l2)) ∧
  bfs_result l2 = bfs_result l1.
Proof.
  unfold forEach. intros Hrun. set (E := set_entries s p).
  set (n := length (set_keys (bfs_visited l1))).
  pose proof (set_iterate_partial (V:=V) p bfs_enqueue
    (λ i l' s', s' = s ∧
       bfs_visited l' = foldl set_add (bfs_visited l1) (set_keys (take i E)) ∧
       queue l' = queue l1 ++ drop n (set_keys (bfs_visited l')) ∧
       bfs_result l' = bfs_result l1)) as Hrule.
  cbv beta in Hrule.
  assert (Hn : ∀ ks, n ≤ length (set_keys (foldl set_add (bfs_visited l1) ks))).
  { intros ks. apply prefix_length, set_keys_foldl_prefix. }
  assert (∃ j, (s2 = s ∧
       bfs_visited l2 = foldl set_add (bfs_visited l1) (set_keys (take j E)) ∧
       queue l2 = queue l1 ++ drop n (set_keys (bfs_visited l2)) ∧
       bfs_result l2 = bfs_result l1) ∧ set_entries s2 p !! j = None)
    as (j & (-> & Hvis & Hq & Hres) & Hj); last first.
  { split_and!; [done| |done..]. rewrite Hvis. do 2 f_equal.
    apply take_ge. by apply lookup_ge_None_1. }
  eapply Hrule; [| | |exact Hrun].
  - intros i l' s' (-> & Hvis & Hq & Hres) Hi. fold E in Hi.
    split_and!; [done| |done..].
    rewrite (take_S_r E i None) by done. rewrite set_keys_snoc, app_nil_r. done.
  - intros i l' s' x l3 s3 (-> & Hvis & Hq & Hres) Hi. fold E in Hi.
    rewrite (take_S_r E i (Some x)) by done. rewrite set_keys_snoc, foldl_app. simpl.
    rewrite <- Hvis. unfold bfs_enqueue.
    destruct (set_has (bfs_visited l') x) eqn:Hx; simpl; intros [= <- <-].
    + split_and!; [done| |done..]. unfold set_add. by rewrite Hx.
    + simpl. split_and!; [done..| |done].
      rewrite set_keys_add_new by done. rewrite drop_app_le.
      * by rewrite Hq, (assoc_L (++)).
      * rewrite Hvis. apply Hn.
  - split_and!; [done|done| |done].
    unfold n. by rewrite drop_all, app_nil_r.
Qed.

Lemma bfs_loop_exact fuel : ∀ l r s',
  bfs_loop fuel l s = Ok r s' →
  bfs_inv s start l → bfs_budget s fuel l → bfs_taken_closed s l →
  ∃ vs, NoDup vs ∧ Forall2 (has_value s) vs r ∧ Forall (reachable s start) vs ∧
        set_keys (bfs_visited l) `prefix_of` vs ∧ closed_under_links s vs.
Proof.
  assert (Hend : ∀ l, bfs_inv s start l → bfs_taken_closed s l → queue l = [] →
            ∃ vs, NoDup vs ∧ Forall2 (has_value s) vs (bfs_result l) ∧
                  Forall (reachable s start) vs ∧
                  set_keys (bfs_visited l) `prefix_of` vs ∧ closed_under_links s vs).
  { intros l (taken & Hk & Hnd & Hval & Hre) Hcl Hq.
    exists (set_keys (bfs_visited l)). rewrite Hq, app_nil_r in Hk.
    split_and!; [done|by rewrite Hk|done..|].
    intros u y Hu Hy. apply elem_of_set_keys. apply (Hcl u); [|by rewrite Hq; apply not_elem_of_nil|done].
    by apply elem_of_set_keys. }
  induction fuel as [|fuel IH]; intros l r s' Hrun Hinv Hbud Hcl; simpl in Hrun.
  - destruct (queue l) as [|v rest] eqn:Hq; [|done].
    unfold ret in Hrun. simplify_eq. by apply Hend.
  - destruct (queue l) as [|v rest] eqn:Hq.
    { unfold ret in Hrun. simplify_eq. by apply Hend. }
    assert (Hv : reachable s start v).
    { destruct Hinv as (taken & Hk & _ & _ & Hre).
      rewrite Forall_forall in Hre. apply Hre. rewrite Hk, Hq.
      apply elem_of_app. right. left. }
    unfold bind at 1 in Hrun. unfold get_node in Hrun.
    destruct (deref s v) as [nd|] eqn:Hd; [|done].
    set (l1 := mkBfs rest (bfs_result l ++ [value nd]) (bfs_visited l)) in Hrun.
    assert (H1 : bfs_inv s start l1 ∧ bfs_budget s fuel l1).
    { destruct Hinv as (taken & Hk & Hnd & Hval & Hre). split.
      - exists (taken ++ [v]). unfold l1; simpl. split_and!; [|done| |done].
        + by rewrite Hk, Hq, <- (assoc_L (++)).
        + apply Forall2_app; [done|]. constructor; [|constructor]. by exists nd.
      - unfold bfs_budget in *. rewrite Hq in Hbud. simpl in *. lia. }
    opose proof* (forEach_readonly (adjacent nd) bfs_enqueue s
      (λ l', bfs_inv s start l' ∧ bfs_budget s fuel l') (bad_reference s start) _ l1)
      as H; [|done|].
    { intros l' x HJ Hx. by apply (bfs_enqueue_spec s start fuel v nd). }
    unfold bind in Hrun.
    destruct (forEach _ _ _ _) as [l2 s2| |] eqn:Hround; [|done..].
    destruct H as (-> & Hinv2 & Hbud2).
    destruct (bfs_round_exact _ _ _ _ Hround) as (_ & Hvis & Hq2 & _).
    simpl in Hvis, Hq2.
    assert (Hpre : set_keys (bfs_visited l) `prefix_of` set_keys (bfs_visited l2)).
    { rewrite Hvis. apply set_keys_foldl_prefix. }
    destruct (IH l2 r s' Hrun Hinv2 Hbud2) as (vs & ? & ? & ? & Hp & ?).
    2:{ exists vs. split_and!; [done..| |done]. by etrans. }
    intros u Hu Hnq y Hy.
    rewrite Hq2, not_elem_of_app in Hnq. destruct Hnq as [Hrest Hnew].
    destruct Hpre as [new Hnew_eq].
    rewrite Hnew_eq, drop_app_length in Hnew.
    assert (Hu1 : Some u ∈ bfs_visited l).
    { apply elem_of_set_keys in Hu. rewrite Hnew_eq, elem_of_app in Hu.
      destruct Hu as [Hu|Hu]; [by apply elem_of_set_keys|done]. }
    rewrite Hvis, elem_of_foldl_set_add. destruct (decide (u = v)) as [->|Hne].
    + right. apply elem_of_set_keys. unfold adj, neighbors in Hy. by rewrite Hd in Hy.
    + left. apply (Hcl u); [done| |done]. rewrite Hq, not_elem_of_cons. done.
Qed.

End BfsComplete.

Section TraversalExact.
Context {V : Type}.
Implicit Types (s : State V) (start x y u v : ref) (r : list V).

Lemma depthFirstSearch_exact s start r s' :
  depthFirstSearch start s = Ok r s' →
  ∃ vs, NoDup vs ∧ Forall2 (has_value s) vs r ∧ Forall (reachable s start) vs ∧
        (truthy start = true → ∃ vs', vs = start :: vs') ∧
        (∀ u y, u ∈ vs → adj s u y → truthy y = true → y ∈ vs).
Proof.
  unfold depthFirstSearch, bind. intros Hrun.
  opose proof* (dfs_spec s start (S (size (heap s))) start (mkDfs [] [])) as H.
  - split_and!; simpl; constructor.
  - constructor.
  - done.
  - simpl. rewrite <- size_dom.
    assert (dom (heap s) ∖ visited_addrs [] ⊆ dom (heap s)) as Hs
      by apply subseteq_difference_l, reflexivity.
    apply subseteq_size in Hs. lia.
  - destruct (dfs _ _ _ _) as [l' s1| |] eqn:Hd; [|done..].
    unfold ret in Hrun. simplify_eq.
    destruct H as (_ & (Hnd & Hval & Hre) & _ & Hp).
    destruct (dfs_closed s _ _ _ _ _ Hd) as (_ & _ & _ & Hcl).
    exists (set_keys (visited l')). split_and!; [done..| |].
    + intros Htr. destruct (Hp Htr) as [k Hk]. by exists k.
    + intros u y Hu Hy Hty. apply elem_of_set_keys.
      apply (Hcl u); [by apply elem_of_set_keys|by intros ?%elem_of_nil|done..].
Qed.

Lemma breadthFirstSearch_exact s start r s' :
  breadthFirstSearch start s = Ok r s' →
  ∃ nd vs, deref s start = Some nd ∧
    NoDup vs ∧ Forall2 (has_value s) vs r ∧ Forall (reachable s start) vs ∧
    closed_under_links s vs ∧
    set_keys (set_of_list (start :: set_keys (set_entries s (adjacent nd))))
      `prefix_of` vs.
Proof.
  unfold breadthFirstSearch. set (F := length (all_neighbors s)).
  set (l0 := mkBfs [start] [] (set_add [] start)). intros Hrun.
  assert (Hinv0 : bfs_inv s start l0).
  { exists []. simpl. split_and!; [done|apply NoDup_singleton|done|].
    repeat constructor. }
  assert (Hbud0 : bfs_budget s (S F) l0).
  { unfold bfs_budget. simpl. unfold F. lia. }
  simpl in Hrun. unfold bind at 1 in Hrun. unfold get_node in Hrun.
  destruct (deref s start) as [nd|] eqn:Hd; [|done].
  set (l1 := mkBfs [] ([] ++ [value nd]) (set_add [] start)) in Hrun.
  assert (H1 : bfs_inv s start l1 ∧ bfs_budget s F l1).
  { split.
    - exists [start]. unfold l1; simpl. split_and!; [done|apply NoDup_singleton| |].
      + constructor; [|constructor]. by exists nd.
      + repeat constructor.
    - unfold bfs_budget. simpl. unfold F. lia. }
  opose proof* (forEach_readonly (adjacent nd) bfs_enqueue s
    (λ l', bfs_inv s start l' ∧ bfs_budget s F l') (bad_reference s start) _ l1)
    as H; [|done|].
  { intros l' x HJ Hx. apply (bfs_enqueue_spec s start F start nd); [constructor|done..]. }
  unfold bind in Hrun.
  destruct (forEach _ _ _ _) as [l2 s2| |] eqn:Hround; [|done..].
  destruct H as (-> & Hinv2 & Hbud2).
  destruct (bfs_round_exact s _ _ _ _ Hround) as (_ & Hvis & Hq2 & _).
  simpl in Hvis, Hq2.
  destruct (bfs_loop_exact s start F l2 r s' Hrun Hinv2 Hbud2) as (vs & ? & ? & ? & Hp & ?).
  2:{ exists nd, vs. split_and!; [done..|]. by rewrite Hvis in Hp. }
  intros u Hu Hnq y Hy.
  pose proof (set_keys_foldl_prefix (set_add [] start)
    (set_keys (set_entries s (adjacent nd)))) as [new Hnew].
  rewrite <- Hvis in Hnew.
  apply elem_of_set_keys in Hu. rewrite Hq2, Hnew in Hnq. rewrite Hnew in Hu.
  simpl in Hnq. change (drop 1 (start :: new)) with new in Hnq.
  apply elem_of_cons in Hu as [->|Hu]; [|done].
  rewrite Hvis. apply elem_of_foldl_set_add. right. apply elem_of_set_keys.
  unfold adj, neighbors in Hy. by rewrite Hd in Hy.
Qed.

End TraversalExact.

Section TraversalErrors.
Context {V : Type}.
Implicit Types (s : State V) (start x y u v : ref) (r : list V).

Lemma reachable_via s v x y : adj s v x → reachable s x y → reachable s v y.
Proof.
  intros Hvx. induction 1 as [|u y _ IH Huy].
  - eapply reach_step; [apply reach_start|done].
  - by eapply reach_step.
Qed.

Lemma adj_truthy s u y : adj s u y → truthy u = true.
Proof.
  unfold adj, neighbors. destruct u; simpl; [by intros ?%elem_of_nil..|done].
Qed.

Lemma is_node_truthy s u : is_node s u → truthy u = true.
Proof. destruct u; simpl; by intros [? ?]. Qed.

(** An iteration whose body leaves the store alone throws only where its body
    throws. *)
Lemma set_iterate_error_readonly {L} (p : positive) (body : ref → L → M V L)
    s (T : Prop) :
  (∀ x l l' s1, body x l s = Ok l' s1 → s1 = s) →
  (∀ x l s1, Some x ∈ set_entries s p → body x l s = TypeError s1 → T) →
  ∀ n i l s', set_iterate n p i body l s = TypeError s' → T.
Proof.
  intros Hro Hthrow. induction n as [|n IH]; intros i l s'; simpl.
  - by destruct (set_entries s p !! i).
  - destruct (set_entries s p !! i) as [[x|]|] eqn:He; [| |done].
    + unfold bind. destruct (body x l s) as [l1 s1| |] eqn:Hb; [| |done].
      * apply Hro in Hb as ->. apply IH.
      * intros _. eapply Hthrow; [|done]. by eapply list_elem_of_lookup_2.
    + apply IH.
Qed.

(** [dfs] throws only at a reference that is neither [null] nor [undefined]
    and is not a [Node]. *)
Lemma dfs_error s fuel : ∀ v l s',
  dfs fuel v l s = TypeError s' →
  ∃ x, reachable s v x ∧ truthy x = true ∧ deref s x = None.
Proof.
  induction fuel as [|fuel IH]; intros v l s'; [done|]. simpl.
  destruct (truthy v) eqn:Htr; simpl; [|done].
  unfold bind, get_node. destruct (deref s v) as [nd|] eqn:Hd.
  2:{ intros _. exists v. split_and!; [constructor|done..]. }
  unfold forEach. apply set_iterate_error_readonly.
  - intros x l0 l' s1. destruct (negb _); [|by intros [= _ <-]].
    intros Hrun. by destruct (dfs_closed s _ _ _ _ _ Hrun) as (-> & _).
  - intros x l0 s1 Hx. destruct (negb _); [|done].
    intros (y & Hy & ? & ?)%IH. exists y. split_and!; [|done..].
    eapply reachable_via; [|done]. unfold adj, neighbors. by rewrite Hd.
Qed.

Lemma closed_reachable s start (vs : list ref) :
  start ∈ vs → closed_under_links s vs →
  ∀ x, reachable s start x → x ∈ vs.
Proof. intros Hs Hcl x. induction 1; [done|]. by eapply Hcl. Qed.

Lemma closed_truthy_reachable s start (vs : list ref) :
  start ∈ vs → (∀ u y, u ∈ vs → adj s u y → truthy y = true → y ∈ vs) →
  ∀ x, reachable s start x → truthy x = true → x ∈ vs.
Proof.
  intros Hs Hcl x. induction 1 as [|u x Hu IH Hux]; [done|].
  intros. eapply Hcl; [|done..]. apply IH. by eapply adj_truthy.
Qed.

Lemma has_value_values s vs r :
  Forall2 (has_value s) vs r → r = omap (λ x, value <$> deref s x) vs.
Proof.
  induction 1 as [|x val vs r (nd & Hd & Hv) _ IH]; [done|].
  simpl. rewrite Hd. simpl. by rewrite Hv, IH.
Qed.

Lemma has_value_is_node s vs r x :
  Forall2 (has_value s) vs r → x ∈ vs → is_node s x.
Proof.
  intros H Hx. apply (Forall2_Forall_l _ (λ x, is_node s x)) in H.
  - by eapply Forall_forall in H.
  - apply Forall_true. intros val y (nd & Hd & _). by exists nd.
Qed.

(** Iterating over a Set that holds no key runs the body not once. *)
Lemma forEach_no_keys {L} (p : positive) (body : ref → L → M V L) (l : L) s :
  set_keys (set_entries s p) = [] → forEach p body l s = Ok l s.
Proof.
  intros Hk.
  opose proof* (forEach_readonly p body s (λ l', l' = l) False) as H; [|done|].
  - intros l' x _ Hx. apply elem_of_set_keys in Hx. rewrite Hk in Hx.
    by apply elem_of_nil in Hx.
  - destruct (forEach p body l s) as [l' s'| |]; [|by destruct H..].
    by destruct H as [-> ->].
Qed.

End TraversalErrors.

Section AnyGraph.
Context {V : Type}.
Implicit Types (s : State V) (g : Graph) (x : ref).

Lemma set_iterate_with_this {L} g (p : positive) (body : ref → L → M V L) :
  (∀ x l s, body x l (with_this g s) = outcome_with_this g (body x l s)) →
  ∀ n i l s, set_iterate n p i body l (with_this g s)
             = outcome_with_this g (set_iterate n p i body l s).
Proof.
  intros Hbody. induction n as [|n IH]; intros i l s; simpl.
  - unfold set_entries; simpl. by destruct (default [] (sets s !! p) !! i).
  - unfold set_entries; simpl.
    destruct (default [] (sets s !! p) !! i) as [[x|]|]; [| |done].
    + unfold bind. rewrite Hbody. destruct (body x l s) as [l' s'| |]; [|done..].
      apply IH.
    + apply IH.
Qed.

Lemma forEach_with_this {L} g (p : positive) (body : ref → L → M V L) l s :
  (∀ x l s, body x l (with_this g s) = outcome_with_this g (body x l s)) →
  forEach p body l (with_this g s) = outcome_with_this g (forEach p body l s).
Proof. intros. unfold forEach. by apply set_iterate_with_this. Qed.

Lemma dfs_with_this g fuel : ∀ v (l : DfsLocals V) s,
  dfs fuel v l (with_this g s) = outcome_with_this g (dfs fuel v l s).
Proof.
  induction fuel as [|fuel IH]; intros v l s; [done|]. simpl.
  destruct (negb (truthy v)); [done|].
  unfold bind, get_node. change (deref (with_this g s) v) with (deref s v).
  destruct (deref s v) as [nd|]; [|done]. apply forEach_with_this.
  intros x l' s'. by destruct (negb _).
Qed.

Lemma bfs_loop_with_this g fuel : ∀ (l : BfsLocals V) s,
  bfs_loop fuel l (with_this g s) = outcome_with_this g (bfs_loop fuel l s).
Proof.
  induction fuel as [|fuel IH]; intros l s; simpl.
  - by destruct (queue l).
  - destruct (queue l) as [|v rest]; [done|].
    unfold bind at 1 3, get_node. change (deref (with_this g s) v) with (deref s v).
    destruct (deref s v) as [nd|]; [|done].
    unfold bind. rewrite forEach_with_this.
    + destruct (forEach _ _ _ s) as [l' s'| |]; [|done..]. apply IH.
    + intros x l' s'. unfold bfs_enqueue. by destruct (negb _).
Qed.

End AnyGraph.

(** ** The graph invariant *)

Section WellFormed.
Context {V : Type}.
Implicit Types (s : State V) (x y u v w : ref) (p q : positive).

Lemma unshared_heap_this s s' :
  this s' = this s → heap s' = heap s → unshared s → unshared s'.
Proof.
  intros Ht Hh [U1 U2]. split.
  - intros u v nu nv. rewrite !(deref_heap s s') by done. apply U1.
  - intros u nu. rewrite (deref_heap s s'), Ht by done. apply U2.
Qed.

Lemma is_node_heap s s' u : heap s' = heap s → is_node s' u ↔ is_node s u.
Proof. intros Hh. unfold is_node. by rewrite (deref_heap s s'). Qed.

(** A write to [nodes] changes no link when [nodes] is no adjacency set. *)
Lemma adj_nodes_write s s' :
  unshared s → heap s' = heap s →
  (∀ q, q ≠ nodes (this s) → set_entries s' q = set_entries s q) →
  ∀ u y, adj s' u y ↔ adj s u y.
Proof.
  intros [_ U2] Hh Hq u y. unfold adj, neighbors. rewrite (deref_heap s s') by done.
  destruct (deref s u) as [nd|] eqn:Hd; [|done]. rewrite Hq; [done|]. by eapply U2.
Qed.

Lemma well_formed_added s s' (vs : list ref) :
  well_formed s → Forall (λ v, member s v ∨ isolated s v) vs →
  this s' = this s → heap s' = heap s →
  (∀ q, q ≠ nodes (this s) → set_entries s' q = set_entries s q) →
  (∀ x, member s' x ↔ member s x ∨ x ∈ vs) →
  well_formed s'.
Proof.
  intros (Hun & Hty & Hsym & Hcl) Hvs Ht Hh Hq Hmem.
  pose proof (adj_nodes_write s s' Hun Hh Hq) as Hadj.
  rewrite Forall_forall in Hvs.
  assert (Hcase : ∀ x, member s' x → member s x ∨ isolated s x).
  { intros x [?|Hx]%Hmem; [by left|by apply Hvs]. }
  split_and!.
  - by apply (unshared_heap_this s).
  - intros x Hx. apply (is_node_heap s s'); [done|].
    destruct (Hcase x Hx) as [?|(? & _)]; [by apply Hty|done].
  - intros u w Mu Mw Nu Nw. rewrite !Hadj.
    destruct (Hcase u Mu) as [Mu0|(_ & Hout & Hin)].
    2:{ split; intros H; [by apply Hout in H|by apply Hin in H]. }
    destruct (Hcase w Mw) as [Mw0|(_ & Hout & Hin)].
    2:{ split; intros H; [by apply Hin in H|by apply Hout in H]. }
    apply Hsym; [done..| |]; by apply (is_node_heap s s').
  - intros u x Mu Hux. apply Hadj in Hux.
    destruct (Hcase u Mu) as [Mu0|(_ & Hout & _)]; [|by apply Hout in Hux].
    apply Hmem. left. by eapply Hcl.
Qed.

Lemma addVertex_well_formed s v :
  well_formed s → member s v ∨ isolated s v →
  ∃ s', addVertex v s = Ok tt s' ∧ well_formed s'.
Proof.
  intros Hwf Hv. destruct (addVertex_spec v s) as (s' & Hrun & Ht & Hh & Hq & Hmem).
  exists s'. split; [done|].
  apply (well_formed_added s s' [v]); [done|by constructor|done..|].
  intros x. rewrite Hmem, list_elem_of_singleton. done.
Qed.

Lemma addVertices_well_formed s vs :
  well_formed s → Forall (λ v, member s v ∨ isolated s v) vs →
  ∃ s', addVertices vs s = Ok tt s' ∧ well_formed s'.
Proof.
  intros Hwf Hvs. destruct (addVertices_spec vs s) as (s' & Hrun & Ht & Hh & Hq & Hmem).
  exists s'. split; [done|]. by apply (well_formed_added s s' vs).
Qed.

Lemma members_typed_same_objects s s' :
  same_objects s s' → members_typed s → members_typed s'.
Proof.
  intros O Hty x Hx. apply (same_objects_is_node _ _ _ O), Hty.
  by apply (member_same_objects _ _ _ O).
Qed.

Lemma addEdge_well_formed s v x :
  well_formed s → ∃ s', addEdge v x s = Ok tt s' ∧ well_formed s'.
Proof.
  intros (Hun & Hty & Hsym & Hcl).
  destruct (addEdge_returns v x s Hty) as [s' Hrun]. exists s'. split; [done|].
  pose proof (addEdge_spec v x s Hun) as H. rewrite Hrun in H.
  destruct H as (O & [[_ ->]|(Mv & Mx & _ & _ & E)]); [done|].
  split_and!.
  - by apply (unshared_same_objects s).
  - by apply (members_typed_same_objects s).
  - by eapply addEdge_symmetric.
  - intros u y Mu Huy. apply (member_same_objects _ _ _ O) in Mu.
    apply (member_same_objects _ _ _ O).
    apply E in Huy as [Huy|[[_ ->]|[_ ->]]]; [by eapply Hcl|done..].
Qed.

Lemma removeEdge_well_formed s v x :
  well_formed s → ∃ s', removeEdge v x s = Ok tt s' ∧ well_formed s'.
Proof.
  intros (Hun & Hty & Hsym & Hcl).
  destruct (removeEdge_returns v x s Hty) as [s' Hrun]. exists s'. split; [done|].
  pose proof (removeEdge_spec v x s Hun) as H. rewrite Hrun in H.
  destruct H as (O & _ & [[_ ->]|(Mv & Mx & _ & _ & E)]); [done|].
  split_and!.
  - by apply (unshared_same_objects s).
  - by apply (members_typed_same_objects s).
  - by eapply removeEdge_symmetric.
  - intros u y Mu Huy. apply (member_same_objects _ _ _ O) in Mu.
    apply (member_same_objects _ _ _ O).
    apply E in Huy as [Huy _]. by eapply Hcl.
Qed.

(** What [removeVertex] makes of a well-formed graph. *)
Lemma removeVertex_well_formed_spec s v :
  well_formed s → member s v →
  ∃ s', removeVertex v s = Ok tt s' ∧ this s' = this s ∧ heap s' = heap s ∧
        (∀ x, member s' x ↔ x ≠ v ∧ member s x) ∧
        (∀ u y, member s u → adj s' u y ↔ adj s u y ∧ u ≠ v ∧ y ≠ v) ∧
        (∀ u y, adj s' u y → adj s u y) ∧
        well_formed s'.
Proof.
  intros (Hun & Hty & Hsym & Hcl) Mv.
  destruct (removeVertex_returns v s Hty) as [s' Hrun]. exists s'. split; [done|].
  pose proof (removeVertex_spec v s Hun Mv) as H. rewrite Hrun in H.
  destruct H as (Nv & Ht & Hh & Hmem & Mono & Rem & All).
  assert (Hlinks : ∀ u y, member s u → adj s' u y ↔ adj s u y ∧ u ≠ v ∧ y ≠ v).
  { intros u y Mu. split.
    - intros Huy. pose proof (Mono u y Huy) as Huy0. split_and!; [done| |].
      + intros ->. destruct (All y Huy0) as [Hn _]; [by eapply Hcl|]. by apply Hn.
      + intros ->. apply (Hsym u v Mu Mv (Hty u Mu) Nv) in Huy0.
        destruct (All u Huy0 Mu) as [_ Hn]. by apply Hn.
    - intros (Huy & Hu & Hy). destruct (decide (adj s' u y)) as [|Hn]; [done|].
      destruct (Rem u y Huy Hn) as (z & _ & _ & [[-> _]|[_ ->]]); done. }
  split_and!; [done..|].
  split_and!.
  - by apply (unshared_heap_this s).
  - intros x [_ Mx]%Hmem. apply (is_node_heap s s'); [done|]. by apply Hty.
  - intros u w [Hu Mu]%Hmem [Hw Mw]%Hmem Nu Nw.
    rewrite !Hlinks by done.
    apply (is_node_heap s s') in Nu, Nw; [|done..].
    rewrite (Hsym u w Mu Mw Nu Nw). tauto.
  - intros u y [Hu Mu]%Hmem Huy. apply Hlinks in Huy as (Huy & _ & Hy); [|done].
    apply Hmem. split; [done|]. by eapply Hcl.
Qed.

(** In a well-formed graph whatever a member reaches is a member. *)
Lemma closed_graph_reachable s u x :
  closed_graph s → member s u → reachable s u x → member s x.
Proof. intros Hcl Mu. induction 1; [done|]. by eapply Hcl. Qed.

End WellFormed.

(** ** Edges have no direction *)

Section Undirected.
Context {V : Type}.
Implicit Types (s : State V) (x y u v w : ref) (p q : positive).

(** Two writes to distinct [Set]s, made with two functions that do not look
    at the other set, commute. *)
Lemma set_writes_commute s p q (f g : JSSet → JSSet) :
  p ≠ q →
  mkState (heap s)
    (<[q := g (set_entries (mkState (heap s) (<[p := f (set_entries s p)]> (sets s)) (this s)) q)]>
       (<[p := f (set_entries s p)]> (sets s))) (this s)
  = mkState (heap s)
    (<[p := f (set_entries (mkState (heap s) (<[q := g (set_entries s q)]> (sets s)) (this s)) p)]>
       (<[q := g (set_entries s q)]> (sets s))) (this s).
Proof.
  intros Hne. rewrite !set_entries_insert.
  rewrite (decide_False (P := q = p)) by done.
  rewrite (decide_False (P := p = q)) by done.
  f_equal. by apply insert_insert_ne.
Qed.

Lemma addEdge_flip s v x s' :
  unshared s → addEdge v x s = Ok tt s' → addEdge x v s = Ok tt s'.
Proof.
  intros [U1 _] Hrun.
  destruct (decide (member s v ∧ member s x)) as [[Mv Mx]|Hn].
  2:{ apply not_both_members in Hn.
      rewrite addEdge_nonmember in Hrun by done. injection Hrun as <-.
      apply addEdge_nonmember. tauto. }
  destruct (addEdge_members_run s v x s' Mv Mx Hrun) as (nv & nx & s1 & Hv & Hx & _).
  rewrite (addEdge_members_unfold s v x nv nx) in Hrun by done.
  rewrite (addEdge_members_unfold s x v nx nv) by done.
  destruct (decide (v = x)) as [->|Hne]; [by simplify_eq|].
  assert (adjacent nv ≠ adjacent nx) as Hp by (intros Heq; by apply Hne, (U1 v x nv nx)).
  rewrite <- Hrun. unfold bind, Set_add. simpl. f_equal.
  symmetry. apply (set_writes_commute s (adjacent nv) (adjacent nx)
    (λ l, set_add l x) (λ l, set_add l v) Hp).
Qed.

Lemma removeEdge_flip s v x s' :
  unshared s → removeEdge v x s = Ok tt s' → removeEdge x v s = Ok tt s'.
Proof.
  intros [U1 _] Hrun.
  destruct (decide (member s v ∧ member s x)) as [[Mv Mx]|Hn].
  2:{ apply not_both_members in Hn.
      rewrite removeEdge_nonmember in Hrun by done. injection Hrun as <-.
      apply removeEdge_nonmember. tauto. }
  destruct (removeEdge_members_run s v x s' Mv Mx Hrun) as (nv & nx & s1 & Hv & Hx & _).
  rewrite (removeEdge_members_unfold s v x nv nx) in Hrun by done.
  rewrite (removeEdge_members_unfold s x v nx nv) by done.
  destruct (decide (v = x)) as [->|Hne]; [by simplify_eq|].
  assert (adjacent nv ≠ adjacent nx) as Hp by (intros Heq; by apply Hne, (U1 v x nv nx)).
  rewrite <- Hrun. unfold bind, Set_delete. simpl. f_equal.
  symmetry. apply (set_writes_commute s (adjacent nv) (adjacent nx)
    (λ l, set_delete l x) (λ l, set_delete l v) Hp).
Qed.

(** [addVertices] of vertices that are all in the graph changes nothing. *)
Lemma addVertices_members_noop s vs :
  Forall (member s) vs → addVertices vs s = Ok tt s.
Proof.
  induction 1 as [|v vs Hv _ IH]; [done|]. simpl.
  unfold bind at 1 2. unfold this_nodes. by rewrite Set_add_present.
Qed.

(** However [removeVertex] ends, [this] is the graph it was called on; when
    it returns, its argument is not in [nodes]. *)
Lemma removeVertex_not_member s v s' :
  removeVertex v s = Ok tt s' → ¬ member s' v.
Proof.
  destruct (decide (member s v)) as [Mv|Mv].
  2:{ rewrite removeVertex_nonmember by done. by intros [= <-]. }
  unfold removeVertex. unfold bind at 1 2. unfold this_nodes, Set_has.
  rewrite (proj2 (set_has_true _ _) Mv). simpl.
  unfold bind at 1. unfold get_node. destruct (deref s v) as [nd|]; [|done].
  unfold bind at 1. pose proof (removeVertex_loop_step s v (adjacent nd)) as H.
  destruct (forEach _ _ _ _) as [[] s1|s1|]; [|done..].
  destruct H as (Ht & _). unfold Set_delete. intros [= <-].
  unfold member. simpl. rewrite set_entries_insert, Ht.
  rewrite decide_True by done. rewrite elem_of_set_delete. tauto.
Qed.

End Undirected.

(** ** The constructors *)

Section Constructors.
Context {V : Type}.
Implicit Types (s : State V) (x y u v w : ref) (p q : positive).

Lemma fresh_set_entries s q :
  set_entries (mkState (heap s) (<[fresh (dom (sets s)) := []]> (sets s)) (this s)) q
  = set_entries s q.
Proof.
  rewrite set_entries_insert. case_decide as Hq; [|done]. subst q.
  unfold set_entries. by rewrite (not_elem_of_dom_1 _ _ (is_fresh (dom (sets s)))).
Qed.

Lemma fresh_not_allocated s p : is_Some (sets s !! p) → p ≠ fresh (dom (sets s)).
Proof.
  intros [e He] ->. by rewrite (not_elem_of_dom_1 _ _ (is_fresh (dom (sets s)))) in He.
Qed.

Lemma fresh_deref s : deref s (Obj (fresh (dom (heap s)))) = None.
Proof. simpl. apply not_elem_of_dom_1, is_fresh. Qed.

Lemma unshared_own_sets s : unshared s → own_sets s.
Proof. by intros [U1 _]. Qed.

End Constructors.

(** ** Further properties of the constructors and of the mutating methods *)

Section MutationProperties.
Context {V : Type}.
Implicit Types (s : State V) (x y u v w : ref) (p q : positive) (val : V).


(** X2: [new Node(value, n.adjacent)], given the adjacency [Set] of a
    [Node] [n], returns a new [Node] that shares the set: the two have the
    same neighbours, in the state returned and in every state with the same
    objects, and the sets are no longer unshared. *)
Theorem X2_Node_given_adjacent_shared val s x nd :
  deref s x = Some nd →
  ∃ a s', Node_new val (Some (adjacent nd)) s = Ok (Obj a) s' ∧
    Obj a ≠ x ∧
    deref s' (Obj a) = Some (mkNode val (adjacent nd)) ∧
    deref s' x = Some nd ∧
    (∀ s'', heap s'' = heap s' → neighbors s'' (Obj a) = neighbors s'' x) ∧
    ¬ unshared s'.
Proof.
  intros Hd. unfold Node_new, bind, ret. simpl.
  set (a := fresh (dom (heap s))). set (s' := mkState _ _ _). exists a, s'.
  assert (Hne : Obj a ≠ x).
  { intros <-. unfold a in Hd. by rewrite fresh_deref in Hd. }
  assert (Hnew : deref s' (Obj a) = Some (mkNode val (adjacent nd))).
  { simpl. by rewrite lookup_insert_eq. }
  assert (Hold : deref s' x = Some nd).
  { destruct x as [| |b]; [done..|]. simpl. rewrite lookup_insert_ne; [done|congruence]. }
  split_and!; [done..| |].
  - intros s'' Hh. unfold neighbors.
    by rewrite !(deref_heap s' s'') by done; rewrite Hnew, Hold.
  - intros [U1 _]. apply Hne. by apply (U1 (Obj a) x _ _ Hnew Hold).
Qed.

(** X3: [new Graph()] leaves every object and the entries of every [Set]
    as they are, and the new graph has no vertex.  In a store whose [Node]s
    have allocated adjacency sets of their own the new graph is well formed. *)
Theorem X3_Graph_constructor s :
  own_sets s → adjacents_allocated s →
  ∃ s', Graph_new s = Ok tt s' ∧
    heap s' = heap s ∧
    (∀ q, set_entries s' q = set_entries s q) ∧
    (∀ x, ¬ member s' x) ∧
    well_formed s' ∧ sets_allocated s'.
Proof.
  intros Hown Aa. unfold Graph_new, bind, Set_new. simpl.
  set (p := fresh (dom (sets s))). set (s' := mkState _ _ _). exists s'.
  assert (Hent : ∀ q, set_entries s' q = set_entries s q).
  { intros q. apply (fresh_set_entries s q). }
  assert (Hmem : ∀ x, ¬ member s' x).
  { intros x. unfold member. rewrite Hent. unfold s', p, set_entries. simpl.
    rewrite (not_elem_of_dom_1 _ _ (is_fresh (dom (sets s)))). apply not_elem_of_nil. }
  split_and!; [done..| |].
  - split_and!.
    + split; [exact Hown|]. intros u nu Hu. simpl.
      by eapply fresh_not_allocated, Aa.
    + intros x Hx. by apply Hmem in Hx.
    + intros u v Hu. by apply Hmem in Hu.
    + intros u x Hu. by apply Hmem in Hu.
  - split.
    + simpl. apply lookup_insert_is_Some'. by left.
    + intros u nu Hu. simpl. apply lookup_insert_is_Some'. right. by eapply Aa.
Qed.

(** X4: [addVertex(v)] always returns; afterwards [v] is in [nodes], the
    other vertices are in [nodes] exactly when they were, and no object has
    changed.  A second [addVertex(v)] changes nothing. *)
Theorem X4_addVertex_idempotent s v :
  ∃ s', addVertex v s = Ok tt s' ∧
    member s' v ∧
    (∀ x, x ≠ v → member s' x ↔ member s x) ∧
    heap s' = heap s ∧ this s' = this s ∧
    addVertex v s' = Ok tt s'.
Proof.
  destruct (addVertex_spec v s) as (s' & Hrun & Ht & Hh & _ & Hmem).
  assert (Hv : member s' v) by (apply Hmem; by right).
  exists s'. split_and!; [done..| |done|done|by apply addVertex_member_noop].
  intros x Hne. rewrite Hmem. tauto.
Qed.

(** X5: [addVertices(array)] always returns; afterwards the vertices in
    [nodes] are those that were there and the elements of the array,
    whatever their order and however often they occur; no object has
    changed, and no link when [nodes] is not the adjacency set of a [Node].
    The same call once more changes nothing. *)
Theorem X5_addVertices_members s vs :
  ∃ s', addVertices vs s = Ok tt s' ∧
    (∀ x, member s' x ↔ member s x ∨ x ∈ vs) ∧
    heap s' = heap s ∧ this s' = this s ∧
    (unshared s → ∀ u y, adj s' u y ↔ adj s u y) ∧
    addVertices vs s' = Ok tt s'.
Proof.
  destruct (addVertices_spec vs s) as (s' & Hrun & Ht & Hh & Hq & Hmem).
  exists s'. split_and!; [done..| |].
  - intros Hun. by apply adj_nodes_write.
  - apply addVertices_members_noop, Forall_forall. intros x Hx. apply Hmem. by right.
Qed.

(** X6: when [addEdge(v1, v2)] has returned, the same call once more
    returns and changes nothing, whether or not sets are shared. *)
Theorem X6_addEdge_idempotent s v x s1 :
  addEdge v x s = Ok tt s1 → addEdge v x s1 = Ok tt s1.
Proof.
  intros Hrun. destruct (decide (member s v ∧ member s x)) as [[Mv Mx]|Hn].
  2:{ apply not_both_members in Hn. rewrite addEdge_nonmember in Hrun by done.
      simplify_eq. by apply addEdge_nonmember. }
  destruct (addEdge_members_run s v x s1 Mv Mx Hrun)
    as (nv & nx & s' & Hv & Hx & Hs' & Hs1).
  destruct (Set_add_state s (adjacent nv) x) as (s0 & Hs0 & Ht0 & Hh0 & _ & E0).
  rewrite Hs' in Hs0. simplify_eq.
  destruct (Set_add_state s0 (adjacent nx) v) as (s2 & Hs2 & Ht2 & Hh2 & _ & E2).
  rewrite Hs1 in Hs2. simplify_eq.
  destruct (Set_add_grows _ _ _ _ Hs') as [Hin0 G0].
  destruct (Set_add_grows _ _ _ _ Hs1) as [Hxv G2].
  assert (Hgrow : ∀ q y, Some y ∈ set_entries s q → Some y ∈ set_entries s2 q)
    by auto.
  assert (Hvx : Some x ∈ set_entries s2 (adjacent nv)) by auto.
  rewrite (addEdge_members_unfold s2 v x nv nx).
  - unfold bind. rewrite Set_add_present by done. by apply Set_add_present.
  - unfold member. rewrite Ht2, Ht0. by apply Hgrow.
  - unfold member. rewrite Ht2, Ht0. by apply Hgrow.
  - by rewrite (deref_heap s s2) by congruence.
  - by rewrite (deref_heap s s2) by congruence.
Qed.

(** X7: when [removeEdge(v1, v2)] has returned, the same call once more
    returns and changes nothing, whether or not sets are shared. *)
Theorem X7_removeEdge_idempotent s v x s1 :
  removeEdge v x s = Ok tt s1 → removeEdge v x s1 = Ok tt s1.
Proof.
  intros Hrun. destruct (decide (member s v ∧ member s x)) as [[Mv Mx]|Hn].
  2:{ apply not_both_members in Hn. rewrite removeEdge_nonmember in Hrun by done.
      simplify_eq. by apply removeEdge_nonmember. }
  destruct (removeEdge_members_run s v x s1 Mv Mx Hrun)
    as (nv & nx & s' & Hv & Hx & Hs' & Hs1).
  destruct (Set_delete_state s (adjacent nv) x)
    as (s0 & Hs0 & Ht0 & Hh0 & P0 & K0 & E0).
  rewrite Hs' in Hs0. simplify_eq.
  destruct (Set_delete_state s0 (adjacent nx) v)
    as (s2 & Hs2 & Ht2 & Hh2 & P2 & K2 & E2).
  rewrite Hs1 in Hs2. simplify_eq.
  destruct (decide (member s2 v ∧ member s2 x)) as [[Mv2 Mx2]|Hn];
    [|by apply removeEdge_nonmember, not_both_members].
  destruct (Set_delete_shrinks _ _ _ _ Hs') as [Hout0 S0].
  destruct (Set_delete_shrinks _ _ _ _ Hs1) as [Hxv S2].
  assert (Hvx : Some x ∉ set_entries s2 (adjacent nv)) by auto.
  rewrite (removeEdge_members_unfold s2 v x nv nx); [|done..| |].
  - unfold bind. rewrite Set_delete_absent by auto. by apply Set_delete_absent.
  - by rewrite (deref_heap s s2) by congruence.
  - by rewrite (deref_heap s s2) by congruence.
Qed.

(** X8: the order of the arguments of [addEdge] and of [removeEdge] does
    not matter when every [Node] has an adjacency set of its own: a call
    that returns leaves the very state that the call with the arguments
    exchanged leaves. *)
Theorem X8_edges_undirected s v x :
  unshared s →
  (∀ s', addEdge v x s = Ok tt s' ↔ addEdge x v s = Ok tt s') ∧
  (∀ s', removeEdge v x s = Ok tt s' ↔ removeEdge x v s = Ok tt s').
Proof.
  intros Hun. split; intros s'; split;
    (by apply addEdge_flip) || (by apply removeEdge_flip).
Qed.

(** X9: for two vertices of the graph that are [Node]s with adjacency sets
    of their own, [addEdge(v1, v2)] and then [removeEdge(v1, v2)] both
    return; afterwards the two are not linked, in either direction, every
    other link is there exactly when it was before the two calls, and the
    same vertices are in [nodes]. *)
Theorem X9_addEdge_removeEdge s v x :
  unshared s → member s v → member s x → is_node s v → is_node s x →
  ∃ s1 s2, addEdge v x s = Ok tt s1 ∧ removeEdge v x s1 = Ok tt s2 ∧
    (∀ u, member s2 u ↔ member s u) ∧
    (∀ u y, adj s2 u y ↔ adj s u y ∧ ¬ (u = v ∧ y = x) ∧ ¬ (u = x ∧ y = v)).
Proof.
  intros Hun Mv Mx Nv Nx. pose proof (addEdge_spec v x s Hun) as H1.
  destruct (addEdge v x s) as [[] s1|s1|]; [| |done].
  2:{ destruct H1 as (_ & _ & _ & Hn). by destruct Hn. }
  destruct H1 as (O1 & [[Hn _]|(_ & _ & _ & _ & E1)]); [by destruct Hn|].
  pose proof (removeEdge_spec v x s1 (unshared_same_objects _ _ O1 Hun)) as H2.
  destruct (removeEdge v x s1) as [[] s2|s2|] eqn:Hrun2; [| |done].
  2:{ destruct H2 as (_ & _ & _ & Hn). destruct Hn.
      split; by apply (same_objects_is_node _ _ _ O1). }
  destruct H2 as (O2 & _ & [[Hn _]|(_ & _ & _ & _ & E2)]).
  { destruct Hn. split; by apply (member_same_objects _ _ _ O1). }
  exists s1, s2. split_and!; [done..| |].
  - intros u. rewrite (member_same_objects _ _ u O2).
    apply (member_same_objects _ _ u O1).
  - intros u y. rewrite E2, E1. tauto.
Qed.

(** X10: when [removeVertex(v)] has returned, [v] is not in [nodes] and the
    same call once more returns and changes nothing, whether or not sets are
    shared. *)
Theorem X10_removeVertex_idempotent s v s' :
  removeVertex v s = Ok tt s' →
  ¬ member s' v ∧ removeVertex v s' = Ok tt s'.
Proof.
  intros Hrun. pose proof (removeVertex_not_member s v s' Hrun) as Hv.
  split; [done|]. by apply removeVertex_nonmember.
Qed.

(** X11: for a vertex [v] of a well-formed graph, [removeVertex(v)]
    returns; [nodes] loses [v] and nothing else; a link from a vertex of the
    graph is there afterwards exactly when it was there before and neither
    end is [v], so that [v] is left without neighbours; and no remaining
    vertex reaches [v]. *)
Theorem X11_removeVertex_exact s v :
  well_formed s → member s v →
  ∃ s', removeVertex v s = Ok tt s' ∧
    (∀ x, member s' x ↔ x ≠ v ∧ member s x) ∧
    (∀ u y, member s u → adj s' u y ↔ adj s u y ∧ u ≠ v ∧ y ≠ v) ∧
    (∀ y, ¬ adj s' v y) ∧
    (∀ u, member s' u → ¬ reachable s' u v).
Proof.
  intros Hwf Mv.
  destruct (removeVertex_well_formed_spec s v Hwf Mv)
    as (s' & Hrun & _ & _ & Hmem & Hlinks & _ & (_ & _ & _ & Hcl')).
  exists s'. split_and!; [done..| |].
  - intros y Hy. apply Hlinks in Hy as (_ & Hne & _); done.
  - intros u Mu Hr. apply (closed_graph_reachable s' u v Hcl' Mu) in Hr.
    apply Hmem in Hr as [Hne _]. done.
Qed.

(** X12: every mutating method returns on a well-formed graph and leaves
    it well formed: the vertices in [nodes] are [Node]s with adjacency sets
    of their own, the links among them are symmetric, and every link of a
    vertex in [nodes] leads to a vertex in [nodes].  For [addVertex] and
    [addVertices] the vertices added are in the graph already or have no
    links. *)
Theorem X12_well_formed_preserved s (op : mutation) :
  well_formed s → addition_isolated s op →
  ∃ s', run_mutation op s = Ok tt s' ∧ well_formed s'.
Proof.
  intros Hwf Hop. destruct op as [v|vs|v x|v x|v]; simpl in *.
  - by apply addVertex_well_formed.
  - by apply addVertices_well_formed.
  - by apply addEdge_well_formed.
  - by apply removeEdge_well_formed.
  - destruct (decide (member s v)) as [Mv|Mv].
    + destruct (removeVertex_well_formed_spec s v Hwf Mv) as (s' & ? & _ & _ & _ & _ & _ & ?).
      by exists s'.
    + exists s. split; [by apply removeVertex_nonmember|done].
Qed.

(** X13: however a mutating method ends, by returning or by throwing, the
    objects and the graph object are as before; [addVertex], [addVertices]
    and [addEdge] take no vertex out of [nodes] and remove no link, and
    [removeEdge] and [removeVertex] put no vertex into [nodes] and add no
    link. *)
Theorem X13_mutation_direction s (op : mutation) :
  ∃ s', final_state (run_mutation op s) = Some s' ∧
    heap s' = heap s ∧ this s' = this s ∧
    if is_removal op
    then (∀ x, member s' x → member s x) ∧ (∀ u y, adj s' u y → adj s u y)
    else (∀ x, member s x → member s' x) ∧ (∀ u y, adj s u y → adj s' u y).
Proof.
  destruct op as [v|vs|v x|v x|v]; cbn [run_mutation is_removal].
  - destruct (Set_add_step s (nodes (this s)) v) as (s' & Hrun & G).
    exists s'. unfold addVertex, bind, this_nodes. rewrite Hrun.
    pose proof G as (? & ? & _). destruct (grows_links s s' G) as (? & ? & _). done.
  - destruct (addVertices_step vs s) as (s' & Hrun & G).
    exists s'. rewrite Hrun.
    pose proof G as (? & ? & _). destruct (grows_links s s' G) as (? & ? & _). done.
  - destruct (addEdge_step s v x) as (s' & Hrun & G).
    exists s'. pose proof G as (? & ? & _). destruct (grows_links s s' G) as (? & ? & _). done.
  - destruct (removeEdge_step s v x) as (s' & Hrun & G).
    exists s'. pose proof G as (? & ? & _). destruct (shrinks_links s s' G) as (? & ? & _). done.
  - destruct (removeVertex_step s v) as (s' & Hrun & G).
    exists s'. pose proof G as (? & ? & _). destruct (shrinks_links s s' G) as (? & ? & _). done.
Qed.

(** X22: a value that is in [nodes] and is not a [Node], [null] for
    instance, cannot be taken out again: [removeVertex] throws before it
    changes anything.  [addEdge] and [removeEdge] throw as well; with the
    value as first argument nothing has changed, with a [Node] of the graph
    as first argument the first of the two writes has been made, so that
    [addEdge] leaves a link to the value in the adjacency set of the
    [Node]. *)
Theorem X22_non_node_member s v :
  member s v → ¬ is_node s v →
  removeVertex v s = TypeError s ∧
  (∀ x, member s x →
     addEdge v x s = TypeError s ∧ removeEdge v x s = TypeError s) ∧
  (∀ x, member s x → is_node s x →
     ∃ s1 s2, addEdge x v s = TypeError s1 ∧ adj s1 x v ∧
              removeEdge x v s = TypeError s2 ∧ ¬ adj s2 x v).
Proof.
  intros Mv Nv. apply not_is_node_deref in Nv.
  pose proof (proj2 (set_has_true _ _) Mv) as Hv. split_and!.
  - unfold removeVertex. unfold bind at 1 2. unfold this_nodes, Set_has.
    rewrite Hv. simpl. unfold bind, get_node. by rewrite Nv.
  - intros x Mx. pose proof (proj2 (set_has_true _ _) Mx) as Hx. split.
    + unfold addEdge. unfold bind at 1 2 3. unfold this_nodes, Set_has.
      rewrite Hv, Hx. simpl. unfold bind, get_node. by rewrite Nv.
    + unfold removeEdge. unfold bind at 1 2 3. unfold this_nodes, Set_has.
      rewrite Hv, Hx. simpl. unfold bind, get_node. by rewrite Nv.
  - intros x Mx [nx Nx]. pose proof (proj2 (set_has_true _ _) Mx) as Hx.
    destruct (Set_add_state s (adjacent nx) v) as (s1 & Hs1 & _ & Hh1 & _ & E1).
    destruct (Set_delete_state s (adjacent nx) v) as (s2 & Hs2 & _ & Hh2 & _ & _ & E2).
    exists s1, s2. split_and!.
    + unfold addEdge. unfold bind at 1 2 3. unfold this_nodes, Set_has.
      rewrite Hv, Hx. simpl. unfold bind, get_node. rewrite Nx, Hs1.
      by rewrite (deref_heap s s1), Nv.
    + unfold adj, neighbors. rewrite (deref_heap s s1), Nx, E1 by done.
      rewrite decide_True by done. apply elem_of_set_add. by left.
    + unfold removeEdge. unfold bind at 1 2 3. unfold this_nodes, Set_has.
      rewrite Hv, Hx. simpl. unfold bind, get_node. rewrite Nx, Hs2.
      by rewrite (deref_heap s s2), Nv.
    + unfold adj, neighbors. rewrite (deref_heap s s2), Nx, E2 by done.
      rewrite decide_True by done. rewrite elem_of_set_delete. tauto.
Qed.

End MutationProperties.

(** ** Further properties of the traversals *)

Section TraversalProperties.
Context {V : Type}.
Implicit Types (s : State V) (start x y u v : ref) (r : list V).

Lemma reachable_falsy s start x :
  truthy start = false → reachable s start x → x = start.
Proof.
  intros Htr. induction 1 as [|u x _ -> Hux]; [done|].
  apply adj_truthy in Hux. congruence.
Qed.

(** The vertices that a returning [depthFirstSearch] has listed. *)
Lemma depthFirstSearch_members s start r s' :
  depthFirstSearch start s = Ok r s' →
  ∃ vs, NoDup vs ∧ Forall2 (has_value s) vs r ∧
        (∀ x, x ∈ vs ↔ reachable s start x ∧ truthy x = true) ∧
        (truthy start = true → ∃ vs', vs = start :: vs').
Proof.
  intros Hrun.
  destruct (depthFirstSearch_exact s start r s' Hrun) as (vs & Hnd & Hval & Hre & Hst & Hcl).
  exists vs. split_and!; [done..| |done].
  intros x. split.
  - intros Hx. split; [by eapply Forall_forall in Hre|].
    eapply is_node_truthy, has_value_is_node; done.
  - intros [Hr Htx]. destruct (truthy start) eqn:Hts.
    + eapply closed_truthy_reachable; [|done..].
      destruct Hst as [vs' ->]; [done|]. by left.
    + apply (reachable_falsy s start x Hts) in Hr. congruence.
Qed.

(** The vertices that a returning [breadthFirstSearch] has listed. *)
Lemma breadthFirstSearch_members s start r s' :
  breadthFirstSearch start s = Ok r s' →
  ∃ vs, NoDup vs ∧ Forall2 (has_value s) vs r ∧
        (∀ x, x ∈ vs ↔ reachable s start x) ∧
        ∃ vs', vs = start :: vs'.
Proof.
  intros Hrun.
  destruct (breadthFirstSearch_exact s start r s' Hrun)
    as (nd & vs & Hd & Hnd & Hval & Hre & Hcl & Hpre).
  assert (Hst : ∃ vs', vs = start :: vs').
  { destruct (set_keys_foldl_prefix (set_add [] start)
      (set_keys (set_entries s (adjacent nd)))) as [new Hnew].
    unfold set_of_list in Hpre. simpl in Hpre, Hnew. rewrite Hnew in Hpre.
    destruct Hpre as [k ->]. by eexists. }
  exists vs. split_and!; [done..| |done].
  intros x. split.
  - intros Hx. by eapply Forall_forall in Hre.
  - apply closed_reachable; [|done]. destruct Hst as [vs' ->]. by left.
Qed.

(** On a stack without limit [depthFirstSearch] throws exactly when some
    reference reachable from [start] is truthy and is not a [Node]. *)
Lemma depthFirstSearch_throws_iff s start :
  (∃ s', depthFirstSearch start s = TypeError s') ↔
  (∃ x, reachable s start x ∧ truthy x = true ∧ deref s x = None).
Proof.
  split.
  - intros [s' Hrun]. unfold depthFirstSearch, bind in Hrun.
    destruct (dfs _ _ _ _) as [l1 s1|s1|] eqn:Hd; [done| |done].
    by eapply dfs_error.
  - intros (x & Hr & Htx & Hx).
    pose proof (depthFirstSearch_spec s start) as H.
    destruct (depthFirstSearch start s) as [r s'|s'|] eqn:Hrun; [|by eexists|done].
    destruct (depthFirstSearch_members s start r s' Hrun) as (vs & _ & Hval & Hmem & _).
    assert (Hin : x ∈ vs) by by apply Hmem.
    destruct (has_value_is_node s vs r x Hval Hin) as [nd Hnd]. congruence.
Qed.

(** X15: [breadthFirstSearch] throws exactly when some reference reachable
    from [start], [start] included, is not a [Node]: [null] and [undefined]
    are not stepped over. *)
Theorem X15_bfs_throws_iff s start :
  (∃ s', breadthFirstSearch start s = TypeError s') ↔ bad_reference s start.
Proof.
  pose proof (breadthFirstSearch_spec s start) as H. split.
  - intros [s' Hrun]. rewrite Hrun in H. by destruct H.
  - intros (x & Hr & Hx).
    destruct (breadthFirstSearch start s) as [r s'|s'|] eqn:Hrun; [|by eexists|done].
    destruct (breadthFirstSearch_members s start r s' Hrun) as (vs & _ & Hval & Hmem & _).
    assert (Hin : x ∈ vs) by by apply Hmem.
    destruct (has_value_is_node s vs r x Hval Hin) as [nd Hnd]. congruence.
Qed.

(** X16: when [depthFirstSearch(start)] returns, its result lists the
    values of the vertices reachable from [start] that are not [null] or
    [undefined]: each of them once, none else, the value of [start] first. *)
Theorem X16_dfs_visits_reachable s start r s' :
  depthFirstSearch start s = Ok r s' →
  ∃ vs, NoDup vs ∧ Forall2 (has_value s) vs r ∧
        (∀ x, x ∈ vs ↔ reachable s start x ∧ truthy x = true) ∧
        (truthy start = true → ∃ vs', vs = start :: vs').
Proof. apply depthFirstSearch_members. Qed.

(** X17: when [breadthFirstSearch(start)] returns, its result lists the
    values of the vertices reachable from [start]: each of them once, none
    else. *)
Theorem X17_bfs_visits_reachable s start r s' :
  breadthFirstSearch start s = Ok r s' →
  ∃ vs, NoDup vs ∧ Forall2 (has_value s) vs r ∧
        (∀ x, x ∈ vs ↔ reachable s start x).
Proof.
  intros Hrun.
  destruct (breadthFirstSearch_members s start r s' Hrun) as (vs & ? & ? & ? & _).
  by exists vs.
Qed.

(** X18: the result of [breadthFirstSearch(start)] begins with the value of
    [start] followed by the values of its neighbours, in the order in which
    they were added to [start.adjacent], [start] itself left out. *)
Theorem X18_bfs_neighbours_first s start r s' :
  breadthFirstSearch start s = Ok r s' →
  ∃ nd front,
    deref s start = Some nd ∧
    Forall2 (has_value s)
      (set_keys (set_of_list (start :: set_keys (set_entries s (adjacent nd))))) front ∧
    front `prefix_of` r.
Proof.
  intros Hrun.
  destruct (breadthFirstSearch_exact s start r s' Hrun)
    as (nd & vs & Hd & _ & Hval & _ & _ & [rest ->]).
  apply Forall2_app_inv_l in Hval as (front & back & Hfront & _ & ->).
  exists nd, front. split_and!; [done..|]. by exists back.
Qed.

(** When [breadthFirstSearch] returns, [depthFirstSearch] on a stack
    without limit returns the same values. *)
Lemma breadthFirstSearch_returns_dfs s start r s' :
  breadthFirstSearch start s = Ok r s' →
  ∃ r', depthFirstSearch start s = Ok r' s ∧ r' ≡ₚ r.
Proof.
  intros Hbfs.
  destruct (breadthFirstSearch_members s start r s' Hbfs)
    as (vb & Hndb & Hvalb & Hmemb & [vb' Hvb]).
  assert (Hnode : ∀ x, reachable s start x → is_node s x).
  { intros x Hx. eapply has_value_is_node; [done|]. by apply Hmemb. }
  pose proof (depthFirstSearch_spec s start) as H.
  destruct (depthFirstSearch start s) as [r' s1|s1|] eqn:Hdfs; [| |done].
  2:{ destruct H as (_ & _ & x & Hx & Hd). destruct (Hnode x Hx). congruence. }
  destruct H as [-> _]. exists r'. split; [done|].
  destruct (depthFirstSearch_members s start r' s Hdfs) as (vd & Hndd & Hvald & Hmemd & _).
  rewrite (has_value_values s vd r' Hvald), (has_value_values s vb r Hvalb).
  apply omap_Permutation, NoDup_Permutation; [done..|].
  intros x. rewrite Hmemd, Hmemb. split; [by intros [? _]|].
  intros Hx. split; [done|]. by apply (is_node_truthy s), Hnode.
Qed.

(** X20: from a [Node] whose adjacency set holds no key, both traversals
    return the value of that [Node] and nothing else. *)
Theorem X20_single_vertex s start nd :
  deref s start = Some nd → set_keys (set_entries s (adjacent nd)) = [] →
  depthFirstSearch start s = Ok [value nd] s ∧
  breadthFirstSearch start s = Ok [value nd] s.
Proof.
  intros Hd Hk. split.
  - unfold depthFirstSearch, bind. simpl.
    rewrite (is_node_truthy s start) by by exists nd. simpl.
    unfold bind, get_node. rewrite Hd. by rewrite forEach_no_keys.
  - unfold breadthFirstSearch. simpl. unfold bind at 1. unfold get_node. rewrite Hd.
    unfold bind. rewrite forEach_no_keys by done.
    by destruct (length (all_neighbors s)).
Qed.

(** X21: the traversals do not look at the graph they are called on: with
    the same objects and any other graph object they end in the same way,
    with the same result. *)
Theorem X21_traversals_any_graph s (g : Graph) start :
  depthFirstSearch start (with_this g s)
  = outcome_with_this g (depthFirstSearch start s) ∧
  breadthFirstSearch start (with_this g s)
  = outcome_with_this g (breadthFirstSearch start s).
Proof.
  split.
  - unfold depthFirstSearch, bind. cbn [with_this heap].
    rewrite dfs_with_this. by destruct (dfs _ _ _ s).
  - unfold breadthFirstSearch. apply bfs_loop_with_this.
Qed.

End TraversalProperties.

(** ** The order of [breadthFirstSearch] *)

Section BfsOrder.
Context {V : Type}.
Implicit Types (s : State V) (l : BfsLocals V) (x y u v start : ref).

(** The keys that a run of [add] puts behind those of a [Set]. *)
Lemma foldl_set_add_keys (ks : list ref) : ∀ vis : JSSet,
  NoDup (set_keys vis) →
  ∃ new, set_keys (foldl set_add vis ks) = set_keys vis ++ new ∧
         NoDup (set_keys vis ++ new) ∧
         (∀ y, y ∈ new → y ∈ ks) ∧
         (∀ y, y ∈ ks → y ∈ set_keys vis ++ new).
Proof.
  induction ks as [|k ks IH]; intros vis Hnd; simpl.
  - exists []. rewrite app_nil_r. split_and!; [done..| |]; by intros y ?%elem_of_nil.
  - destruct (IH (set_add vis k) (set_add_NoDup vis k Hnd)) as (new & Hk & Hnd' & Hin & Hall).
    destruct (set_has vis k) eqn:Hhas.
    + assert (set_add vis k = vis) as Heq by (unfold set_add; by rewrite Hhas).
      rewrite Heq in *. exists new. split_and!; [done..| |].
      * intros y Hy. right. by apply Hin.
      * intros y [->|Hy]%elem_of_cons; [|by apply Hall].
        apply elem_of_app. left. by apply elem_of_set_keys, set_has_true.
    + rewrite set_keys_add_new in Hk, Hnd', Hall by done.
      rewrite <- (assoc_L (++)) in Hk, Hnd', Hall. simpl in *.
      exists (k :: new). split_and!; [done..| |].
      * intros y [->|Hy]%elem_of_cons; [by left|]. right. by apply Hin.
      * intros y [->|Hy]%elem_of_cons; [|by apply Hall].
        apply elem_of_app. right. by left.
Qed.

(** An invariant of the rounds of the [while] loop holds when the loop
    ends. *)
Lemma bfs_loop_invariant s (J : BfsLocals V → Prop) :
  (∀ l v rest nd, J l → queue l = v :: rest → deref s v = Some nd →
     J (mkBfs
          (rest ++ drop (length (set_keys (bfs_visited l)))
                     (set_keys (foldl set_add (bfs_visited l)
                                  (set_keys (set_entries s (adjacent nd))))))
          (bfs_result l ++ [value nd])
          (foldl set_add (bfs_visited l) (set_keys (set_entries s (adjacent nd)))))) →
  ∀ fuel l r s', bfs_loop fuel l s = Ok r s' → J l →
    ∃ l', J l' ∧ queue l' = [] ∧ bfs_result l' = r.
Proof.
  intros Hstep. induction fuel as [|fuel IH]; intros l r s' Hrun HJ; simpl in Hrun.
  - destruct (queue l) as [|v rest] eqn:Hq; [|done].
    unfold ret in Hrun. simplify_eq. by exists l.
  - destruct (queue l) as [|v rest] eqn:Hq.
    { unfold ret in Hrun. simplify_eq. by exists l. }
    unfold bind at 1 in Hrun. unfold get_node in Hrun.
    destruct (deref s v) as [nd|] eqn:Hd; [|done].
    unfold bind in Hrun.
    destruct (forEach _ _ _ _) as [l2 s2| |] eqn:Hround; [|done..].
    destruct (bfs_round_exact s _ _ _ _ Hround) as (-> & Hvis & Hq2 & Hres).
    simpl in Hvis, Hq2, Hres. apply (IH l2 r s' Hrun).
    specialize (Hstep l v rest nd HJ Hq Hd).
    destruct l2 as [q2 r2 v2]. simpl in *. by subst.
Qed.

Lemma bfs_levels_init s start :
  bfs_levels s start (mkBfs [start] [] (set_add [] start)).
Proof.
  exists [], [], [0]. simpl. split_and!; [done|apply NoDup_singleton|by left|done..| | | |].
  - constructor; [|done]. split; [constructor|lia].
  - repeat constructor.
  - intros k [= <-]. repeat constructor.
  - by intros u y ?%elem_of_nil.
Qed.

Lemma bfs_levels_step s start l v rest nd :
  bfs_levels s start l → queue l = v :: rest → deref s v = Some nd →
  bfs_levels s start
    (mkBfs
       (rest ++ drop (length (set_keys (bfs_visited l)))
                  (set_keys (foldl set_add (bfs_visited l)
                               (set_keys (set_entries s (adjacent nd))))))
       (bfs_result l ++ [value nd])
       (foldl set_add (bfs_visited l) (set_keys (set_entries s (adjacent nd))))).
Proof.
  intros (taken & dt & dq & Hk & Hnd & Hst & Hval & Hdt & Hdq & Hsort & Hbound & Hcl) Hq Hd.
  rewrite Hq in Hk, Hdq.
  apply Forall2_cons_inv_l in Hdq as (k & dq' & Hvk & Hrest & ->).
  destruct (foldl_set_add_keys (set_keys (set_entries s (adjacent nd)))
    (bfs_visited l) Hnd) as (new & Hkeys & Hnd' & Hnew & Hall).
  rewrite Hkeys, drop_app_length.
  assert (Hlinks : ∀ y, adj s v y ↔ y ∈ set_keys (set_entries s (adjacent nd))).
  { intros y. unfold adj, neighbors. rewrite Hd. symmetry. apply elem_of_set_keys. }
  (* the levels of the vertices in the queue are not below that of [v] *)
  assert (Hge : ∀ d, d ∈ k :: dq' → k ≤ d).
  { intros d [->|Hin]%elem_of_cons; [done|].
    apply StronglySorted_app_1_r, StronglySorted_cons in Hsort as [Hall' _].
    rewrite Forall_forall in Hall'. by apply Hall'. }
  assert (Hle : ∀ d, d ∈ dt → d ≤ k).
  { intros d Hin. eapply StronglySorted_app_1_elem_of; [exact Hsort|done|by left]. }
  (* whatever is within [k] links of [start] is marked *)
  assert (Hnear : ∀ m w, reach_in s start m w → m ≤ k →
            w ∈ set_keys (bfs_visited l)).
  { induction 1 as [|n u w Hu IH Huw]; intros Hm; [done|].
    apply (Hcl u w); [|done].
    specialize (IH ltac:(lia)). rewrite Hk in IH.
    apply elem_of_app in IH as [?|Hin]; [done|].
    apply list_elem_of_lookup_1 in Hin as [i Hi].
    assert (Hqd : Forall2 (distance s start) (v :: rest) (k :: dq')) by by constructor.
    destruct (Forall2_lookup_l _ _ _ i u Hqd Hi) as (d & Hdi & _ & Hmin).
    apply list_elem_of_lookup_2, Hge in Hdi. specialize (Hmin n Hu). lia. }
  assert (Hdist : ∀ y, y ∈ new → distance s start y (S k)).
  { intros y Hy. split.
    - econstructor; [apply Hvk|]. by apply Hlinks, Hnew.
    - intros m Hm. destruct (decide (m ≤ k)) as [Hmk|]; [|lia].
      apply NoDup_app in Hnd' as (_ & Hdisj & _).
      destruct (Hdisj y (Hnear m y Hm Hmk) Hy). }
  exists (taken ++ [v]), (dt ++ [k]), (dq' ++ replicate (length new) (S k)).
  simpl. split_and!.
  - rewrite Hkeys, Hk. by rewrite <- !(assoc_L (++)).
  - by rewrite Hkeys.
  - rewrite Hkeys. apply elem_of_app. by left.
  - apply Forall2_app; [done|]. constructor; [|constructor]. by exists nd.
  - apply Forall2_app; [done|]. constructor; [done|constructor].
  - apply Forall2_app; [done|]. apply Forall2_replicate_r; [done|].
    apply Forall_forall. intros y Hy. by apply Hdist.
  - rewrite (assoc_L (++)). apply StronglySorted_app_2.
    + intros d1 d2 Hd1 Hd2. apply elem_of_replicate in Hd2 as [-> _].
      rewrite <- (assoc_L (++)) in Hd1. simpl in Hd1.
      apply elem_of_app in Hd1 as [Hd1|Hd1].
      * apply Hle in Hd1. lia.
      * specialize (Hbound k eq_refl). rewrite Forall_forall in Hbound. by apply Hbound.
    + by rewrite <- (assoc_L (++)).
    + clear. induction (length new); simpl; constructor; [done|].
      by apply Forall_replicate.
  - intros k' Hhead. specialize (Hbound k eq_refl).
    apply Forall_cons in Hbound as [_ Hbound].
    apply Forall_app. destruct dq' as [|k2 dq2]; simpl in Hhead.
    + split; [constructor|]. destruct (length new); [done|].
      simpl in Hhead. injection Hhead as <-. apply Forall_replicate. lia.
    + injection Hhead as <-. assert (k ≤ k2) by (apply Hge; right; left).
      split.
      * apply (Forall_impl _ _ _ Hbound). intros d ?. lia.
      * apply Forall_replicate. lia.
  - intros u y [Hu|Hu%list_elem_of_singleton]%elem_of_app Huy; rewrite Hkeys.
    + apply elem_of_app. left. by eapply Hcl.
    + subst u. by apply Hall, Hlinks.
Qed.

End BfsOrder.

Section BfsOrderProperty.
Context {V : Type}.
Implicit Types (s : State V) (x y u v start : ref) (r : list V).

(** X23: [breadthFirstSearch] lists the vertices in the order of their
    distance from [start]: when it returns, each vertex listed has a least
    number of links that lead to it from [start], and these numbers never
    decrease along the result. *)
Theorem X23_bfs_distance_order s start r s' :
  breadthFirstSearch start s = Ok r s' →
  ∃ vs ds, NoDup vs ∧ Forall2 (has_value s) vs r ∧
           Forall2 (distance s start) vs ds ∧ StronglySorted le ds.
Proof.
  unfold breadthFirstSearch. intros Hrun.
  destruct (bfs_loop_invariant s (bfs_levels s start)
    (bfs_levels_step s start) _ _ _ _ Hrun (bfs_levels_init s start))
    as (l' & (taken & dt & dq & Hk & Hnd & _ & Hval & Hdt & Hdq & Hsort & _) & Hq & <-).
  rewrite Hq in Hk, Hdq. rewrite app_nil_r in Hk.
  apply Forall2_nil_inv_l in Hdq as ->. rewrite app_nil_r in Hsort.
  rewrite Hk in Hnd. by exists taken, dt.
Qed.

End BfsOrderProperty.

(** ** The order of [depthFirstSearch] *)

Section DfsOrder.
Context {V : Type}.
Implicit Types (s : State V) (l : DfsLocals V) (x y u v start : ref).

Lemma deep_from_app s (A : list ref) : ∀ base u x B,
  deep_from s base (A ++ [u]) →
  (adj s u x ∨ ∀ y, adj s u y → truthy y = true → y ∈ base ++ A ++ [u]) →
  deep_from s (base ++ A ++ [u]) (x :: B) →
  deep_from s base (A ++ u :: x :: B).
Proof.
  induction A as [|a A IH]; intros base u x B HA Hux HB; simpl in *.
  - by constructor.
  - assert (Hshift : ∀ k : list ref, base ++ a :: k = (base ++ [a]) ++ k).
    { intros k. by rewrite <- (assoc_L (++)). }
    rewrite Hshift in HB. setoid_rewrite Hshift in Hux.
    destruct A as [|a' A]; simpl in *.
    + inversion HA as [| |? ? ? ? Hcond Hrest]; subst.
      constructor; [done|]. by apply (IH _ _ _ _ Hrest).
    + inversion HA as [| |? ? ? ? Hcond Hrest]; subst.
      constructor; [done|]. by apply (IH _ _ _ _ Hrest).
Qed.

Lemma deep_from_split s base L :
  deep_from s base L →
  ∀ pre u x post, L = pre ++ u :: x :: post →
    adj s u x ∨ ∀ y, adj s u y → truthy y = true → y ∈ base ++ pre ++ [u].
Proof.
  induction 1 as [base|base u0|base u0 x0 rest Hcond _ IH]; intros pre u x post Heq.
  - by destruct pre.
  - destruct pre as [|? [|? ?]]; done.
  - destruct pre as [|p pre]; simpl in Heq.
    + by simplify_eq.
    + injection Heq as <- Heq. specialize (IH pre u x post Heq).
      by rewrite <- (assoc_L (++)) in IH.
Qed.

(** A list that is not empty ends with an element. *)
Lemma cons_last (v : ref) (N : list ref) :
  ∃ A u, v :: N = A ++ [u] ∧ (N = [] ∧ u = v ∨ u ∈ N).
Proof.
  destruct N as [|n N _] using rev_ind.
  - exists [], v. split; [done|]. by left.
  - exists (v :: N), n. split; [done|]. right. apply elem_of_app. right. by left.
Qed.

(** The vertices that a call of [dfs] marks are marked depth first. *)
Lemma dfs_deep s fuel : ∀ v l l' s',
  dfs fuel v l s = Ok l' s' → truthy v = true → set_has (visited l) v = false →
  NoDup (set_keys (visited l)) →
  ∃ M, set_keys (visited l') = set_keys (visited l) ++ v :: M ∧
       NoDup (set_keys (visited l')) ∧
       deep_from s (set_keys (visited l)) (v :: M).
Proof.
  induction fuel as [|fuel IH]; intros v l l' s'; [done|]. simpl.
  intros Hrun Htr Hnew Hnd. rewrite Htr in Hrun. simpl in Hrun.
  unfold bind, get_node in Hrun. destruct (deref s v) as [nd|] eqn:Hd; [|done].
  set (K0 := set_keys (visited l)).
  set (l1 := mkDfs (set_add (visited l) v) (result l ++ [value nd])) in Hrun.
  unfold forEach in Hrun.
  pose proof (set_iterate_partial (V:=V) (adjacent nd)
    (λ neighbor l', if negb (set_has (visited l') neighbor)
                    then dfs fuel neighbor l' else ret l')
    (λ _ l2 s2, s2 = s ∧
       ∃ N, set_keys (visited l2) = K0 ++ v :: N ∧
            NoDup (set_keys (visited l2)) ∧
            deep_from s K0 (v :: N) ∧
            (∀ u y, u ∈ N → adj s u y → truthy y = true → y ∈ K0 ++ v :: N))) as Hrule.
  cbv beta in Hrule.
  assert (∃ j : nat, (s' = s ∧
       ∃ N, set_keys (visited l') = K0 ++ v :: N ∧
            NoDup (set_keys (visited l')) ∧
            deep_from s K0 (v :: N) ∧
            (∀ u y, u ∈ N → adj s u y → truthy y = true → y ∈ K0 ++ v :: N)) ∧
       set_entries s' (adjacent nd) !! j = None)
    as (j & (_ & N & HN & Hnd' & Hdeep & _) & _); [|by exists N].
  eapply Hrule; [| | |exact Hrun].
  - intros i l2 s2 HI _. exact HI.
  - intros i l2 s2 x l3 s3 (-> & N & HN & Hnd2 & Hdeep & Hcl) Hi.
    destruct (set_has (visited l2) x) eqn:Hx; simpl.
    { intros [= <- <-]. split; [done|]. by exists N. }
    intros Hcall. destruct (dfs_closed s _ _ _ _ _ Hcall) as (-> & Hmono & _ & Hclosed).
    split; [done|]. destruct (truthy x) eqn:Htx.
    2:{ destruct fuel; [done|]. simpl in Hcall. rewrite Htx in Hcall. simpl in Hcall.
        injection Hcall as <-. by exists N. }
    destruct (IH x l2 l3 s Hcall Htx Hx Hnd2) as (M & HM & Hnd3 & HdeepM).
    assert (Hkeys3 : set_keys (visited l3) = K0 ++ v :: (N ++ x :: M)).
    { rewrite HM, HN. by rewrite <- (assoc_L (++)). }
    exists (N ++ x :: M). split_and!; [done..| |].
    + destruct (cons_last v N) as (A & u & HA & Hu).
      rewrite HN in HdeepM.
      rewrite app_comm_cons, HA, <- (assoc_L (++)). simpl.
      rewrite HA in Hdeep, HdeepM.
      apply deep_from_app; [done| |done].
      destruct Hu as [[-> ->]|Hu].
      * left. unfold adj, neighbors. rewrite Hd. by eapply list_elem_of_lookup_2.
      * right. intros y Hy Hty. rewrite <- HA. by apply (Hcl u).
    + intros u y Hu Hy Hty. rewrite <- Hkeys3.
      apply elem_of_app in Hu as [Hu|Hu].
      * rewrite HM, HN. apply elem_of_app. left. by apply (Hcl u).
      * apply elem_of_set_keys. apply (Hclosed u); [| |done..].
        -- apply elem_of_set_keys. rewrite HM. apply elem_of_app. by right.
        -- rewrite HM in Hnd3. apply NoDup_app in Hnd3 as (_ & Hdisj & _).
           intros Hin%elem_of_set_keys. by apply (Hdisj u).
  - split; [done|]. exists []. unfold l1. simpl.
    rewrite set_keys_add_new by done. split_and!; [done| |constructor|].
    + apply NoDup_app. split_and!; [done| |apply NoDup_singleton].
      intros z Hz ->%list_elem_of_singleton.
      apply elem_of_set_keys, set_has_true in Hz. congruence.
    + by intros u y ?%elem_of_nil.
Qed.

End DfsOrder.

Section DfsOrderProperty.
Context {V : Type}.
Implicit Types (s : State V) (x y u v w start : ref) (r : list V).

(** The run of [dfs] behind a [depthFirstSearch] that returns. *)
Lemma depthFirstSearch_run s start r s' :
  depthFirstSearch start s = Ok r s' →
  ∃ l', dfs (S (size (heap s))) start (mkDfs [] []) s = Ok l' s ∧
        r = result l' ∧ dfs_inv s start l'.
Proof.
  unfold depthFirstSearch, bind. intros Hrun.
  opose proof* (dfs_spec s start (S (size (heap s))) start (mkDfs [] [])) as H.
  - split_and!; simpl; constructor.
  - constructor.
  - done.
  - simpl. rewrite <- size_dom.
    assert (dom (heap s) ∖ visited_addrs [] ⊆ dom (heap s)) as Hs
      by apply subseteq_difference_l, reflexivity.
    apply subseteq_size in Hs. lia.
  - destruct (dfs _ _ _ _) as [l' s1| |] eqn:Hd; [|done..].
    unfold ret in Hrun. simplify_eq. destruct H as (-> & Hinv & _). by exists l'.
Qed.

(** X24: [depthFirstSearch] goes deep first: in its result a vertex is
    followed by one of its neighbours, unless all its neighbours, [null] and
    [undefined] apart, are listed by then. *)
Theorem X24_dfs_depth_first s start r s' :
  depthFirstSearch start s = Ok r s' →
  ∃ vs, NoDup vs ∧ Forall2 (has_value s) vs r ∧
    ∀ pre u x post, vs = pre ++ u :: x :: post →
      adj s u x ∨ ∀ y, adj s u y → truthy y = true → y ∈ pre ++ [u].
Proof.
  intros Hrun.
  destruct (depthFirstSearch_run s start r s' Hrun) as (l' & Hd & -> & Hnd & Hval & _).
  exists (set_keys (visited l')). split_and!; [done..|].
  destruct (truthy start) eqn:Htr.
  - destruct (dfs_deep s _ _ _ _ _ Hd Htr) as (M & HM & _ & Hdeep);
      [done|constructor|].
    simpl in HM, Hdeep. rewrite HM. intros pre u x post Heq.
    apply (deep_from_split s [] _ Hdeep pre u x post Heq).
  - simpl in Hd. rewrite Htr in Hd. simpl in Hd. injection Hd as <-.
    intros pre u x post Heq. by destruct pre.
Qed.

End DfsOrderProperty.

(** ** Traversals of a well-formed graph *)

Section Components.
Context {V : Type}.
Implicit Types (s : State V) (x y u v w start : ref) (r : list V).

Lemma reachable_trans s u w x : reachable s u w → reachable s w x → reachable s u x.
Proof. intros Huw. induction 1; [done|]. by eapply reach_step. Qed.

(** In a well-formed graph a vertex reaches the vertices that reach it. *)
Lemma well_formed_reachable_sym s u w :
  well_formed s → member s u → reachable s u w → reachable s w u.
Proof.
  intros (_ & Hty & Hsym & Hcl) Mu. induction 1 as [|m w Hm IH Hmw]; [constructor|].
  assert (Mm : member s m) by by eapply closed_graph_reachable.
  assert (Mw : member s w) by by eapply Hcl.
  apply (Hsym m w Mm Mw (Hty m Mm) (Hty w Mw)) in Hmw.
  eapply reachable_trans; [|exact IH]. eapply reach_step; [constructor|done].
Qed.

(** The traversals of a well-formed graph from one of its vertices. *)
Lemma well_formed_traversals s u :
  well_formed s → member s u →
  ∃ rb rd vb vd,
    breadthFirstSearch u s = Ok rb s ∧ depthFirstSearch u s = Ok rd s ∧
    NoDup vb ∧ NoDup vd ∧
    Forall2 (has_value s) vb rb ∧ Forall2 (has_value s) vd rd ∧
    (∀ x, x ∈ vb ↔ reachable s u x) ∧ (∀ x, x ∈ vd ↔ reachable s u x) ∧
    (∀ x, reachable s u x → member s x).
Proof.
  intros (_ & Hty & _ & Hcl) Mu.
  assert (Hmem : ∀ x, reachable s u x → member s x).
  { intros x. by apply closed_graph_reachable. }
  assert (Hbad : ¬ bad_reference s u).
  { intros (x & Hx & Hd). destruct (Hty x (Hmem x Hx)). congruence. }
  pose proof (breadthFirstSearch_spec s u) as Hb.
  destruct (breadthFirstSearch u s) as [rb sb|sb|] eqn:Hbfs; [| |done].
  2:{ by destruct Hb as [_ ?]. }
  destruct Hb as [-> _].
  pose proof (depthFirstSearch_spec s u) as Hd.
  destruct (depthFirstSearch u s) as [rd sd|sd|] eqn:Hdfs; [| |done].
  2:{ by destruct Hd as (_ & _ & ?). }
  destruct Hd as [-> _].
  destruct (breadthFirstSearch_members s u rb s Hbfs) as (vb & ? & ? & Hvb & _).
  destruct (depthFirstSearch_members s u rd s Hdfs) as (vd & ? & ? & Hvd & _).
  exists rb, rd, vb, vd. split_and!; [done..| |done].
  intros x. rewrite Hvd. split; [by intros [? _]|].
  intros Hx. split; [done|]. by apply (is_node_truthy s), Hty, Hmem.
Qed.

Lemma values_Permutation s (vs1 vs2 : list ref) (r1 r2 : list V) :
  NoDup vs1 → NoDup vs2 → (∀ x, x ∈ vs1 ↔ x ∈ vs2) →
  Forall2 (has_value s) vs1 r1 → Forall2 (has_value s) vs2 r2 → r1 ≡ₚ r2.
Proof.
  intros Hn1 Hn2 Heq H1 H2.
  rewrite (has_value_values s vs1 r1 H1), (has_value_values s vs2 r2 H2).
  by apply omap_Permutation, NoDup_Permutation.
Qed.

End Components.

(** ** [depthFirstSearch] on a call stack that can be full *)

Section StackFacts.
Context {V : Type}.
Implicit Types (s : State V) (l : DfsLocals V) (x y u v start : ref).

(** An iteration that does not find the stack full is the iteration above. *)
Lemma set_iterate_stack_within {L} (p : positive)
    (bs : ref → L → State V → stack_outcome L) (b : ref → L → M V L) :
  (∀ x (l : L) s o, bs x l s = Within o → b x l s = o) →
  ∀ n i (l : L) s o,
    set_iterate_stack n p i bs l s = Within o → set_iterate n p i b l s = o.
Proof.
  intros Hb. induction n as [|n IH]; intros i l s o; simpl.
  - destruct (set_entries s p !! i); by intros [= <-].
  - destruct (set_entries s p !! i) as [[x|]|]; [| |by intros [= <-]].
    + unfold bind. destruct (bs x l s) as [[l' s'|s'|]|s'] eqn:Hx.
      * rewrite (Hb _ _ _ _ Hx). apply IH.
      * rewrite (Hb _ _ _ _ Hx). by intros [= <-].
      * rewrite (Hb _ _ _ _ Hx). by intros [= <-].
      * done.
    + apply IH.
Qed.

(** Conversely, with a body that has the room it needs. *)
Lemma set_iterate_stack_enough {L} (p : positive)
    (bs : ref → L → State V → stack_outcome L) (b : ref → L → M V L) :
  (∀ x (l : L) s o, b x l s = o → o ≠ Diverge → bs x l s = Within o) →
  ∀ n i (l : L) s o,
    set_iterate n p i b l s = o → o ≠ Diverge →
    set_iterate_stack n p i bs l s = Within o.
Proof.
  intros Hb. induction n as [|n IH]; intros i l s o; simpl.
  - destruct (set_entries s p !! i); by intros <-.
  - destruct (set_entries s p !! i) as [[x|]|]; [| |by intros <-].
    + unfold bind. destruct (b x l s) as [l' s'|s'|] eqn:Hx.
      * rewrite (Hb _ _ _ _ Hx) by done. apply IH.
      * rewrite (Hb _ _ _ _ Hx) by done. by intros <-.
      * by intros <-.
    + apply IH.
Qed.

(** A run of [dfs] that does not find the stack full is the run on a stack
    without limit. *)
Lemma dfs_stack_within stack : ∀ fuel v l s o,
  stack ≤ fuel → dfs_stack stack v l s = Within o → dfs fuel v l s = o.
Proof.
  induction stack as [|stack IH]; intros fuel v l s o Hle; [done|].
  destruct fuel as [|fuel]; [lia|]. simpl.
  destruct (negb (truthy v)); [by intros [= <-]|].
  unfold bind, get_node. destruct (deref s v) as [nd|]; [|by intros [= <-]].
  unfold forEach_stack, forEach. apply set_iterate_stack_within.
  intros x l' s' o'. destruct (negb _); [|by intros [= <-]].
  apply IH. lia.
Qed.

(** With room for the depth of the recursion the stack is never full. *)
Lemma dfs_stack_enough fuel : ∀ stack v l s o,
  fuel ≤ stack → dfs fuel v l s = o → o ≠ Diverge →
  dfs_stack stack v l s = Within o.
Proof.
  induction fuel as [|fuel IH]; intros stack v l s o Hle; [by intros <-|].
  destruct stack as [|stack]; [lia|]. simpl.
  destruct (negb (truthy v)); [by intros <-|].
  unfold bind, get_node. destruct (deref s v) as [nd|]; [|by intros <-].
  unfold forEach_stack, forEach. apply set_iterate_stack_enough.
  intros x l' s' o'. destruct (negb _); [|by intros <-].
  apply IH. lia.
Qed.

Lemma set_iterate_stack_full {L} (p : positive)
    (bs : ref → L → State V → stack_outcome L) s :
  (∀ x (l l' : L) s', bs x l s = Within (Ok l' s') → s' = s) →
  (∀ x (l : L) s', bs x l s = RangeError s' → s' = s) →
  ∀ n i (l : L) s', set_iterate_stack n p i bs l s = RangeError s' → s' = s.
Proof.
  intros Hok Hfull. induction n as [|n IH]; intros i l s'; simpl.
  - by destruct (set_entries s p !! i).
  - destruct (set_entries s p !! i) as [[x|]|]; [| |done].
    + destruct (bs x l s) as [[l1 s1|s1|]|s1] eqn:Hx; [|done..|].
      * apply Hok in Hx as ->. apply IH.
      * intros [= <-]. by eapply Hfull.
    + apply IH.
Qed.

(** The [RangeError] leaves the store as it is. *)
Lemma dfs_stack_full stack : ∀ v l s s',
  dfs_stack stack v l s = RangeError s' → s' = s.
Proof.
  induction stack as [|stack IH]; intros v l s s'; simpl; [by intros [= <-]|].
  destruct (negb (truthy v)); [done|].
  unfold get_node. destruct (deref s v) as [nd|]; [|done].
  unfold forEach_stack. apply set_iterate_stack_full.
  - intros x l1 l2 s2. destruct (negb _); [|by intros [= _ <-]].
    intros Hrun%(dfs_stack_within stack stack); [|done].
    by destruct (dfs_closed s _ _ _ _ _ Hrun) as (-> & _).
  - intros x l1 s2. destruct (negb _); [|done]. apply IH.
Qed.

(** [depthFirstSearch] on a stack that can be full ends as it does on a
    stack without limit, or by a [RangeError] when the stack has room for
    no more activations of [dfs] than there are [Node] objects. *)
Lemma depthFirstSearch_stack_cases s start stack :
  match depthFirstSearch_stack stack start s with
  | Within o => depthFirstSearch start s = o
  | RangeError s' => s' = s ∧ stack ≤ size (heap s)
  end.
Proof.
  unfold depthFirstSearch_stack, depthFirstSearch, bind.
  destruct (decide (S (size (heap s)) ≤ stack)) as [Hle|Hgt].
  - pose proof (depthFirstSearch_spec s start) as Hspec.
    unfold depthFirstSearch, bind in Hspec.
    destruct (dfs (S (size (heap s))) start (mkDfs [] []) s) as [l' s'|s'|] eqn:Hd;
      [| |done].
    + by rewrite (dfs_stack_enough _ stack _ _ _ _ Hle Hd).
    + by rewrite (dfs_stack_enough _ stack _ _ _ _ Hle Hd).
  - destruct (dfs_stack stack start (mkDfs [] []) s) as [o|s'] eqn:Hd.
    + rewrite (dfs_stack_within stack (S (size (heap s))) _ _ _ o) by (done || lia).
      by destruct o.
    + apply dfs_stack_full in Hd. split; [done|lia].
Qed.

(** It comes to an end on every stack. *)
Lemma depthFirstSearch_stack_ends s start stack :
  depthFirstSearch_stack stack start s ≠ Within Diverge.
Proof.
  intros Hd. pose proof (depthFirstSearch_stack_cases s start stack) as H.
  rewrite Hd in H. pose proof (depthFirstSearch_spec s start) as Hspec.
  by rewrite H in Hspec.
Qed.

(** What it returns, the run on a stack without limit returns. *)
Lemma depthFirstSearch_stack_returns s start stack r s' :
  depthFirstSearch_stack stack start s = Within (Ok r s') →
  depthFirstSearch start s = Ok r s' ∧ s' = s.
Proof.
  intros Hd. pose proof (depthFirstSearch_stack_cases s start stack) as H.
  rewrite Hd in H. split; [done|].
  pose proof (depthFirstSearch_spec s start) as Hspec. rewrite H in Hspec.
  by destruct Hspec.
Qed.

End StackFacts.

(** ** Paths longer than the stack *)

Section PathFacts.
Implicit Types (n k j : nat).

#[local] Instance path_node_inj : Inj (=) (=) path_node.
Proof. intros j k. apply SuccNat2Pos.inj. Qed.

#[local] Instance path_vertex_inj : Inj (=) (=) path_vertex.
Proof. intros j k [= H]. by apply (inj path_node). Qed.

Lemma path_heap_lookup n (a : positive) (nd : Node nat) :
  heap (path_state n) !! a = Some nd ↔
  ∃ k, k < n ∧ a = path_node k ∧ nd = mkNode (S k) (path_node (S k)).
Proof.
  simpl. rewrite <- elem_of_list_to_map.
  - rewrite list_elem_of_fmap. split.
    + intros (k & [= -> ->] & Hk%elem_of_seq). exists k. split; [lia|done].
    + intros (k & Hk & -> & ->). exists k. split; [done|]. apply elem_of_seq. lia.
  - rewrite <- list_fmap_compose.
    apply (NoDup_fmap_2 (λ k, path_node k)), NoDup_seq.
Qed.

Lemma path_deref n k :
  k < n → deref (path_state n) (Obj (path_node k))
          = Some (mkNode (S k) (path_node (S k))).
Proof. intros Hk. apply path_heap_lookup. by exists k. Qed.

Lemma path_set_entries n k :
  k < n → set_entries (path_state n) (path_node (S k)) = path_links n k.
Proof.
  intros Hk. unfold set_entries.
  assert (sets (path_state n) !! path_node (S k) = Some (path_links n k)) as ->; [|done].
  unfold path_state. cbn [sets]. apply elem_of_list_to_map_1.
  - rewrite fmap_cons. cbn [fst]. apply NoDup_cons. split.
    + rewrite <- list_fmap_compose. intros (j & Hj & _)%list_elem_of_fmap.
      simpl in Hj. by apply (inj path_node 0 (S j)) in Hj.
    + rewrite <- list_fmap_compose.
      apply (NoDup_fmap_2 (λ k, path_node (S k))), NoDup_seq.
  - right. apply list_elem_of_fmap. exists k. split; [done|]. apply elem_of_seq. lia.
Qed.

Lemma path_links_typed n : links_typed (path_state n).
Proof.
  intros u x. unfold adj, neighbors.
  destruct (deref (path_state n) u) as [nd|] eqn:Hd; [|by intros ?%elem_of_nil].
  destruct u as [| |a]; [done..|].
  apply path_heap_lookup in Hd as (k & Hk & -> & ->). cbn [adjacent].
  rewrite path_set_entries by done. unfold path_links.
  intros [Hx|Hx]%elem_of_app.
  - destruct k as [|j]; [by apply elem_of_nil in Hx|].
    apply list_elem_of_singleton in Hx. unfold path_vertex in Hx.
    assert (x = Obj (path_node j)) as -> by congruence.
    eexists. apply path_deref. lia.
  - case_decide; [|by apply elem_of_nil in Hx].
    apply list_elem_of_singleton in Hx. unfold path_vertex in Hx.
    assert (x = Obj (path_node (S k))) as -> by congruence.
    eexists. by apply path_deref.
Qed.

Lemma path_visited_has k j :
  set_has (path_vertex <$> seq 0 k) (Obj (path_node j)) = bool_decide (j < k).
Proof.
  unfold set_has. apply bool_decide_ext. change (Some (Obj (path_node j))) with (path_vertex j).
  rewrite list_elem_of_fmap. split.
  - intros (i & Hi%(inj path_vertex) & Hin%elem_of_seq). lia.
  - intros Hj. exists j. split; [done|]. apply elem_of_seq. lia.
Qed.

Lemma path_visited_add k :
  set_add (path_vertex <$> seq 0 k) (Obj (path_node k)) = path_vertex <$> seq 0 (S k).
Proof.
  unfold set_add. rewrite path_visited_has, bool_decide_false by lia.
  by rewrite seq_S, fmap_app.
Qed.

Lemma set_iterate_stack_S {V L} n (p : positive) i
    (body : ref → L → State V → stack_outcome L) (l : L) s :
  set_iterate_stack (S n) p i body l s
  = match set_entries s p !! i with
    | None => Within (Ok l s)
    | Some None => set_iterate_stack n p (S i) body l s
    | Some (Some x) =>
        match body x l s with
        | Within (Ok l' s') => set_iterate_stack n p (S i) body l' s'
        | thrown => thrown
        end
    end.
Proof. done. Qed.

(** On the path of [n] vertices the call of [dfs] for the [k]-th, made when
    those before it are marked, finds the stack full when fewer activations
    have room than vertices are left. *)
Lemma path_dfs_stack_full n stack : ∀ k (res : list nat),
  k + stack < n →
  dfs_stack stack (Obj (path_node k)) (mkDfs (path_vertex <$> seq 0 k) res)
    (path_state n)
  = RangeError (path_state n).
Proof.
  induction stack as [|stack IH]; intros k res Hk; [done|].
  cbn [dfs_stack truthy negb]. unfold get_node. rewrite path_deref by lia.
  cbn [visited result adjacent value]. rewrite path_visited_add.
  assert (Hnext : ∀ n' i res',
    set_entries (path_state n) (path_node (S k)) !! i = Some (path_vertex (S k)) →
    set_iterate_stack (S n') (path_node (S k)) i
      (λ neighbor l',
         if negb (set_has (visited l') neighbor)
         then dfs_stack stack neighbor l'
         else λ s', Within (Ok l' s'))
      (mkDfs (path_vertex <$> seq 0 (S k)) res') (path_state n)
    = RangeError (path_state n)).
  { intros n' i res' Hi. rewrite set_iterate_stack_S, Hi.
    unfold path_vertex at 1. cbv beta iota. cbn [visited].
    rewrite path_visited_has, bool_decide_false by lia.
    cbn [negb]. by rewrite IH by lia. }
  assert (Hlinks : set_entries (path_state n) (path_node (S k))
            = match k with 0 => [] | S j => [path_vertex j] end ++ [path_vertex (S k)]).
  { rewrite path_set_entries by lia. unfold path_links. by rewrite decide_True by lia. }
  unfold forEach_stack. rewrite Hlinks. destruct k as [|j].
  - apply Hnext. by rewrite Hlinks.
  - change (length ([path_vertex j] ++ [path_vertex (S (S j))])) with 2.
    rewrite set_iterate_stack_S, Hlinks.
    change (([path_vertex j] ++ [path_vertex (S (S j))]) !! 0) with (Some (path_vertex j)).
    unfold path_vertex at 1. cbv beta iota. cbn [visited].
    rewrite path_visited_has, bool_decide_true by lia. cbn [negb].
    apply Hnext. by rewrite Hlinks.
Qed.

Lemma path_member n x :
  member (path_state n) x ↔ ∃ k, k < n ∧ x = Obj (path_node k).
Proof.
  unfold member, set_entries. cbn [this nodes path_state sets].
  rewrite (elem_of_list_to_map_1 _ 1%positive (path_vertex <$> seq 0 n)).
  - simpl. rewrite list_elem_of_fmap. split.
    + intros (k & [= ->] & Hk%elem_of_seq). exists k. split; [lia|done].
    + intros (k & Hk & ->). exists k. split; [done|]. apply elem_of_seq. lia.
  - rewrite fmap_cons. cbn [fst]. apply NoDup_cons. split.
    + rewrite <- list_fmap_compose. intros (j & Hj & _)%list_elem_of_fmap.
      simpl in Hj. by apply (inj path_node 0 (S j)) in Hj.
    + rewrite <- list_fmap_compose.
      apply (NoDup_fmap_2 (λ k, path_node (S k))), NoDup_seq.
  - by left.
Qed.

Lemma path_adj n u x :
  adj (path_state n) u x ↔
  ∃ k j, k < n ∧ j < n ∧ u = Obj (path_node k) ∧ x = Obj (path_node j) ∧
         (k = S j ∨ j = S k).
Proof.
  unfold adj, neighbors. split.
  - destruct (deref (path_state n) u) as [nd|] eqn:Hd; [|by intros ?%elem_of_nil].
    destruct u as [| |a]; [done..|].
    apply path_heap_lookup in Hd as (k & Hk & -> & ->). cbn [adjacent].
    rewrite path_set_entries by done. unfold path_links.
    intros [Hx|Hx]%elem_of_app.
    + destruct k as [|j]; [by apply elem_of_nil in Hx|].
      apply list_elem_of_singleton in Hx. unfold path_vertex in Hx.
      exists (S j), j. split_and!; [lia..|done|congruence|by left].
    + case_decide; [|by apply elem_of_nil in Hx].
      apply list_elem_of_singleton in Hx. unfold path_vertex in Hx.
      exists k, (S k). split_and!; [lia..|done|congruence|by right].
  - intros (k & j & Hk & Hj & -> & -> & Hkj). rewrite path_deref by done.
    cbn [adjacent]. rewrite path_set_entries by done. unfold path_links.
    apply elem_of_app. destruct Hkj as [->| ->].
    + left. by apply list_elem_of_singleton.
    + right. rewrite decide_True by lia. by apply list_elem_of_singleton.
Qed.

(** The paths are well-formed graphs. *)
Lemma path_well_formed n : well_formed (path_state n).
Proof.
  split_and!.
  - split.
    + intros [| |a] [| |b] nu nv Hu Hv Heq; try done.
      apply path_heap_lookup in Hu as (k & _ & -> & ->).
      apply path_heap_lookup in Hv as (j & _ & -> & ->).
      cbn [adjacent] in Heq. apply (inj path_node) in Heq. congruence.
    + intros [| |a] nu Hu; [done..|].
      apply path_heap_lookup in Hu as (k & _ & -> & ->). cbn [adjacent].
      intros Heq. by apply (inj path_node (S k) 0) in Heq.
  - intros x (k & Hk & ->)%path_member. eexists. by apply path_deref.
  - intros u v _ _ _ _. rewrite !path_adj. split.
    + intros (k & j & ? & ? & -> & -> & ?). exists j, k. split_and!; [done..|tauto].
    + intros (k & j & ? & ? & -> & -> & ?). exists j, k. split_and!; [done..|tauto].
  - intros u x _ (k & j & _ & Hj & _ & -> & _)%path_adj.
    apply path_member. by exists j.
Qed.

(** [depthFirstSearch] from the first vertex of a path that has more
    vertices than the stack has room for activations of [dfs]. *)
Lemma path_depthFirstSearch_stack stack :
  depthFirstSearch_stack stack (Obj 1) (path_state (S stack))
  = RangeError (path_state (S stack)).
Proof.
  unfold depthFirstSearch_stack.
  change (dfs_stack stack (Obj 1) (mkDfs [] []) (path_state (S stack)))
    with (dfs_stack stack (Obj (path_node 0)) (mkDfs (path_vertex <$> seq 0 0) [])
            (path_state (S stack))).
  by rewrite path_dfs_stack_full by lia.
Qed.

End PathFacts.

(** ** Termination, and the traversals on a stack that can be full *)

Section StackClaims.
Context {V : Type}.
Implicit Types (s : State V) (x y u v w start : ref) (r : list V) (stack : nat).

(** What [depthFirstSearch] returns on a stack without limit it returns on
    every stack that does not get full. *)
Lemma depthFirstSearch_stack_or_full s start stack r :
  depthFirstSearch start s = Ok r s →
  depthFirstSearch_stack stack start s = Within (Ok r s) ∨
  (depthFirstSearch_stack stack start s = RangeError s ∧ stack ≤ size (heap s)).
Proof.
  intros Hd. pose proof (depthFirstSearch_stack_cases s start stack) as H.
  destruct (depthFirstSearch_stack stack start s) as [o|s1].
  - left. congruence.
  - right. by destruct H as [-> ?].
Qed.

Lemma traversals_typed_return s start :
  links_typed s → is_node s start →
  ∃ r r', depthFirstSearch start s = Ok r s ∧ breadthFirstSearch start s = Ok r' s.
Proof.
  intros Hl Hs. pose proof (typed_no_bad_reference s start Hl Hs) as Hbad.
  pose proof (depthFirstSearch_spec s start) as Hd.
  pose proof (breadthFirstSearch_spec s start) as Hb.
  destruct (depthFirstSearch start s) as [r s1| |];
    [|by destruct Hd as (_ & _ & ?)|done].
  destruct (breadthFirstSearch start s) as [r' s2| |];
    [|by destruct Hb as (_ & ?)|done].
  destruct Hd as [-> _], Hb as [-> _]. by exists r, r'.
Qed.

(** C8 (as amended): on every store, cyclic or not, [breadthFirstSearch]
    and every mutating method come to an end within the bound on their
    loops, and so does [depthFirstSearch] on every call stack, by returning
    or by throwing; a sequence returned has one value for each vertex of a
    list without repetition, every vertex being marked before it is entered
    or queued.  When the adjacency sets hold [Node]s only,
    [breadthFirstSearch] from a [Node] returns, and [depthFirstSearch]
    returns when the stack has room for more activations of [dfs] than there
    are [Node] objects; on a stack with less room it returns the same
    sequence or throws a [RangeError].  When the members are [Node]s, every
    mutating method returns. *)
Theorem C8_termination s start :
  ((∀ stack, depthFirstSearch_stack stack start s ≠ Within Diverge) ∧
   breadthFirstSearch start s ≠ Diverge ∧
   ∀ op, run_mutation op s ≠ Diverge) ∧
  (∀ r s',
     (∃ stack, depthFirstSearch_stack stack start s = Within (Ok r s')) ∨
     breadthFirstSearch start s = Ok r s' →
     ∃ vs, NoDup vs ∧ Forall2 (has_value s) vs r) ∧
  (links_typed s → is_node s start →
     (∃ r', breadthFirstSearch start s = Ok r' s) ∧
     ∃ r, ∀ stack,
       (size (heap s) < stack →
          depthFirstSearch_stack stack start s = Within (Ok r s)) ∧
       (depthFirstSearch_stack stack start s = Within (Ok r s) ∨
        depthFirstSearch_stack stack start s = RangeError s)) ∧
  (members_typed s → ∀ op, ∃ s', run_mutation op s = Ok tt s').
Proof.
  pose proof (depthFirstSearch_spec s start) as Hd.
  pose proof (breadthFirstSearch_spec s start) as Hb.
  split_and!.
  - intros stack. apply depthFirstSearch_stack_ends.
  - by destruct (breadthFirstSearch start s).
  - intros op. apply run_mutation_terminates.
  - intros r s' [[stack Hr]|Hr].
    + apply depthFirstSearch_stack_returns in Hr as [Hr _].
      rewrite Hr in Hd. destruct Hd as (_ & vs & ? & ? & _). by exists vs.
    + rewrite Hr in Hb. destruct Hb as (_ & vs & ? & ? & _). by exists vs.
  - intros Hl Hs. destruct (traversals_typed_return s start Hl Hs) as (r & r' & Hr & Hr').
    split; [by exists r'|]. exists r. intros stack.
    destruct (depthFirstSearch_stack_or_full s start stack r Hr) as [H|[H Hle]].
    + split; [done|by left].
    + split; [lia|by right].
  - intros Hty op. by apply run_mutation_returns.
Qed.

(** X14: [depthFirstSearch] steps over [null] and [undefined], as [start]
    and as entries of an adjacency set.  On every call stack a [TypeError]
    comes from a reference reachable from [start] that is truthy and is not
    a [Node]; when there is such a reference the call does not return: it
    throws a [TypeError], or a [RangeError] when the stack is full before.
    When the stack has room for more activations of [dfs] than there are
    [Node] objects, it throws a [TypeError] exactly when there is such a
    reference. *)
Theorem X14_dfs_type_error s start stack :
  (∀ s', depthFirstSearch_stack stack start s = Within (TypeError s') →
     s' = s ∧ ∃ x, reachable s start x ∧ truthy x = true ∧ deref s x = None) ∧
  ((∃ x, reachable s start x ∧ truthy x = true ∧ deref s x = None) →
     depthFirstSearch_stack stack start s = Within (TypeError s) ∨
     depthFirstSearch_stack stack start s = RangeError s) ∧
  (size (heap s) < stack →
     depthFirstSearch_stack stack start s = Within (TypeError s) ↔
     ∃ x, reachable s start x ∧ truthy x = true ∧ deref s x = None).
Proof.
  pose proof (depthFirstSearch_stack_cases s start stack) as H.
  pose proof (depthFirstSearch_spec s start) as Hspec.
  pose proof (depthFirstSearch_throws_iff s start) as Hiff.
  assert (Hthrow : (∃ x, reachable s start x ∧ truthy x = true ∧ deref s x = None) →
            depthFirstSearch start s = TypeError s).
  { intros [s' Hs']%Hiff. rewrite Hs' in Hspec. by destruct Hspec as [-> _]. }
  split_and!.
  - intros s' Hrun. rewrite Hrun in H. rewrite H in Hspec. destruct Hspec as [-> _].
    split; [done|]. apply Hiff. by exists s.
  - intros Hx%Hthrow. destruct (depthFirstSearch_stack stack start s) as [o|s1].
    + left. congruence.
    + right. by destruct H as [-> _].
  - intros Hstack. split.
    + intros Hrun. rewrite Hrun in H. apply Hiff. by exists s.
    + intros Hx%Hthrow. destruct (depthFirstSearch_stack stack start s) as [o|s1].
      * congruence.
      * destruct H as [_ ?]. lia.
Qed.

(** X19: when [breadthFirstSearch(start)] returns, [depthFirstSearch(start)]
    throws no [TypeError]: on every call stack it returns the same values
    the same number of times, or throws a [RangeError], and this only when
    the stack has room for no more activations of [dfs] than there are
    [Node] objects. *)
Theorem X19_bfs_dfs_same_values s start r s' stack :
  breadthFirstSearch start s = Ok r s' →
  (∃ r', depthFirstSearch_stack stack start s = Within (Ok r' s) ∧ r' ≡ₚ r) ∨
  (depthFirstSearch_stack stack start s = RangeError s ∧ stack ≤ size (heap s)).
Proof.
  intros Hbfs. destruct (breadthFirstSearch_returns_dfs s start r s' Hbfs) as (r' & Hd & Hp).
  destruct (depthFirstSearch_stack_or_full s start stack r' Hd) as [H|H]; [|by right].
  left. by exists r'.
Qed.

(** X25: in a well-formed graph the traversals from two vertices of one
    component list the same vertices: when [w] is reachable from a vertex
    [u] of the graph, [breadthFirstSearch] returns from both, with the same
    values the same number of times, and from either [depthFirstSearch]
    returns these values too, or throws a [RangeError] when the stack has
    room for no more activations of [dfs] than there are [Node] objects. *)
Theorem X25_same_component s u w stack :
  well_formed s → member s u → reachable s u w →
  ∃ bu bw,
    breadthFirstSearch u s = Ok bu s ∧ breadthFirstSearch w s = Ok bw s ∧
    bw ≡ₚ bu ∧
    ∀ v, v = u ∨ v = w →
      (∃ d, depthFirstSearch_stack stack v s = Within (Ok d s) ∧ d ≡ₚ bu) ∨
      (depthFirstSearch_stack stack v s = RangeError s ∧ stack ≤ size (heap s)).
Proof.
  intros Hwf Mu Huw.
  destruct (well_formed_traversals s u Hwf Mu)
    as (bu & du & vbu & vdu & Hbu & Hdu & ? & ? & ? & ? & Ebu & Edu & Hmem).
  destruct (well_formed_traversals s w Hwf (Hmem w Huw))
    as (bw & dw & vbw & vdw & Hbw & Hdw & ? & ? & ? & ? & Ebw & Edw & _).
  pose proof (well_formed_reachable_sym s u w Hwf Mu Huw) as Hwu.
  assert (Hsame : ∀ x, reachable s w x ↔ reachable s u x).
  { intros x. split; intros Hx; by eapply reachable_trans. }
  assert (Hpu : du ≡ₚ bu).
  { apply (values_Permutation s vdu vbu); [done..| |done|done].
    intros x. by rewrite Edu, Ebu. }
  assert (Hpw : dw ≡ₚ bu).
  { apply (values_Permutation s vdw vbu); [done..| |done|done].
    intros x. by rewrite Edw, Ebu. }
  exists bu, bw. split_and!; [done..| |].
  - apply (values_Permutation s vbw vbu); [done..| |done|done].
    intros x. by rewrite Ebw, Ebu.
  - intros v [->| ->].
    + destruct (depthFirstSearch_stack_or_full s u stack du Hdu) as [Hr|Hr]; [|by right].
      left. by exists du.
    + destruct (depthFirstSearch_stack_or_full s w stack dw Hdw) as [Hr|Hr]; [|by right].
      left. by exists dw.
Qed.

(** X26: after [removeVertex(v)] on a well-formed graph,
    [breadthFirstSearch] returns from every vertex [u] that is left and
    lists vertices of the graph only, [v] not among them; so does
    [depthFirstSearch], unless it throws a [RangeError], the stack having
    room for no more activations of [dfs] than there are [Node] objects. *)
Theorem X26_removed_vertex_not_listed s v u stack :
  well_formed s → member s v → member s u → u ≠ v →
  ∃ s' rb vb,
    removeVertex v s = Ok tt s' ∧
    breadthFirstSearch u s' = Ok rb s' ∧
    Forall2 (has_value s') vb rb ∧ Forall (member s') vb ∧ (v ∉ vb) ∧
    ((∃ rd vd, depthFirstSearch_stack stack u s' = Within (Ok rd s') ∧
               Forall2 (has_value s') vd rd ∧ Forall (member s') vd ∧ (v ∉ vd)) ∨
     (depthFirstSearch_stack stack u s' = RangeError s' ∧ stack ≤ size (heap s'))).
Proof.
  intros Hwf Mv Mu Hne.
  destruct (removeVertex_well_formed_spec s v Hwf Mv)
    as (s' & Hrun & _ & _ & Hmem & _ & _ & Hwf').
  assert (Mu' : member s' u) by by apply Hmem.
  destruct (well_formed_traversals s' u Hwf' Mu')
    as (rb & rd & vb & vd & Hb & Hd & _ & _ & ? & ? & Eb & Ed & Hin).
  assert (Hv : ¬ reachable s' u v).
  { intros Hr. apply Hin, Hmem in Hr as [? _]. done. }
  exists s', rb, vb. split_and!; [done..| | |].
  - apply Forall_forall. intros x Hx. by apply Hin, Eb.
  - by rewrite Eb.
  - destruct (depthFirstSearch_stack_or_full s' u stack rd Hd) as [Hr|Hr]; [|by right].
    left. exists rd, vd. split_and!; [done..| |].
    + apply Forall_forall. intros x Hx. by apply Hin, Ed.
    + by rewrite Ed.
Qed.

(** X27: after [addEdge(u, w)] between two vertices of a well-formed
    graph, [breadthFirstSearch] from [u] returns and lists [w], and from [w]
    it returns and lists [u]; so does [depthFirstSearch], unless it throws a
    [RangeError], the stack having room for no more activations of [dfs]
    than there are [Node] objects. *)
Theorem X27_added_edge_traversed s u w stack :
  well_formed s → member s u → member s w →
  ∃ s' bu bw vbu vbw,
    addEdge u w s = Ok tt s' ∧
    breadthFirstSearch u s' = Ok bu s' ∧ breadthFirstSearch w s' = Ok bw s' ∧
    Forall2 (has_value s') vbu bu ∧ Forall2 (has_value s') vbw bw ∧
    w ∈ vbu ∧ u ∈ vbw ∧
    ∀ a b, a = u ∧ b = w ∨ a = w ∧ b = u →
      (∃ d vd, depthFirstSearch_stack stack a s' = Within (Ok d s') ∧
               Forall2 (has_value s') vd d ∧ b ∈ vd) ∨
      (depthFirstSearch_stack stack a s' = RangeError s' ∧ stack ≤ size (heap s')).
Proof.
  intros Hwf Mu Mw. pose proof Hwf as (Hun & _).
  destruct (addEdge_well_formed s u w Hwf) as (s' & Hrun & Hwf').
  pose proof (addEdge_spec u w s Hun) as H. rewrite Hrun in H.
  destruct H as (O & [[Hn _]|(_ & _ & _ & _ & E)]); [by destruct Hn|].
  assert (Huw : adj s' u w) by (apply E; auto).
  assert (Hwu : adj s' w u) by (apply E; auto).
  destruct (well_formed_traversals s' u Hwf')
    as (bu & du & vbu & vdu & ? & Hdu & _ & _ & ? & ? & Ebu & Edu & _).
  { by apply (member_same_objects _ _ _ O). }
  destruct (well_formed_traversals s' w Hwf')
    as (bw & dw & vbw & vdw & ? & Hdw & _ & _ & ? & ? & Ebw & Edw & _).
  { by apply (member_same_objects _ _ _ O). }
  exists s', bu, bw, vbu, vbw. split_and!; [done..| | |].
  - apply Ebu. eapply reach_step; [constructor|done].
  - apply Ebw. eapply reach_step; [constructor|done].
  - intros a b [[-> ->]|[-> ->]].
    + destruct (depthFirstSearch_stack_or_full s' u stack du Hdu) as [Hr|Hr]; [|by right].
      left. exists du, vdu. split_and!; [done..|].
      apply Edu. eapply reach_step; [constructor|done].
    + destruct (depthFirstSearch_stack_or_full s' w stack dw Hdw) as [Hr|Hr]; [|by right].
      left. exists dw, vdw. split_and!; [done..|].
      apply Edw. eapply reach_step; [constructor|done].
Qed.

End StackClaims.

(** ** The further properties on concrete graphs *)

Section Checks.
Context {V : Type}.
Implicit Types (s : State V) (x u v : ref).

(** Checks over the keys of [nodes] and of the store, as above. *)
Lemma closed_graph_Forall s :
  Forall (λ u, Forall (member s) (set_keys (neighbors s u)))
         (set_keys (set_entries s (nodes (this s)))) →
  closed_graph s.
Proof.
  intros H u x Mu Hux. rewrite Forall_forall in H.
  specialize (H u (proj2 (elem_of_set_keys _ _) Mu)).
  rewrite Forall_forall in H. apply H. by apply elem_of_set_keys.
Qed.

Lemma isolated_Forall s x :
  is_node s x → set_keys (neighbors s x) = [] →
  map_Forall (λ _ nd, x ∉ set_keys (set_entries s (adjacent nd))) (heap s) →
  isolated s x.
Proof.
  intros Nx Hout Hin. split_and!; [done| |].
  - intros y Hy. apply elem_of_set_keys in Hy. rewrite Hout in Hy.
    by apply elem_of_nil in Hy.
  - intros u Hu. unfold adj, neighbors in Hu.
    destruct (deref s u) as [nd|] eqn:Hd; [|by apply elem_of_nil in Hu].
    destruct u as [| |a]; [done..|]. simpl in Hd.
    apply (Hin a nd Hd). by apply elem_of_set_keys.
Qed.

Lemma adjacents_allocated_Forall s :
  map_Forall (λ _ nd, is_Some (sets s !! adjacent nd)) (heap s) →
  adjacents_allocated s.
Proof. intros H [| |a] nd Hd; [done..|]. by apply (H a nd). Qed.

End Checks.

Lemma null_vertex_graph_state :
  null_vertex_graph empty_state = Ok (Obj 1) null_vertex_state.
Proof. vm_compute. reflexivity. Qed.

Lemma chain_state_well_formed : well_formed chain_state.
Proof.
  split_and!.
  - apply unshared_NoDup. decide_by_eval.
  - apply members_typed_Forall. decide_by_eval.
  - apply symmetric_Forall. decide_by_eval.
  - apply closed_graph_Forall. decide_by_eval.
Defined.

Lemma triangle_state_well_formed : well_formed triangle_state.
Proof.
  split_and!.
  - apply unshared_NoDup. decide_by_eval.
  - apply members_typed_Forall. decide_by_eval.
  - apply symmetric_Forall. decide_by_eval.
  - apply closed_graph_Forall. decide_by_eval.
Defined.

Lemma chain_state_allocated : sets_allocated chain_state.
Proof.
  split; [decide_by_eval|]. apply adjacents_allocated_Forall. decide_by_eval.
Defined.


Lemma X2_witness :
  ∃ a s', Node_new 4 (Some 2%positive) chain_state = Ok (Obj a) s' ∧
    Obj a ≠ Obj 1 ∧
    deref s' (Obj a) = Some (mkNode 4 2) ∧
    deref s' (Obj 1) = Some (mkNode 1 2) ∧
    (∀ s'', heap s'' = heap s' → neighbors s'' (Obj a) = neighbors s'' (Obj 1)) ∧
    ¬ unshared s'.
Proof.
  apply (X2_Node_given_adjacent_shared 4 chain_state (Obj 1) (mkNode 1 2)).
  vm_compute. reflexivity.
Defined.

Lemma X3_witness :
  ∃ s', Graph_new chain_state = Ok tt s' ∧
    heap s' = heap chain_state ∧
    (∀ q, set_entries s' q = set_entries chain_state q) ∧
    (∀ x, ¬ member s' x) ∧
    well_formed s' ∧ sets_allocated s'.
Proof.
  apply (X3_Graph_constructor chain_state).
  - apply unshared_own_sets, chain_state_well_formed.
  - apply chain_state_allocated.
Defined.

Lemma X6_witness :
  ∃ s1, addEdge (Obj 1) (Obj 3) chain_state = Ok tt s1 ∧
        adj s1 (Obj 1) (Obj 3) ∧
        addEdge (Obj 1) (Obj 3) s1 = Ok tt s1.
Proof.
  eexists. split; [vm_compute; reflexivity|]. split; [decide_by_eval|].
  apply (X6_addEdge_idempotent chain_state). vm_compute. reflexivity.
Defined.

Lemma X7_witness :
  ∃ s1, removeEdge (Obj 1) (Obj 2) chain_state = Ok tt s1 ∧
        ¬ adj s1 (Obj 1) (Obj 2) ∧
        removeEdge (Obj 1) (Obj 2) s1 = Ok tt s1.
Proof.
  eexists. split; [vm_compute; reflexivity|]. split; [decide_by_eval|].
  apply (X7_removeEdge_idempotent chain_state). vm_compute. reflexivity.
Defined.

Lemma X8_witness :
  (∀ s', addEdge (Obj 1) (Obj 3) chain_state = Ok tt s' ↔
         addEdge (Obj 3) (Obj 1) chain_state = Ok tt s') ∧
  (∀ s', removeEdge (Obj 1) (Obj 2) chain_state = Ok tt s' ↔
         removeEdge (Obj 2) (Obj 1) chain_state = Ok tt s').
Proof.
  split.
  - apply (X8_edges_undirected chain_state (Obj 1) (Obj 3)), chain_state_well_formed.
  - apply (X8_edges_undirected chain_state (Obj 1) (Obj 2)), chain_state_well_formed.
Defined.

Lemma X9_witness :
  ∃ s1 s2, addEdge (Obj 1) (Obj 3) chain_state = Ok tt s1 ∧
    removeEdge (Obj 1) (Obj 3) s1 = Ok tt s2 ∧
    (∀ u, member s2 u ↔ member chain_state u) ∧
    (∀ u y, adj s2 u y ↔ adj chain_state u y ∧
              ¬ (u = Obj 1 ∧ y = Obj 3) ∧ ¬ (u = Obj 3 ∧ y = Obj 1)).
Proof.
  apply (X9_addEdge_removeEdge chain_state (Obj 1) (Obj 3));
    [apply chain_state_well_formed|decide_by_eval..].
Defined.

Lemma X10_witness :
  ∃ s', removeVertex (Obj 2) chain_state = Ok tt s' ∧
        ¬ member s' (Obj 2) ∧ removeVertex (Obj 2) s' = Ok tt s'.
Proof.
  eexists. split; [vm_compute; reflexivity|].
  apply (X10_removeVertex_idempotent chain_state). vm_compute. reflexivity.
Defined.

Lemma X11_witness :
  ∃ s', removeVertex (Obj 1) triangle_state = Ok tt s' ∧
    (∀ x, member s' x ↔ x ≠ Obj 1 ∧ member triangle_state x) ∧
    (∀ u y, member triangle_state u →
       adj s' u y ↔ adj triangle_state u y ∧ u ≠ Obj 1 ∧ y ≠ Obj 1) ∧
    (∀ y, ¬ adj s' (Obj 1) y) ∧
    (∀ u, member s' u → ¬ reachable s' u (Obj 1)).
Proof.
  apply (X11_removeVertex_exact triangle_state (Obj 1)).
  - apply triangle_state_well_formed.
  - decide_by_eval.
Defined.

Lemma X12_witness :
  (∃ s', run_mutation (RemoveVertex (Obj 1)) triangle_state = Ok tt s' ∧
         well_formed s') ∧
  (∃ s', run_mutation (AddVertex (Obj 1)) stray_state = Ok tt s' ∧ well_formed s').
Proof.
  split.
  - apply (X12_well_formed_preserved triangle_state (RemoveVertex (Obj 1)));
      [apply triangle_state_well_formed|exact I].
  - apply (X12_well_formed_preserved stray_state (AddVertex (Obj 1))).
    + split_and!.
      * apply unshared_NoDup. decide_by_eval.
      * apply members_typed_Forall. decide_by_eval.
      * apply symmetric_Forall. decide_by_eval.
      * apply closed_graph_Forall. decide_by_eval.
    + right. apply isolated_Forall; decide_by_eval.
Defined.

Lemma X16_witness :
  ∃ vs, NoDup vs ∧ Forall2 (has_value triangle_state) vs [1; 2; 3] ∧
        (∀ x, x ∈ vs ↔ reachable triangle_state (Obj 1) x ∧ truthy x = true) ∧
        (truthy (Obj 1) = true → ∃ vs', vs = Obj 1 :: vs').
Proof.
  apply (X16_dfs_visits_reachable triangle_state (Obj 1) [1; 2; 3] triangle_state).
  vm_compute. reflexivity.
Defined.

Lemma X17_witness :
  ∃ vs, NoDup vs ∧ Forall2 (has_value triangle_state) vs [1; 2; 3] ∧
        (∀ x, x ∈ vs ↔ reachable triangle_state (Obj 1) x).
Proof.
  apply (X17_bfs_visits_reachable triangle_state (Obj 1) [1; 2; 3] triangle_state).
  vm_compute. reflexivity.
Defined.

Lemma X18_witness :
  ∃ nd front,
    deref triangle_state (Obj 1) = Some nd ∧
    Forall2 (has_value triangle_state)
      (set_keys (set_of_list
         (Obj 1 :: set_keys (set_entries triangle_state (adjacent nd))))) front ∧
    front `prefix_of` [1; 2; 3].
Proof.
  apply (X18_bfs_neighbours_first triangle_state (Obj 1) [1; 2; 3] triangle_state).
  vm_compute. reflexivity.
Defined.


Lemma X20_witness :
  depthFirstSearch (Obj 4) triangle_state = Ok [4] triangle_state ∧
  breadthFirstSearch (Obj 4) triangle_state = Ok [4] triangle_state.
Proof.
  apply (X20_single_vertex triangle_state (Obj 4) (mkNode 4 5));
    vm_compute; reflexivity.
Defined.

Lemma X22_witness :
  removeVertex Null null_vertex_state = TypeError null_vertex_state ∧
  (∀ x, member null_vertex_state x →
     addEdge Null x null_vertex_state = TypeError null_vertex_state ∧
     removeEdge Null x null_vertex_state = TypeError null_vertex_state) ∧
  (∀ x, member null_vertex_state x → is_node null_vertex_state x →
     ∃ s1 s2, addEdge x Null null_vertex_state = TypeError s1 ∧ adj s1 x Null ∧
              removeEdge x Null null_vertex_state = TypeError s2 ∧ ¬ adj s2 x Null).
Proof.
  apply (X22_non_node_member null_vertex_state Null); decide_by_eval.
Defined.

Lemma X23_witness :
  ∃ vs ds, NoDup vs ∧ Forall2 (has_value triangle_state) vs [1; 2; 3] ∧
           Forall2 (distance triangle_state (Obj 1)) vs ds ∧ StronglySorted le ds.
Proof.
  apply (X23_bfs_distance_order triangle_state (Obj 1) [1; 2; 3] triangle_state).
  vm_compute. reflexivity.
Defined.

Lemma X24_witness :
  ∃ vs, NoDup vs ∧ Forall2 (has_value triangle_state) vs [1; 2; 3] ∧
    ∀ pre u x post, vs = pre ++ u :: x :: post →
      adj triangle_state u x ∨
      ∀ y, adj triangle_state u y → truthy y = true → y ∈ pre ++ [u].
Proof.
  apply (X24_dfs_depth_first triangle_state (Obj 1) [1; 2; 3] triangle_state).
  vm_compute. reflexivity.
Defined.

(** C8, as stated, fails for [depthFirstSearch]: [dfs] calls itself once for
    every vertex along a path, and the call stack is finite.  Whatever room
    the stack has, on the path with one vertex more, a well-formed graph
    whose adjacency sets hold [Node]s only, [depthFirstSearch] from the
    first vertex throws a [RangeError], while [breadthFirstSearch] returns.
    The path of three vertices is the chain of C7. *)
Lemma C8_counterexample :
  (∀ stack,
     well_formed (path_state (S stack)) ∧
     links_typed (path_state (S stack)) ∧
     is_node (path_state (S stack)) (Obj 1) ∧
     (∃ r, breadthFirstSearch (Obj 1) (path_state (S stack))
           = Ok r (path_state (S stack))) ∧
     depthFirstSearch_stack stack (Obj 1) (path_state (S stack))
     = RangeError (path_state (S stack))) ∧
  path_state 3 = chain_state.
Proof.
  split; [|vm_compute; reflexivity]. intros stack.
  assert (Hn : is_node (path_state (S stack)) (Obj 1)).
  { eexists. apply (path_deref (S stack) 0). lia. }
  split_and!.
  - apply path_well_formed.
  - apply path_links_typed.
  - done.
  - destruct (traversals_typed_return _ _ (path_links_typed (S stack)) Hn)
      as (_ & r & _ & Hr). by exists r.
  - apply path_depthFirstSearch_stack.
Qed.

Lemma C8_witness :
  ((∃ r', breadthFirstSearch (Obj 1) triangle_state = Ok r' triangle_state) ∧
   ∃ r, ∀ stack,
     (size (heap triangle_state) < stack →
        depthFirstSearch_stack stack (Obj 1) triangle_state
        = Within (Ok r triangle_state)) ∧
     (depthFirstSearch_stack stack (Obj 1) triangle_state
      = Within (Ok r triangle_state) ∨
      depthFirstSearch_stack stack (Obj 1) triangle_state
      = RangeError triangle_state)) ∧
  ∃ s', run_mutation (RemoveVertex (Obj 1)) triangle_state = Ok tt s'.
Proof.
  split.
  - apply (proj1 (proj2 (proj2 (C8_termination triangle_state (Obj 1))))).
    + apply links_typed_Forall. decide_by_eval.
    + decide_by_eval.
  - apply (proj2 (proj2 (proj2 (C8_termination triangle_state (Obj 1))))).
    apply members_typed_Forall. decide_by_eval.
Defined.

Lemma X19_witness :
  (∃ r', depthFirstSearch_stack 4 (Obj 2) chain_state = Within (Ok r' chain_state) ∧
         r' ≡ₚ [2; 1; 3]) ∨
  (depthFirstSearch_stack 4 (Obj 2) chain_state = RangeError chain_state ∧
   4 ≤ size (heap chain_state)).
Proof.
  apply (X19_bfs_dfs_same_values chain_state (Obj 2) [2; 1; 3] chain_state 4).
  vm_compute. reflexivity.
Defined.

Lemma X25_witness :
  ∃ bu bw,
    breadthFirstSearch (Obj 1) triangle_state = Ok bu triangle_state ∧
    breadthFirstSearch (Obj 3) triangle_state = Ok bw triangle_state ∧
    bw ≡ₚ bu ∧
    ∀ v, v = Obj 1 ∨ v = Obj 3 →
      (∃ d, depthFirstSearch_stack 5 v triangle_state = Within (Ok d triangle_state) ∧
            d ≡ₚ bu) ∨
      (depthFirstSearch_stack 5 v triangle_state = RangeError triangle_state ∧
       5 ≤ size (heap triangle_state)).
Proof.
  apply (X25_same_component triangle_state (Obj 1) (Obj 3) 5).
  - apply triangle_state_well_formed.
  - decide_by_eval.
  - eapply reach_step; [constructor|decide_by_eval].
Defined.

Lemma X26_witness :
  ∃ s' rb vb,
    removeVertex (Obj 1) triangle_state = Ok tt s' ∧
    breadthFirstSearch (Obj 2) s' = Ok rb s' ∧
    Forall2 (has_value s') vb rb ∧ Forall (member s') vb ∧ (Obj 1 ∉ vb) ∧
    ((∃ rd vd, depthFirstSearch_stack 5 (Obj 2) s' = Within (Ok rd s') ∧
               Forall2 (has_value s') vd rd ∧ Forall (member s') vd ∧
               (Obj 1 ∉ vd)) ∨
     (depthFirstSearch_stack 5 (Obj 2) s' = RangeError s' ∧ 5 ≤ size (heap s'))).
Proof.
  apply (X26_removed_vertex_not_listed triangle_state (Obj 1) (Obj 2) 5).
  - apply triangle_state_well_formed.
  - decide_by_eval.
  - decide_by_eval.
  - done.
Defined.

Lemma X27_witness :
  ∃ s' bu bw vbu vbw,
    addEdge (Obj 1) (Obj 3) chain_state = Ok tt s' ∧
    breadthFirstSearch (Obj 1) s' = Ok bu s' ∧
    breadthFirstSearch (Obj 3) s' = Ok bw s' ∧
    Forall2 (has_value s') vbu bu ∧ Forall2 (has_value s') vbw bw ∧
    Obj 3 ∈ vbu ∧ Obj 1 ∈ vbw ∧
    ∀ a b, a = Obj 1 ∧ b = Obj 3 ∨ a = Obj 3 ∧ b = Obj 1 →
      (∃ d vd, depthFirstSearch_stack 4 a s' = Within (Ok d s') ∧
               Forall2 (has_value s') vd d ∧ b ∈ vd) ∨
      (depthFirstSearch_stack 4 a s' = RangeError s' ∧ 4 ≤ size (heap s')).
Proof.
  apply (X27_added_edge_traversed chain_state (Obj 1) (Obj 3) 4).
  - apply chain_state_well_formed.
  - decide_by_eval.
  - decide_by_eval.
Defined.
